(** * Collaborative Canvas: the replicated operation log and its reconciliation

    A shallow embedding of the server-side drawing state
    ([createDrawingState]: [appendOp], [patchPoints], [globalUndo],
    [globalRedo], [clear]), of the room-load path of the server, and of the
    client-side handlers of the canvas controller that merge network events
    into the local stroke list; further of the table of rooms
    ([createRooms]), of the handlers of a connection and the events they
    emit, of the persistence routes ([roomFile], save, load), of the socket
    module of the client ([randomColorFromId], [joinRoom]), and of
    [moveStroke], [endStroke], [onShapeAppended] and [smoothPoints] of the
    canvas controller.

    Conventions.
    - JavaScript numbers that are timestamps ([Date.now()], [timestamp],
      [serverTimestamp]) are integers of milliseconds and are modelled in [Z].
    - An optional property ([timestamp?], [serverTimestamp?], [isDeleted?])
      is an [option]; [None] stands for [undefined].
    - [localeCompare] compares by the collation of the locale, which is a
      parameter ([Collation]); the properties hold for every collation.
    - Point coordinates and canvas sizes are floating-point numbers.  The
      log and the handlers only store, copy and compare them, so there
      they are kept as integers; the arithmetic that rendering performs on
      them is a parameter ([Geometry]).  [smoothPoints] is modelled on the
      floating-point numbers themselves.
    - An array is a [list]; [push] appends at the end, [pop] removes the
      last element.
    - Rendering ([redrawAll], [drawStroke]) is modelled by what it writes
      to the state of the controller: the points of a locally committed
      stroke, its stored coordinates and the stored box of the canvas.
      What it draws is not modelled.  The box of the canvas
      ([canvas.getBoundingClientRect()]) is an input of every function
      that renders.  The render loop calls the same two functions between
      events; the properties of the client are stated for the handlers.
    - A message or a file carries plain data, so what is received or read
      back is what was sent or written. *)

From Stdlib Require Import ZArith Lia Ascii String Floats.
From stdpp Require Import base tactics option relations list sorting.
From stdpp Require Import strings pretty gmap.

Local Open Scope Z_scope.

(** ** Data model *)

Record Point := mkPoint { x : Z; y : Z; t : Z }.

Inductive Mode := draw | erase.

Inductive OpType := stroke | shape.

(** [StrokeOp] and the shape records of the client share their header; the
    server treats every operation as an untyped object and only reads or
    writes the fields below.  [payload] stands for the shape-specific
    properties, which no function here inspects; a shape has no points
    unless a patch gives it some. *)
Record Op := mkOp {
  id : string;
  userId : string;
  type : OpType;
  mode : Mode;
  color : string;
  width : Z;
  points : list Point;
  payload : string;
  timestamp : option Z;
  serverTimestamp : option Z;
  isDeleted : option bool;
}.

#[global] Instance Point_eq_dec : EqDecision Point.
Proof. solve_decision. Defined.
#[global] Instance Mode_eq_dec : EqDecision Mode.
Proof. solve_decision. Defined.
#[global] Instance OpType_eq_dec : EqDecision OpType.
Proof. solve_decision. Defined.
#[global] Instance Op_eq_dec : EqDecision Op.
Proof. solve_decision. Defined.

Definition set_points (ps : list Point) (o : Op) : Op :=
  mkOp (id o) (userId o) (type o) (mode o) (color o) (width o) ps (payload o)
       (timestamp o) (serverTimestamp o) (isDeleted o).

Definition set_isDeleted (b : bool) (o : Op) : Op :=
  mkOp (id o) (userId o) (type o) (mode o) (color o) (width o) (points o)
       (payload o) (timestamp o) (serverTimestamp o) (Some b).

(** ** JavaScript helpers *)

(** Truthiness of an optional boolean property: [undefined] is falsy. *)
Definition truthy (b : option bool) : bool :=
  match b with Some true => true | _ => false end.

(** [v || d] for an optional number: [undefined] and [0] are falsy. *)
Definition num_or (v : option Z) (d : Z) : Z :=
  match v with
  | Some n => if decide (n = 0) then d else n
  | None => d
  end.

(** [a - b] as seen by [Array.prototype.sort]: a subtraction with an
    [undefined] operand is [NaN], which [sort] treats as [+0]. *)
Definition num_sub (a b : option Z) : Z :=
  match a, b with
  | Some m, Some n => m - n
  | _, _ => 0
  end.

(** [a.localeCompare(b)] compares two strings by the collation of the
    locale of the program that runs it, which the code does not fix.  A
    collation is a consistent comparator: it compares the collation keys
    of the two strings, and distinct strings may have the same key.  The
    key function [sort_key] is a parameter of the model; keys are strings
    compared by code units.  Only the sign of the result is used. *)
Class Collation := { sort_key : string → string }.

Definition localeCompare `{!Collation} (a b : string) : Z :=
  match String.compare (sort_key a) (sort_key b) with
  | Lt => -1
  | Eq => 0
  | Gt => 1
  end.

(** The collation whose keys are the strings themselves.  The example
    data below is ordered by it; its user ids are made of lower-case
    letters. *)
Definition code_units : Collation := {| sort_key := λ s, s |}.

(** [Array.prototype.find]: the index of the first element satisfying the
    predicate, so that the object found can be updated in place. *)
Fixpoint findIndex {A} (p : A → bool) (l : list A) : option nat :=
  match l with
  | [] => None
  | a :: l' => if p a then Some 0%nat else S <$> findIndex p l'
  end.

(** [Array.prototype.sort(cmp)]: a stable sort; [x] is moved behind [y]
    exactly when [cmp x y > 0].  For a comparator that orders the elements
    consistently, as the comparators of this program do on the operations
    of a log, every stable sort returns this array. *)
Section sort.
Context {A : Type} (cmp : A → A → Z).

Fixpoint insert_sorted (a : A) (l : list A) : list A :=
  match l with
  | [] => [a]
  | b :: l' => if decide (cmp a b ≤ 0) then a :: b :: l'
               else b :: insert_sorted a l'
  end.

Fixpoint sort (l : list A) : list A :=
  match l with
  | [] => []
  | a :: l' => insert_sorted a (sort l')
  end.
End sort.

(** [Array.prototype.pop]: the array without its last element, and that
    element ([None] on an empty array, which is left empty). *)
Definition pop {A} (l : list A) : list A * option A :=
  (removelast l, last l).

(** ** The server: [createDrawingState] *)

Module DrawingState.

Record State := mkState {
  ops : list Op;
  redoStack : list string;
}.

Definition createDrawingState : State := mkState [] [].

Section collation.
Context {collation : Collation}.

(** The comparator of [ops.sort] in [appendOp]. *)
Definition compareOps (a b : Op) : Z :=
  if decide (timestamp a ≠ timestamp b) then
    num_sub (timestamp a) (timestamp b)
  else if decide (serverTimestamp a ≠ serverTimestamp b) then
    num_sub (serverTimestamp a) (serverTimestamp b)
  else localeCompare (userId a) (userId b).

(** [appendOp(op)].  [now1] and [now2] are the values of the two calls of
    [Date.now()], in evaluation order: the first one is the server
    timestamp, the second one is the fall-back for a missing (or zero)
    client timestamp. *)
Definition stamp (now1 now2 : Z) (op : Op) : Op :=
  mkOp (id op) (userId op) (type op) (mode op) (color op) (width op)
       (points op) (payload op)
       (Some (num_or (timestamp op) now2)) (Some now1) (Some false).

Definition appendOp (now1 now2 : Z) (op : Op) (st : State) : State :=
  let strokeWithTimestamp := stamp now1 now2 op in
  mkState (sort compareOps (ops st ++ [strokeWithTimestamp])) [].

(** [patchPoints(id, points)]. *)
Definition patchPoints (i : string) (ps : list Point) (st : State) : State :=
  match findIndex (λ o, bool_decide (id o = i)) (ops st) with
  | Some k => mkState (alter (set_points ps) k (ops st)) (redoStack st)
  | None => st
  end.

(** [globalUndo()].  [undo_loop n] runs the loop from index [n - 1] down
    to [0]; the loop starts at [ops.length - 1], so the index is always in
    range. *)
Fixpoint undo_loop (n : nat) (st : State) : State :=
  match n with
  | O => st
  | S i =>
      match ops st !! i with
      | Some o =>
          if negb (truthy (isDeleted o)) then
            mkState (alter (set_isDeleted true) i (ops st))
                    (redoStack st ++ [id o])
          else undo_loop i st
      | None => undo_loop i st
      end
  end.

Definition globalUndo (st : State) : State :=
  undo_loop (length (ops st)) st.

(** [globalRedo()].  [!id] holds for [undefined] (empty stack) and for
    the empty string. *)
Definition globalRedo (st : State) : State :=
  match pop (redoStack st) with
  | (_, None) => st
  | (rest, Some i) =>
      if decide (i = EmptyString) then mkState (ops st) rest
      else
        match findIndex (λ o, bool_decide (id o = i)) (ops st) with
        | Some k => mkState (alter (set_isDeleted false) k (ops st)) rest
        | None => mkState (ops st) rest
        end
  end.

End collation.

Definition clear (st : State) : State := mkState [] [].

End DrawingState.

(** ** The server: request handlers of [io.on('connection')] and the
    persistence route *)

Module Server.
Import DrawingState.

(** The requests that reach the drawing state of one room.  A request
    that appends carries the readings of [Date.now()] made while it is
    served. *)
Inductive Request :=
| stroke_start (now1 now2 : Z) (op : Op)
| shape_add (now1 now2 : Z) (op : Op)
| stroke_update (i : string) (ps : list Point)
| stroke_end (i : string)
| history_undo
| history_redo
| history_clear
| rooms_load (data : list (Z * Z * Op)).

Section collation.
Context {collation : Collation}.

(** [POST /api/rooms/:room/load]: [r.state.clear()] followed by
    [r.state.appendOp(op)] for the records of the file that the loop
    appends: all of them, or those that come before a record on which
    [appendOp] throws. *)
Definition loadOps (data : list (Z * Z * Op)) (st : State) : State :=
  foldl (λ s rec, appendOp rec.1.1 rec.1.2 rec.2 s) (clear st) data.

Definition handle (r : Request) (st : State) : State :=
  match r with
  | stroke_start now1 now2 op => appendOp now1 now2 op st
  | shape_add now1 now2 op => appendOp now1 now2 op st
  | stroke_update i ps => patchPoints i ps st
  | stroke_end _ => st
  | history_undo => globalUndo st
  | history_redo => globalRedo st
  | history_clear => clear st
  | rooms_load data => loadOps data st
  end.

(** [Date.now()] is a positive number of milliseconds. *)
Definition clock_ok (r : Request) : Prop :=
  match r with
  | stroke_start now1 now2 _ | shape_add now1 now2 _ => 0 < now1 ∧ 0 < now2
  | rooms_load data => Forall (λ rec, 0 < rec.1.1 ∧ 0 < rec.1.2) data
  | _ => True
  end.

(** The states of a room's log: those reached from the empty state by
    serving requests. *)
Inductive reachable : State → Prop :=
| reachable_init : reachable createDrawingState
| reachable_step r st :
    reachable st → clock_ok r → reachable (handle r st).

Definition run (rs : list Request) (st : State) : State :=
  foldl (λ s r, handle r s) st rs.

End collation.

End Server.

(** ** The client: network handlers of [createCanvasController] *)

Module Canvas.

(** Stroke objects are shared between the [strokes] array and
    [activeStroke] and are updated in place, so they live in a store and
    the array holds references.  Shapes are never written to once they
    are in [shapes]; they are held by value. *)
Definition loc := nat.

#[global] Instance Op_inhabited : Inhabited Op :=
  populate (mkOp EmptyString EmptyString stroke draw EmptyString 0 []
                 EmptyString None None None).

(** The box of the canvas, [canvas.getBoundingClientRect()]: its width
    and its height. *)
Definition Size : Type := (Z * Z)%type.

(** The arithmetic of rendering.  Coordinates and sizes are floating-point
    numbers in the program, and the integers of the model stand for
    them.  The handlers only store, copy and compare them; rendering
    computes with them in the five ways below, which are parameters of
    the model, so that nothing is assumed about how an integer stands for
    a number. *)
Class Geometry := {
  (** [Math.abs(a - b) > 0.01] *)
  far : Z → Z → bool;
  (** [Math.abs(w - w') + Math.abs(h - h') > 1] *)
  box_differs : Size → Size → bool;
  (** [a > 0] *)
  positive : Z → bool;
  (** [Number((a * b).toFixed(4))] *)
  scaled : Z → Z → Z;
  (** [a / b] *)
  ratio : Z → Z → Z;
}.

(** The arithmetic on whole numbers, for the examples: it is that of the
    program on whole numbers, where the division is exact. *)
Definition whole_numbers : Geometry := {|
  far a b := bool_decide (a ≠ b);
  box_differs s s' :=
    bool_decide (1 < Z.abs (s.1 - s'.1) + Z.abs (s.2 - s'.2));
  positive a := bool_decide (0 < a);
  scaled a b := a * b;
  ratio a b := a / b;
|}.

Record Controller := mkController {
  myUserId : string;
  heap : gmap loc Op;
  strokes : list loc;
  shapes : list Op;
  activeStroke : option loc;
  isPointerDown : bool;
  locallyCommittedStrokes : gset string;
  committedStrokeCoordinates : gmap string (list Point);
  committedStrokeCanvasSize : gmap string Size;
  committedStrokeNormalizedCoordinates : gmap string (list Point);
}.

(** The part of the controller that the network handlers write. *)
Definition update (h : gmap loc Op) (ss : list loc) (sh : list Op)
    (a : option loc) (c : Controller) : Controller :=
  mkController (myUserId c) h ss sh a (isPointerDown c)
               (locallyCommittedStrokes c) (committedStrokeCoordinates c)
               (committedStrokeCanvasSize c)
               (committedStrokeNormalizedCoordinates c).

Definition set_heap (h : gmap loc Op) (c : Controller) : Controller :=
  update h (strokes c) (shapes c) (activeStroke c) c.

(** The part of the controller that rendering writes besides the points
    of stroke objects: the stored coordinates and the stored box. *)
Definition set_stored (coords : gmap string (list Point))
    (sizes : gmap string Size) (c : Controller) : Controller :=
  mkController (myUserId c) (heap c) (strokes c) (shapes c) (activeStroke c)
               (isPointerDown c) (locallyCommittedStrokes c) coords sizes
               (committedStrokeNormalizedCoordinates c).

Section collation.
Context {collation : Collation} {geometry : Geometry}.

(** The comparator shared by [redrawAll], [onInitialState],
    [onStrokeAppended], [onWholeStateReplaced] and [endStroke]. *)
Definition sorter (a b : Op) : Z :=
  let aTime := num_or (timestamp a) 0 in
  let bTime := num_or (timestamp b) 0 in
  if decide (aTime ≠ bTime) then aTime - bTime
  else
    let aServerTime := num_or (serverTimestamp a) aTime in
    let bServerTime := num_or (serverTimestamp b) bTime in
    if decide (aServerTime ≠ bServerTime) then aServerTime - bServerTime
    else localeCompare (userId a) (userId b).

Definition sort_refs (h : gmap loc Op) (ls : list loc) : list loc :=
  sort (λ a b, sorter (h !!! a) (h !!! b)) ls.

(** [Math.abs(p.x - q.x) > 0.01 || Math.abs(p.y - q.y) > 0.01]. *)
Definition first_moved (p q : Point) : bool :=
  far (x p) (x q) || far (y p) (y q).

(** [sizeDiff > 1 && currentRect.width > 0 && currentRect.height > 0]. *)
Definition size_changed (currentRect storedSize : Size) : bool :=
  box_differs currentRect storedSize
  && positive currentRect.1 && positive currentRect.2.

(** [normalizedPoints.map(p => ({ x: Number((p.x * w).toFixed(4)),
    y: Number((p.y * h).toFixed(4)), t: p.t }))]. *)
Definition denormalize (rect : Size) (ps : list Point) : list Point :=
  (λ p, mkPoint (scaled (x p) rect.1) (scaled (y p) rect.2) (t p)) <$> ps.

(** [points.map(p => ({ x: p.x / w, y: p.y / h, t: p.t }))]. *)
Definition normalize (rect : Size) (ps : list Point) : list Point :=
  (λ p, mkPoint (ratio (x p) rect.1) (ratio (y p) rect.2) (t p)) <$> ps.

Definition is_committed (c : Controller) (i : string) : bool :=
  bool_decide (i ∈ locallyCommittedStrokes c).

(** What [drawStroke] writes when it draws the stroke object [l] on a
    canvas with the box [rect].  For a locally committed stroke it
    recomputes the stored coordinates from the normalised ones when the
    box is not the stored one, and it assigns the stored coordinates to
    the points of the object when the first points differ.  The drawing
    itself writes to the canvas only. *)
Definition drawStroke (rect : Size) (l : loc) (c : Controller)
    : Controller :=
  let s := heap c !!! l in
  if truthy (isDeleted s) then c
  else if is_committed c (id s) then
    let c1 :=
      match committedStrokeCoordinates c !! id s,
            committedStrokeCanvasSize c !! id s,
            committedStrokeNormalizedCoordinates c !! id s with
      | Some _, Some storedSize, Some normalizedPoints =>
          if size_changed rect storedSize then
            set_stored
              (<[id s := denormalize rect normalizedPoints]>
                 (committedStrokeCoordinates c))
              (<[id s := rect]> (committedStrokeCanvasSize c)) c
          else c
      | _, _, _ => c
      end in
    match committedStrokeCoordinates c1 !! id s with
    | Some ((firstStoredPoint :: _) as storedPoints) =>
        if match points s with
           | [] => true
           | firstStrokePoint :: _ =>
               first_moved firstStrokePoint firstStoredPoint
           end
        then set_heap (alter (set_points storedPoints) l (heap c1)) c1
        else c1
    | _ => c1
    end
  else c.

(** The body of the loop of [redrawAll] for a stroke object of the
    list. *)
Definition redraw_stroke (rect : Size) (c : Controller) (l : loc)
    : Controller :=
  let s := heap c !!! l in
  if decide (type s = stroke) then
    if truthy (isDeleted s) then c
    else
      let c1 :=
        if is_committed c (id s) then
          match committedStrokeCoordinates c !! id s, points s with
          | Some ((storedFirst :: _) as stored), strokeFirst :: _ =>
              if first_moved strokeFirst storedFirst
              then set_heap (alter (set_points stored) l (heap c)) c
              else c
          | _, _ => c
          end
        else c in
      drawStroke rect l c1
  else c.

(** [redrawAll] on a canvas with the box [rect]: the strokes and the
    shapes are drawn in the order of the comparator.  The objects of
    [shapes] have the type [shape] (every handler that writes the list
    filters on it) and go to [drawShape], which writes to the canvas
    only. *)
Definition redrawAll (rect : Size) (c : Controller) : Controller :=
  let op_of (e : loc + Op) :=
    match e with inl l => heap c !!! l | inr o => o end in
  let sortedOps :=
    sort (λ a b, sorter (op_of a) (op_of b))
         ((inl <$> strokes c) ++ (inr <$> shapes c)) in
  foldl (λ c e, match e with
                | inl l => redraw_stroke rect c l
                | inr _ => c
                end) c sortedOps.

(** A message payload is deserialised into new objects. *)
Definition alloc (o : Op) (h : gmap loc Op) : loc * gmap loc Op :=
  let l := fresh (dom h) in (l, <[l := o]> h).

Fixpoint alloc_list (os : list Op) (h : gmap loc Op)
    : list loc * gmap loc Op :=
  match os with
  | [] => ([], h)
  | o :: os' =>
      let (l, h1) := alloc o h in
      let (ls, h2) := alloc_list os' h1 in
      (l :: ls, h2)
  end.

(** [strokes.find(s => s.id === i)]. *)
Definition find_stroke (h : gmap loc Op) (i : string) (ls : list loc)
    : option loc :=
  find (λ l, bool_decide (id (h !!! l) = i)) ls.

(** [activeStroke && activeStroke.id === i]. *)
Definition active_is (c : Controller) (i : string) : bool :=
  match activeStroke c with
  | Some a => bool_decide (id (heap c !!! a) = i)
  | None => false
  end.

(** The meta-data assignments of [onStrokeAppended] on [existing]. *)
Definition sync_metadata (s existing : Op) : Op :=
  mkOp (id existing) (userId existing) (type existing)
       (mode s) (color s) (width s) (points existing) (payload existing)
       (match timestamp s with
        | Some n => if decide (n = 0) then timestamp existing else Some n
        | None => timestamp existing
        end)
       (match serverTimestamp s with
        | Some n => if decide (n = 0) then serverTimestamp existing
                    else Some n
        | None => serverTimestamp existing
        end)
       (isDeleted existing).

(** [network.onStrokeAppended]; [rect] is the box of the canvas when the
    event arrives. *)
Definition onStrokeAppended (rect : Size) (s : Op) (c : Controller)
    : Controller :=
  if is_committed c (id s) then c
  else
    let existing := find_stroke (heap c) (id s) (strokes c) in
    if active_is c (id s) && isPointerDown c then c
    else
      match existing with
      | Some e =>
          if bool_decide (userId (heap c !!! e) = myUserId c) then
            set_heap (alter (sync_metadata s) e (heap c)) c
          else c
      | None =>
          if active_is c (id s) && negb (isPointerDown c) then c
          else
            let (l, h) := alloc s (heap c) in
            let c' :=
              update h (sort_refs h (strokes c ++ [l])) (shapes c)
                     (activeStroke c) c in
            if isPointerDown c then c' else redrawAll rect c'
      end.

(** [network.onStrokePatched]. *)
Definition onStrokePatched (i : string) (ps : list Point) (c : Controller)
    : Controller :=
  if is_committed c i then c
  else if active_is c i && isPointerDown c then c
  else
    let s := find_stroke (heap c) i (strokes c) in
    if match s with
       | Some l => bool_decide (userId (heap c !!! l) = myUserId c)
       | None => false
       end
    then c
    else if active_is c i && negb (isPointerDown c) then
      match activeStroke c with
      | Some a =>
          if decide (length (points (heap c !!! a)) < length ps)%nat then
            set_heap (alter (set_points ps) a (heap c)) c
          else c
      | None => c
      end
    else
      match s with
      | None => c
      | Some l => set_heap (alter (set_points ps) l (heap c)) c
      end.

(** [stroke.points = storedCoords.map(p => ({ x: p.x, y: p.y, t: p.t }))]
    for a stroke that has stored coordinates. *)
Definition restore_points (c : Controller) (h : gmap loc Op) (l : loc)
    : gmap loc Op :=
  match committedStrokeCoordinates c !! id (h !!! l) with
  | Some storedCoords => alter (set_points storedCoords) l h
  | None => h
  end.

(** [network.onInitialState]. *)
Definition onInitialState (rect : Size) (list : list Op) (c : Controller)
    : Controller :=
  let (refs, h1) := alloc_list list (heap c) in
  let serverStrokes :=
    filter (λ l, type (h1 !!! l) = stroke) refs in
  let committedStrokes :=
    filter (λ l, id (heap c !!! l) ∈ locallyCommittedStrokes c)
           (strokes c) in
  let h2 := foldl (restore_points c) h1 committedStrokes in
  let mergedStrokes :=
    filter (λ l, ¬ (id (h2 !!! l) ∈ locallyCommittedStrokes c))
           serverStrokes
    ++ committedStrokes in
  redrawAll rect
    (update h2 (sort_refs h2 mergedStrokes)
            (sort sorter (filter (λ o, type o = shape) list))
            (activeStroke c) c).

(** [network.onWholeStateReplaced]. *)
Definition onWholeStateReplaced (rect : Size) (list : list Op)
    (c : Controller) : Controller :=
  let (refs, h1) := alloc_list list (heap c) in
  let newStrokes := filter (λ l, type (h1 !!! l) = stroke) refs in
  let newShapes := filter (λ o, type o = shape) list in
  let ourCommittedStrokes :=
    filter (λ l, id (heap c !!! l) ∈ locallyCommittedStrokes c
                 ∨ (userId (heap c !!! l) = myUserId c
                    ∧ Some (id (heap c !!! l))
                      ≠ (λ a, id (heap c !!! a)) <$> activeStroke c))
           (strokes c) in
  let h2 :=
    foldl (λ h l, if decide (id (h !!! l) ∈ locallyCommittedStrokes c)
                  then restore_points c h l else h)
          h1 ourCommittedStrokes in
  let foreign :=
    filter (λ l, ¬ (id (h2 !!! l) ∈ locallyCommittedStrokes c)
                 ∧ userId (h2 !!! l) ≠ myUserId c) newStrokes in
  let (ss, a') :=
    match activeStroke c with
    | Some a =>
        match find_stroke h2 (id (h2 !!! a)) newStrokes with
        | None => (foreign ++ ourCommittedStrokes ++ [a], Some a)
        | Some activeInState =>
            let keepLocal :=
              isPointerDown c || is_committed c (id (h2 !!! a)) in
            let syncActive :=
              negb (isPointerDown c)
              && negb (is_committed c (id (h2 !!! a))) in
            ((if keepLocal then foreign ++ ourCommittedStrokes ++ [a]
              else foreign ++ ourCommittedStrokes),
             (if syncActive then Some activeInState else Some a))
        end
    | None => (foreign ++ ourCommittedStrokes, None)
    end in
  redrawAll rect (update h2 (sort_refs h2 ss) (sort sorter newShapes) a' c).

(** [strokes[k].points = stored.map(...)] for the first stroke of the
    list with the id [i], if it has stored coordinates. *)
Definition restore_first (coords : gmap string (list Point)) (i : string)
    (h : gmap loc Op) (ls : list loc) : gmap loc Op :=
  match find_stroke h i ls, coords !! i with
  | Some l, Some stored => alter (set_points stored) l h
  | _, _ => h
  end.

(** The check of [endStroke] before it redraws: the first stroke of the
    list with the id [i] gets the locked points when its first point is
    not the first locked one. *)
Definition verify_stroke (locked : list Point) (i : string)
    (h : gmap loc Op) (ls : list loc) : gmap loc Op :=
  match find_stroke h i ls, locked with
  | Some l, storedFirst :: _ =>
      match points (h !!! l) with
      | strokeFirst :: _ =>
          if first_moved strokeFirst storedFirst
          then alter (set_points locked) l h
          else h
      | [] => h
      end
  | _, _ => h
  end.

(** [endStroke], the commit of the stroke being drawn, on a canvas with
    the box [rect].  [lock] stands for the rounding of the coordinates to
    four decimals and their rescaling when the canvas was resized while
    the stroke was drawn. *)
Definition endStroke (lock : list Point → list Point) (rect : Size)
    (c : Controller) : Controller :=
  match activeStroke c with
  | None => c
  | Some a =>
      let active := heap c !!! a in
      if decide (length (points active) = 0%nat) then
        mkController (myUserId c) (heap c) (strokes c) (shapes c) None
                     false (locallyCommittedStrokes c)
                     (committedStrokeCoordinates c)
                     (committedStrokeCanvasSize c)
                     (committedStrokeNormalizedCoordinates c)
      else
        let committedStrokeId := id active in
        let lockedPointsRounded := lock (points active) in
        let committed :=
          {[ committedStrokeId ]} ∪ locallyCommittedStrokes c in
        let coords :=
          <[ committedStrokeId := lockedPointsRounded ]>
            (committedStrokeCoordinates c) in
        let sizes :=
          <[ committedStrokeId := rect ]> (committedStrokeCanvasSize c) in
        let normalized :=
          if positive rect.1 && positive rect.2 then
            <[ committedStrokeId := normalize rect lockedPointsRounded ]>
              (committedStrokeNormalizedCoordinates c)
          else committedStrokeNormalizedCoordinates c in
        let strokeToCommit :=
          mkOp (id active) (userId active) stroke (mode active)
               (color active) (width active) lockedPointsRounded
               EmptyString (timestamp active)
               (match serverTimestamp active with
                | Some n => if decide (n = 0) then None else Some n
                | None => None
                end)
               None in
        let (l, h1) := alloc strokeToCommit (heap c) in
        let ss :=
          match findIndex
                  (λ r, bool_decide (id (h1 !!! r) = committedStrokeId))
                  (strokes c) with
          | Some k => <[k := l]> (strokes c)
          | None => strokes c ++ [l]
          end in
        let h2 := restore_first coords committedStrokeId h1 ss in
        let ss' := sort_refs h2 ss in
        let h3 := restore_first coords committedStrokeId h2 ss' in
        let h4 := verify_stroke lockedPointsRounded committedStrokeId h3 ss' in
        redrawAll rect
          (mkController (myUserId c) h4 ss' (shapes c) None false
                        committed coords sizes normalized)
  end.

(** The events delivered by the relay. *)
Inductive Event :=
| state_init (list : list Op)
| stroke_append (s : Op)
| stroke_patch (i : string) (ps : list Point)
| state_replace (list : list Op).

(** The handler of an event, on a canvas that has the box [rect] when
    the event arrives. *)
Definition deliver (rect : Size) (e : Event) (c : Controller) : Controller :=
  match e with
  | state_init list => onInitialState rect list c
  | stroke_append s => onStrokeAppended rect s c
  | stroke_patch i ps => onStrokePatched i ps c
  | state_replace list => onWholeStateReplaced rect list c
  end.

(** A sequence of events, each with the box of the canvas at its
    arrival. *)
Definition deliver_all (es : list (Size * Event)) (c : Controller)
    : Controller :=
  foldl (λ c e, deliver e.1 e.2 c) c es.

(** What rendering writes, one assignment at a time: the points of a
    stroke object whose id is locally committed are set to the stored
    coordinates of the id, or the stored coordinates and the stored box
    of a locally committed id are recomputed for a box that differs from
    the stored one. *)
Inductive render_step (rect : Size) : Controller → Controller → Prop :=
| reset_points c l sp :
    id (heap c !!! l) ∈ locallyCommittedStrokes c →
    committedStrokeCoordinates c !! id (heap c !!! l) = Some sp →
    render_step rect c (set_heap (alter (set_points sp) l (heap c)) c)
| rescale c j sz np :
    j ∈ locallyCommittedStrokes c →
    committedStrokeCanvasSize c !! j = Some sz →
    size_changed rect sz = true →
    render_step rect c
      (set_stored (<[j := denormalize rect np]> (committedStrokeCoordinates c))
                  (<[j := rect]> (committedStrokeCanvasSize c)) c).

End collation.

Arguments redrawAll : simpl never.


End Canvas.

(** ** The total order

    The key [(authoredAt, receivedAt, authorId)] of an operation and its
    lexicographic order; [authoredAt] is the [timestamp] property,
    [receivedAt] the [serverTimestamp] property, [authorId] the [userId]
    property, and author ids are compared by the collation. *)

Definition authoredAt (o : Op) : Z := default 0 (timestamp o).
Definition receivedAt (o : Op) : Z := default 0 (serverTimestamp o).
Definition authorId (o : Op) : string := userId o.

Section collation.
Context {collation : Collation}.

(** The collation puts [a] before [b]; the collation does not tell [a]
    and [b] apart. *)
Definition collates_before (a b : string) : Prop :=
  String.ltb (sort_key a) (sort_key b) = true.

Definition collates_equal (a b : string) : Prop :=
  sort_key a = sort_key b.

Definition precedes (a b : Op) : Prop :=
  authoredAt a < authoredAt b
  ∨ (authoredAt a = authoredAt b
     ∧ (receivedAt a < receivedAt b
        ∨ (receivedAt a = receivedAt b
           ∧ collates_before (authorId a) (authorId b)))).

Definition same_key (a b : Op) : Prop :=
  authoredAt a = authoredAt b ∧ receivedAt a = receivedAt b
  ∧ collates_equal (authorId a) (authorId b).

Definition key_le (a b : Op) : Prop := precedes a b ∨ same_key a b.

End collation.

(** An operation as the log stores it: both timestamps and the tombstone
    flag are set, and the server timestamp is a reading of the clock. *)
Definition stored (o : Op) : Prop :=
  is_Some (timestamp o)
  ∧ (∃ r, serverTimestamp o = Some r ∧ 0 < r)
  ∧ is_Some (isDeleted o).

(** The visible operations of a log, in the order of the array. *)
Definition visible (l : list Op) : list Op :=
  filter (λ o, truthy (isDeleted o) = false) l.

(** ** Logs, orders and example data used in the statements *)

Import DrawingState Server.

Section collation.
Context {collation : Collation}.

Definition log_ok (l : list Op) : Prop :=
  Forall stored l ∧ StronglySorted key_le l.

(** The key that the comparator of the client reads off an operation: a
    missing client timestamp counts as [0], a missing server timestamp as
    the client timestamp. *)
Definition client_view (o : Op) : Op :=
  let aTime := num_or (timestamp o) 0 in
  mkOp (id o) (userId o) (type o) (mode o) (color o) (width o) (points o)
       (payload o) (Some aTime) (Some (num_or (serverTimestamp o) aTime))
       (isDeleted o).

Definition client_le (a b : Op) : Prop :=
  key_le (client_view a) (client_view b).

Definition stroke_of (i u : string) (authored : option Z) (ps : list Point)
    : Op :=
  mkOp i u stroke draw "#000" 2 ps EmptyString authored None None.

Definition s1 : Op := stroke_of "s1" "alice" (Some 100) [mkPoint 1 1 0].
Definition s2 : Op := stroke_of "s2" "bob" (Some 100) [mkPoint 5 5 0].
Definition s3 : Op := stroke_of "s3" "alice" (Some 100) [mkPoint 9 9 0].

Definition log_s1_s2 : State :=
  run [stroke_start 200 200 s1; stroke_start 201 201 s2] createDrawingState.

End collation.

(** ** The Committed state of a locally authored stroke *)

Import Canvas.

Section pin_definitions.
Context (i : string) (pinned : list Point) (sz : Size).

(** Every stroke object of the list exists, and has the pinned points if
    it carries the id [i]. *)
Definition pinned_in (h : gmap loc Op) (ls : list loc) : Prop :=
  ∀ l, l ∈ ls → ∃ o, h !! l = Some o ∧ (id o = i → points o = pinned).

(** The active stroke, if there is one, is another operation. *)
Definition active_other (h : gmap loc Op) (a : option loc) : Prop :=
  ∀ l, a = Some l → ∃ o, h !! l = Some o ∧ id o ≠ i.

(** The Committed state of the operation [i]: it is marked as locally
    committed, its coordinates are stored, with the box [sz] of the
    canvas, it is in the stroke list with these coordinates, and it is
    not the stroke being drawn. *)
Definition Committed (c : Controller) : Prop :=
  i ∈ locallyCommittedStrokes c
  ∧ committedStrokeCoordinates c !! i = Some pinned
  ∧ committedStrokeCanvasSize c !! i = Some sz
  ∧ pinned_in (heap c) (strokes c)
  ∧ (∃ l o, l ∈ strokes c ∧ heap c !! l = Some o ∧ id o = i)
  ∧ active_other (heap c) (activeStroke c).

(** [keeps h h']: the store [h'] has every object of [h], with the same
    id, and with the pinned points where [h] has them. *)
Definition keeps (h h' : gmap loc Op) : Prop :=
  ∀ l o, h !! l = Some o →
    ∃ o', h' !! l = Some o' ∧ id o' = id o
          ∧ (id o = i → points o = pinned → points o' = pinned).
End pin_definitions.

(** A controller that holds one stroke of its user, committed. *)
Definition committed_s1 : Controller :=
  mkController "alice" {[ 0%nat := s1 ]} [0%nat] [] None false
               {[ "s1"%string ]} {[ "s1"%string := [mkPoint 1 1 0] ]}
               {[ "s1"%string := (1, 1) ]}
               {[ "s1"%string := [mkPoint 1 1 0] ]}.

(** ** Further notions for the log *)

(** The tombstoned operations of a log, in the order of the array. *)
Definition tombstoned (l : list Op) : list Op :=
  filter (λ o, truthy (isDeleted o) = true) l.

(** The requests that store an operation: the two appends and the reload. *)
Definition stores_content (r : Request) : bool :=
  match r with
  | stroke_start _ _ _ | shape_add _ _ _ | rooms_load _ => true
  | _ => false
  end.

(** ** The server: [createRooms] *)

Module Rooms.
Import DrawingState.

(** A connected user, [{ id, socketId, color }]. *)
Record User := mkUser {
  user_id : string;
  socketId : string;
  user_color : string;
}.

(** A JavaScript [Map] with string keys: its entries in insertion order.
    [set] on a key that is present replaces the value where it stands,
    [set] on a new key adds an entry at the end. *)
Fixpoint map_set {V} (k : string) (v : V) (m : list (string * V))
    : list (string * V) :=
  match m with
  | [] => [(k, v)]
  | kv :: m' =>
      if decide (kv.1 = k) then (k, v) :: m' else kv :: map_set k v m'
  end.

Definition map_delete {V} (k : string) (m : list (string * V))
    : list (string * V) :=
  filter (λ kv, kv.1 ≠ k) m.

Record Room := mkRoom {
  name : string;
  users : list (string * User);
  state : State;
}.

(** [addUser(u)], [removeUser(socketId)] and [getPresence()]. *)
Definition addUser (u : User) (r : Room) : Room :=
  mkRoom (name r) (map_set (socketId u) u (users r)) (state r).

Definition removeUser (sid : string) (r : Room) : Room :=
  mkRoom (name r) (map_delete sid (users r)) (state r).

Definition getPresence (r : Room) : list (string * string) :=
  (λ kv, (user_id kv.2, user_color kv.2)) <$> users r.

(** [ensure(name)], exported as [get]: the room of that name, created
    when it is missing, and the table of rooms afterwards. *)
Definition ensure (nm : string) (rooms : gmap string Room)
    : Room * gmap string Room :=
  match rooms !! nm with
  | Some r => (r, rooms)
  | None =>
      let r := mkRoom nm [] createDrawingState in (r, <[nm := r]> rooms)
  end.

(** The socket ids of a room, in insertion order. *)
Definition sockets (r : Room) : list string := fst <$> users r.

End Rooms.

(** ** The server: the handlers of one connection *)

Module Connection.

(** The variables of one connection: [socket.id] and the three variables
    that the [join] handler sets. *)
Record Conn := mkConn {
  socket_id : string;
  joinedRoom : option string;
  userId : option string;
  userColor : option string;
}.

(** The messages of a connection; an append carries the readings of
    [Date.now()] made while it is served. *)
Inductive Message :=
| join (room : option string) (uid : string) (color : option string)
| ping_latency
| stroke_start (now1 now2 : Z) (op : Op)
| stroke_update (i : string) (ps : list Point)
| stroke_end (i : string)
| shape_add (now1 now2 : Z) (op : Op)
| cursor (cx cy : Z)
| debug_renderOrder (enabled : bool)
| history_undo
| history_redo
| history_clear
| disconnect
| error.

(** [v || d] for an optional string: [undefined] and the empty string are
    falsy. *)
Definition str_or (v : option string) (d : string) : string :=
  match v with
  | Some s => if decide (s = EmptyString) then d else s
  | None => d
  end.

(** [const r = rooms.get(name)] followed by an update of [r] in place. *)
Definition in_room (nm : string) (f : Rooms.Room → Rooms.Room)
    (rooms : gmap string Rooms.Room) : gmap string Rooms.Room :=
  let (r, rooms1) := Rooms.ensure nm rooms in <[nm := f r]> rooms1.

Definition with_state (f : DrawingState.State → DrawingState.State)
    (r : Rooms.Room) : Rooms.Room :=
  Rooms.mkRoom (Rooms.name r) (Rooms.users r) (f (Rooms.state r)).

(** The call on the drawing state that a message makes, if any; the
    handlers of [stroke:end], [cursor], [debug:renderOrder],
    [ping:latency] and [error] do not touch the rooms. *)
Definition to_request (m : Message) : option Server.Request :=
  match m with
  | stroke_start now1 now2 op => Some (Server.stroke_start now1 now2 op)
  | shape_add now1 now2 op => Some (Server.shape_add now1 now2 op)
  | stroke_update i ps => Some (Server.stroke_update i ps)
  | history_undo => Some Server.history_undo
  | history_redo => Some Server.history_redo
  | history_clear => Some Server.history_clear
  | _ => None
  end.

Definition is_join (m : Message) : bool :=
  match m with join _ _ _ => true | _ => false end.

Section collation.
Context {collation : Collation}.

(** The handlers of [io.on('connection')]. *)
Definition on_message (m : Message) (c : Conn)
    (rooms : gmap string Rooms.Room) : Conn * gmap string Rooms.Room :=
  match m with
  | join room uid color =>
      let userColor := str_or color "#000" in
      let joinedRoom := str_or room "lobby" in
      (mkConn (socket_id c) (Some joinedRoom) (Some uid) (Some userColor),
       in_room joinedRoom
         (Rooms.addUser (Rooms.mkUser uid (socket_id c) userColor)) rooms)
  | disconnect =>
      match joinedRoom c with
      | None => (c, rooms)
      | Some jr => (c, in_room jr (Rooms.removeUser (socket_id c)) rooms)
      end
  | _ =>
      match to_request m, joinedRoom c with
      | Some req, Some jr =>
          (c, in_room jr (with_state (Server.handle req)) rooms)
      | _, _ => (c, rooms)
      end
  end.

Definition on_messages (ms : list Message) (c : Conn)
    (rooms : gmap string Rooms.Room) : Conn * gmap string Rooms.Room :=
  foldl (λ s m, on_message m s.1 s.2) (c, rooms) ms.

End collation.

End Connection.

(** ** The client: drawing *)

(** [moveStroke]: while the pointer is down on a stroke, the point of the
    pointer event is pushed onto the points of the stroke being drawn.
    The update sent to the server (throttled) does not change the
    controller. *)
Definition push_point (p : Point) (o : Op) : Op :=
  set_points (points o ++ [p]) o.

Definition moveStroke (p : Point) (c : Controller) : Controller :=
  match isPointerDown c, activeStroke c with
  | true, Some a => set_heap (alter (push_point p) a (heap c)) c
  | _, _ => c
  end.

(** What reaches the controller while a stroke is drawn: moves of the
    pointer and events of the relay, in any interleaving. *)
Inductive Input :=
| pointer_move (p : Point)
| network (rect : Size) (e : Event).

Section collation.
Context {collation : Collation} {geometry : Geometry}.

Definition input (i : Input) (c : Controller) : Controller :=
  match i with
  | pointer_move p => moveStroke p c
  | network rect e => deliver rect e c
  end.

Definition inputs (ins : list Input) (c : Controller) : Controller :=
  foldl (λ c i, input i c) c ins.

End collation.

(** The points of the pointer moves of a sequence of inputs. *)
Definition moved (ins : list Input) : list Point :=
  omap (λ i, match i with
             | pointer_move p => Some p
             | network _ _ => None
             end) ins.

(** The stroke [o] is being drawn: the pointer is down, [activeStroke] is
    the object [o], and its id is not locally committed. *)
Definition Drawing (a : loc) (o : Op) (c : Controller) : Prop :=
  isPointerDown c = true
  ∧ activeStroke c = Some a
  ∧ heap c !! a = Some o
  ∧ id o ∉ locallyCommittedStrokes c.

(** A controller whose user has started the stroke [s1]. *)
Definition drawing_s1 : Controller :=
  mkController "alice" {[ 0%nat := s1 ]} [] [] (Some 0%nat) true ∅ ∅ ∅ ∅.

(** An operation whose client timestamp is set and is not zero, so that
    [op.timestamp || Date.now()] is [op.timestamp]. *)
Definition authored (o : Op) : Prop :=
  ∃ n, timestamp o = Some n ∧ n ≠ 0.

(** ** The server: the persistence routes *)

Module Persistence.
Import DrawingState.

(** The characters that [roomFile] keeps: [[a-zA-Z0-9_-]].  A room name is
    a string of code units below 256. *)
Definition safe_char (a : ascii) : bool :=
  let n := N_of_ascii a in
  ((97 <=? n) && (n <=? 122) || (65 <=? n) && (n <=? 90)
   || (48 <=? n) && (n <=? 57) || (n =? 95) || (n =? 45))%N.

Fixpoint all_safe (s : string) : bool :=
  match s with
  | EmptyString => true
  | String a s' => safe_char a && all_safe s'
  end.

(** [roomName.replace(/[^a-zA-Z0-9_-]/g, '_')]. *)
Fixpoint sanitize (s : string) : string :=
  match s with
  | EmptyString => EmptyString
  | String a s' =>
      String (if safe_char a then a else "_"%char) (sanitize s')
  end.

(** [roomFile(roomName)]: the name of the file inside the data
    directory. *)
Definition roomFile (roomName : string) : string :=
  String.append (sanitize roomName) ".json".

(** What a file of the data directory holds, as [load] tells it apart:
    an object whose [ops] is an array, an object whose [ops] is not an
    array, and a text that [JSON.parse] rejects or whose value is [null]
    (reading [data.ops] throws).  A record of the array is an operation
    or [null], which is [None]; operations are plain data, which
    [JSON.stringify] and [JSON.parse] give back. *)
Inductive Content :=
| saved_ops (l : list (option Op))
| no_ops_array
| unreadable.

Inductive Response :=
| ok
| ok_count (count : nat)
| failed (status : Z) (error : string).

(** The table of rooms and the data directory.  Reading and writing a
    file do not fail. *)
Record Store := mkStore {
  rooms : gmap string Rooms.Room;
  files : gmap string Content;
}.

(** [POST /api/rooms/:room/save]. *)
Definition save (room : string) (s : Store) : Response * Store :=
  let roomName := Connection.str_or (Some room) "lobby" in
  let (r, rooms1) := Rooms.ensure roomName (rooms s) in
  let file := roomFile roomName in
  (ok,
   mkStore rooms1
           (<[file := saved_ops (Some <$> ops (Rooms.state r))]> (files s))).

Section collation.
Context {collation : Collation}.

(** The loop [for (const op of data.ops) r.state.appendOp(op)], from its
    [k]-th round on.  [appendOp(null)] throws when it reads
    [op.timestamp], before it changes the log, and the loop ends there.
    The result is the log and whether the loop came to its end. *)
Fixpoint append_records (now : nat → Z * Z) (k : nat)
    (data : list (option Op)) (st : State) : State * bool :=
  match data with
  | [] => (st, true)
  | Some op :: data' =>
      append_records now (S k) data' (appendOp (now k).1 (now k).2 op st)
  | None :: _ => (st, false)
  end.

(** [POST /api/rooms/:room/load].  [now k] are the two readings of
    [Date.now()] in the [k]-th call of [appendOp].  An exception, thrown
    before or after the room is cleared, is answered with the status
    500. *)
Definition load (room : string) (now : nat → Z * Z) (s : Store)
    : Response * Store :=
  let roomName := Connection.str_or (Some room) "lobby" in
  let (r, rooms1) := Rooms.ensure roomName (rooms s) in
  let file := roomFile roomName in
  match files s !! file with
  | None => (failed 404 "no_saved_state", mkStore rooms1 (files s))
  | Some unreadable => (failed 500 "load_failed", mkStore rooms1 (files s))
  | Some no_ops_array =>
      (failed 400 "invalid_file", mkStore rooms1 (files s))
  | Some (saved_ops data) =>
      let (st, complete) :=
        append_records now 0 data (clear (Rooms.state r)) in
      (if complete then ok_count (length (ops st))
       else failed 500 "load_failed",
       mkStore (<[roomName := Connection.with_state (λ _, st) r]> rooms1)
               (files s))
  end.

End collation.

End Persistence.

(** The operations of a saved log as a reload stamps them. *)
Definition restamped (now : nat → Z * Z) (l : list Op) : list Op :=
  imap (λ k op, stamp (now k).1 (now k).2 op) l.

(** A store with the room [a b], which holds the log [log_s1_s2]. *)
Definition store_a_b `{!Collation} : Persistence.Store :=
  Persistence.mkStore {[ "a b"%string := Rooms.mkRoom "a b" [] log_s1_s2 ]} ∅.

(** The same store with a file for the room whose second record is
    [null]. *)
Definition store_bad_record `{!Collation} : Persistence.Store :=
  Persistence.mkStore
    {[ "a b"%string := Rooms.mkRoom "a b" [] log_s1_s2 ]}
    {[ "a_b.json"%string := Persistence.saved_ops [Some s1; None; Some s2] ]}.

(** ** The client: the socket module *)

Module Socket.

(** [v | 0]: the conversion to a signed 32-bit integer. *)
Definition toInt32 (z : Z) : Z := (z + 2 ^ 31) mod 2 ^ 32 - 2 ^ 31.

(** The loop of [randomColorFromId], from the value [hash] on; a string is
    the sequence of its code units. *)
Fixpoint hash_from (hash : Z) (id : string) : Z :=
  match id with
  | EmptyString => hash
  | String a id' =>
      hash_from (toInt32 (hash * 31 + Z.of_N (N_of_ascii a))) id'
  end.

Definition hue (id : string) : Z := Z.abs (hash_from 0 id) mod 360.

(** [randomColorFromId(id)]. *)
Definition randomColorFromId (id : string) : string :=
  String.append "hsl(" (String.append (pretty (hue id)) " 85% 45%)").

(** The polynomial that the loop evaluates, without the conversions. *)
Fixpoint poly_from (hash : Z) (id : string) : Z :=
  match id with
  | EmptyString => hash
  | String a id' => poly_from (hash * 31 + Z.of_N (N_of_ascii a)) id'
  end.

(** [hasJoined] and the [join] messages emitted so far. *)
Record Joiner := mkJoiner {
  hasJoined : bool;
  emitted : nat;
}.

(** The callbacks that read or write [hasJoined]: the handlers of
    [connect], [disconnect] and [connect_error], and [joinRoom], which the
    timers call; [connected] is the value of [socket.connected] when
    [joinRoom] runs. *)
Inductive Callback :=
| on_connect
| on_disconnect
| on_connect_error
| joinRoom (connected : bool).

Definition call (cb : Callback) (j : Joiner) : Joiner :=
  match cb with
  | on_connect | on_disconnect | on_connect_error =>
      mkJoiner false (emitted j)
  | joinRoom connected =>
      if connected && negb (hasJoined j)
      then mkJoiner true (S (emitted j))
      else j
  end.

Definition calls (cbs : list Callback) (j : Joiner) : Joiner :=
  foldl (λ j cb, call cb j) j cbs.

Definition is_reset (cb : Callback) : bool :=
  match cb with joinRoom _ => false | _ => true end.

End Socket.

(** ** The client: smoothing of a stroke for rendering *)

Module Smoothing.

(** [smoothPoints] computes with the coordinates, so here a point carries
    the numbers themselves: JavaScript numbers are the binary64
    floating-point numbers, with the arithmetic of IEEE 754. *)
Record Point := mkPoint { x : float; y : float; t : Z }.

#[global] Instance Point_inhabited : Inhabited Point :=
  populate (mkPoint 0 0 0).

(** The body of the loop of [smoothPoints] at the index [i]. *)
Definition smoothed_at (points : list Point) (i : nat) : Point :=
  let prev := points !!! (i - 1)%nat in
  let curr := points !!! i in
  let next := points !!! (i + 1)%nat in
  let smoothedX := (x prev * 0.25 + x curr * 0.5 + x next * 0.25)%float in
  let smoothedY := (y prev * 0.25 + y curr * 0.5 + y next * 0.25)%float in
  mkPoint smoothedX smoothedY (t curr).

(** [smoothPoints(points)]. *)
Definition smoothPoints (points : list Point) : list Point :=
  if decide (length points ≤ 2)%nat then points
  else
    [points !!! 0%nat]
    ++ (smoothed_at points <$> seq 1 (length points - 2))
    ++ [points !!! (length points - 1)%nat].

End Smoothing.

(** The stroke objects of the local list, in the order of the list. *)
Definition stroke_objects (c : Controller) : list Op :=
  (λ l, heap c !!! l) <$> strokes c.

(** A controller that has received nothing yet. *)
Definition viewer : Controller :=
  mkController "carol" ∅ [] [] None false ∅ ∅ ∅ ∅.

(** ** The server: what a connection emits *)

Module Relay.

(** The events that the server emits. *)
Inductive Wire :=
| canvas (e : Event)
| shape_append (op : Op)
| presence (users : list (string * string))
| cursor_at (uid : option string) (cx cy : Z) (color : option string)
| render_order (enabled : bool).

(** [socket.emit] reaches the socket of the connection,
    [io.to(room).emit] every socket in the room, the sender included. *)
Inductive Audience :=
| to_socket
| to_room (nm : string).

Definition room_of (nm : string) (rooms : gmap string Rooms.Room)
    : Rooms.Room :=
  (Rooms.ensure nm rooms).1.

(** The events emitted by the handler of a message, which reads the room
    after its own update.  The acknowledgement of [ping:latency] is not
    an event. *)
Definition emits `{!Collation} (m : Connection.Message) (c : Connection.Conn)
    (rooms : gmap string Rooms.Room) : list (Audience * Wire) :=
  let rooms' := (Connection.on_message m c rooms).2 in
  match m with
  | Connection.join room _ _ =>
      let jr := Connection.str_or room "lobby" in
      let r := room_of jr rooms' in
      [(to_socket, canvas (state_init (ops (Rooms.state r))));
       (to_room jr, presence (Rooms.getPresence r))]
  | _ =>
      match Connection.joinedRoom c with
      | None => []
      | Some jr =>
          let r := room_of jr rooms' in
          match m with
          | Connection.stroke_start _ _ op =>
              [(to_room jr, canvas (stroke_append op))]
          | Connection.stroke_update i ps =>
              [(to_room jr, canvas (stroke_patch i ps))]
          | Connection.shape_add _ _ op => [(to_room jr, shape_append op)]
          | Connection.cursor cx cy =>
              [(to_room jr,
                cursor_at (Connection.userId c) cx cy
                          (Connection.userColor c))]
          | Connection.debug_renderOrder enabled =>
              [(to_room jr, render_order enabled)]
          | Connection.history_undo | Connection.history_redo
          | Connection.history_clear =>
              [(to_room jr, canvas (state_replace (ops (Rooms.state r))))]
          | Connection.disconnect =>
              [(to_room jr, presence (Rooms.getPresence r))]
          | _ => []
          end
      end
  end.

End Relay.

(** ** The client: shapes and the events of the server *)

(** [network.onShapeAppended]. *)
Definition onShapeAppended `{!Collation, !Geometry} (rect : Size) (s : Op)
    (c : Controller) : Controller :=
  if decide (type s = shape)
  then redrawAll rect
         (update (heap c) (strokes c) (shapes c ++ [s]) (activeStroke c) c)
  else c.

(** [shapes.push(op)], which goes with every [network.sendShapeAdd(op)]:
    in [startStroke] for a text or an image, in [endAny] for a rectangle
    or a circle.  The rendering that follows leaves the shape list as it
    is. *)
Definition addShape (op : Op) (c : Controller) : Controller :=
  update (heap c) (strokes c) (shapes c ++ [op]) (activeStroke c) c.

(** What an event of the server does to the controller; presence, cursors
    and the debug switch are handled outside the stroke and shape
    lists. *)
Definition receive `{!Collation, !Geometry} (rect : Size) (w : Relay.Wire)
    (c : Controller) : Controller :=
  match w with
  | Relay.canvas e => deliver rect e c
  | Relay.shape_append op => onShapeAppended rect op c
  | _ => c
  end.

(** Two strokes made in the same millisecond by two users. *)
Definition sz : Op := stroke_of "sz" "zoe" (Some 100) [mkPoint 1 1 0].
Definition sa : Op := stroke_of "sa" "adam" (Some 100) [mkPoint 5 5 0].

(** A shape. *)
Definition r1 : Op :=
  mkOp "r1" "alice" shape draw "#000" 2 [] "rect" (Some 100) None None.

(** [extends h h']: the store [h'] has every object of [h], with the same
    id and the same tombstone flag. *)
Definition extends (h h' : gmap loc Op) : Prop :=
  ∀ l o, h !! l = Some o →
    ∃ o', h' !! l = Some o' ∧ id o' = id o ∧ isDeleted o' = isDeleted o.

(** The stroke list holds the object [l], which carries the locally
    committed id [i] and no tombstone. *)
Definition Shown (i : string) (l : loc) (c : Controller) : Prop :=
  i ∈ locallyCommittedStrokes c
  ∧ l ∈ strokes c
  ∧ ∃ o, heap c !! l = Some o ∧ id o = i ∧ truthy (isDeleted o) = false.

(** * Properties *)

Section collated.
Context {collation : Collation} {geometry : Geometry}.

(** ** Lexicographic comparison of strings *)

Lemma ascii_compare_trans a b c :
  Ascii.compare a b = Lt → Ascii.compare b c = Lt → Ascii.compare a c = Lt.
Proof.
  unfold Ascii.compare. rewrite !N.compare_lt_iff. lia.
Qed.

Lemma ascii_compare_refl a : Ascii.compare a a = Eq.
Proof. unfold Ascii.compare. apply N.compare_refl. Qed.

Lemma string_compare_refl s : String.compare s s = Eq.
Proof.
  induction s as [|a s IH]; simpl; [done|].
  by rewrite ascii_compare_refl.
Qed.

Lemma string_compare_trans s1 s2 s3 :
  String.compare s1 s2 = Lt → String.compare s2 s3 = Lt →
  String.compare s1 s3 = Lt.
Proof.
  revert s2 s3. induction s1 as [|a s1 IH]; intros [|b s2] [|c s3]; simpl;
    try done.
  destruct (Ascii.compare a b) eqn:Hab; try done;
    destruct (Ascii.compare b c) eqn:Hbc; try done; intros H12 H23.
  - apply Ascii.compare_eq_iff in Hab, Hbc. subst.
    rewrite ascii_compare_refl. eauto.
  - apply Ascii.compare_eq_iff in Hab. subst. by rewrite Hbc.
  - apply Ascii.compare_eq_iff in Hbc. subst. by rewrite Hab.
  - by rewrite (ascii_compare_trans a b c).
Qed.

Lemma string_compare_gt_lt s1 s2 :
  String.compare s1 s2 = Gt ↔ String.compare s2 s1 = Lt.
Proof.
  rewrite (String.compare_antisym s2 s1).
  destruct (String.compare s1 s2); simpl; split; congruence.
Qed.

Lemma localeCompare_lt a b : localeCompare a b < 0 ↔ collates_before a b.
Proof.
  unfold localeCompare, collates_before, String.ltb.
  destruct (String.compare (sort_key a) (sort_key b)); split; (lia || done).
Qed.

Lemma localeCompare_eq a b : localeCompare a b = 0 ↔ collates_equal a b.
Proof.
  unfold localeCompare, collates_equal. split.
  - destruct (String.compare (sort_key a) (sort_key b)) eqn:E; try lia.
    intros _. by apply String.compare_eq_iff.
  - intros ->. by rewrite string_compare_refl.
Qed.

Lemma localeCompare_gt a b : 0 < localeCompare a b ↔ collates_before b a.
Proof.
  unfold localeCompare, collates_before, String.ltb.
  destruct (String.compare (sort_key a) (sort_key b)) eqn:E.
  - apply String.compare_eq_iff in E. rewrite E.
    rewrite string_compare_refl. split; (lia || done).
  - apply string_compare_gt_lt in E. rewrite E. split; (lia || done).
  - apply string_compare_gt_lt in E. rewrite E. split; (lia || done).
Qed.

(** ** The order on keys *)

Lemma ltb_trans a b c :
  String.ltb a b = true → String.ltb b c = true → String.ltb a c = true.
Proof.
  unfold String.ltb.
  destruct (String.compare a b) eqn:Hab; try done.
  destruct (String.compare b c) eqn:Hbc; try done.
  by rewrite (string_compare_trans a b c).
Qed.

Lemma ltb_irrefl a : String.ltb a a = false.
Proof. unfold String.ltb. by rewrite string_compare_refl. Qed.

Lemma ltb_trichotomy a b :
  String.ltb a b = true ∨ a = b ∨ String.ltb b a = true.
Proof.
  unfold String.ltb. destruct (String.compare a b) eqn:E.
  - right; left. by apply String.compare_eq_iff.
  - by left.
  - right; right. apply string_compare_gt_lt in E. by rewrite E.
Qed.

Lemma precedes_trans a b c : precedes a b → precedes b c → precedes a c.
Proof.
  unfold precedes, collates_before.
  intros [?|[? [?|[? Hab]]]] [?|[? [?|[? Hbc]]]];
    try (left; lia); right; (split; [lia|]); try (left; lia).
  right. split; [lia|]. eapply ltb_trans; eauto.
Qed.

Lemma precedes_same_key a b c : precedes a b → same_key b c → precedes a c.
Proof.
  unfold precedes, same_key, collates_before, collates_equal, authorId.
  intros H (E1 & E2 & E3). rewrite E1, E2, E3 in H. exact H.
Qed.

Lemma same_key_precedes a b c : same_key a b → precedes b c → precedes a c.
Proof.
  unfold precedes, same_key, collates_before, collates_equal, authorId.
  intros (E1 & E2 & E3) H. rewrite <-E1, <-E2, <-E3 in H. exact H.
Qed.

Lemma precedes_irrefl a : ¬ precedes a a.
Proof.
  unfold precedes, collates_before. intros [?|[_ [?|[_ H]]]]; try lia.
  by rewrite ltb_irrefl in H.
Qed.

Lemma same_key_refl a : same_key a a.
Proof. by unfold same_key. Qed.

Lemma same_key_sym a b : same_key a b → same_key b a.
Proof. unfold same_key, collates_equal. intros (? & ? & ?). done. Qed.

Lemma same_key_trans a b c : same_key a b → same_key b c → same_key a c.
Proof.
  unfold same_key, collates_equal. intros (E1 & E2 & E3) ?.
  by rewrite E1, E2, E3.
Qed.

Lemma precedes_asym a b : precedes a b → ¬ precedes b a.
Proof. intros H1 H2. apply (precedes_irrefl a). by eapply precedes_trans. Qed.


Lemma key_trichotomy a b : precedes a b ∨ same_key a b ∨ precedes b a.
Proof.
  unfold precedes, same_key, collates_before, collates_equal.
  destruct (Z.lt_trichotomy (authoredAt a) (authoredAt b)) as [?|[Ha|?]].
  { left. left. done. }
  2:{ right. right. left. done. }
  destruct (Z.lt_trichotomy (receivedAt a) (receivedAt b)) as [?|[Hr|?]].
  { left. right. split; [done|]. left. done. }
  2:{ right. right. right. split; [done|]. left. done. }
  destruct (ltb_trichotomy (sort_key (authorId a)) (sort_key (authorId b)))
    as [?|[?|?]].
  - left. right. split; [done|]. right. done.
  - right. left. done.
  - right. right. right. split; [done|]. right. done.
Qed.

#[global] Instance key_le_trans : Transitive key_le.
Proof.
  intros a b c [Hab|Hab] [Hbc|Hbc].
  - left. by eapply precedes_trans.
  - left. by eapply precedes_same_key.
  - left. by eapply same_key_precedes.
  - right. by eapply same_key_trans.
Qed.

Lemma key_le_total a b : key_le a b ∨ key_le b a.
Proof.
  destruct (key_trichotomy a b) as [?|[?|?]];
    [left; by left|left; by right|right; by left].
Qed.

Lemma key_le_antisym a b : key_le a b → key_le b a → same_key a b.
Proof.
  intros [H1|H1] [H2|H2]; try done.
  - by destruct (precedes_asym a b).
  - by apply same_key_sym.
Qed.

Lemma not_key_le a b : ¬ key_le a b → precedes b a.
Proof.
  intros H. destruct (key_trichotomy a b) as [?|[?|?]]; try done.
  - destruct H. by left.
  - destruct H. by right.
Qed.

(** ** The comparators on stored operations *)

Lemma stored_inv o :
  stored o →
  ∃ ta ra, timestamp o = Some ta ∧ serverTimestamp o = Some ra ∧ 0 < ra
           ∧ authoredAt o = ta ∧ receivedAt o = ra.
Proof.
  intros ([ta Ht] & (ra & Hr & ?) & _). exists ta, ra.
  unfold authoredAt, receivedAt. rewrite Ht, Hr. done.
Qed.

Ltac stored_cases a b Ha Hb :=
  let ta := fresh "ta" in let ra := fresh "ra" in
  let tb := fresh "tb" in let rb := fresh "rb" in
  apply stored_inv in Ha as (ta & ra & Ha1 & Ha2 & Ha3 & Ha4 & Ha5);
  apply stored_inv in Hb as (tb & rb & Hb1 & Hb2 & Hb3 & Hb4 & Hb5);
  unfold precedes, same_key, authorId;
  rewrite ?Ha4, ?Ha5, ?Hb4, ?Hb5.

Lemma compareOps_lt a b :
  stored a → stored b →
  (DrawingState.compareOps a b < 0 ↔ precedes a b).
Proof.
  intros Ha Hb. stored_cases a b Ha Hb.
  unfold DrawingState.compareOps. rewrite Ha1, Ha2, Hb1, Hb2. simpl.
  destruct (decide (ta = tb)) as [->|]; [destruct (decide (ra = rb)) as [->|]|];
    repeat case_decide; try congruence; rewrite ?localeCompare_lt;
    intuition (try lia; try congruence).
Qed.

Lemma compareOps_eq a b :
  stored a → stored b →
  (DrawingState.compareOps a b = 0 ↔ same_key a b).
Proof.
  intros Ha Hb. stored_cases a b Ha Hb.
  unfold DrawingState.compareOps. rewrite Ha1, Ha2, Hb1, Hb2. simpl.
  destruct (decide (ta = tb)) as [->|]; [destruct (decide (ra = rb)) as [->|]|];
    repeat case_decide; try congruence; rewrite ?localeCompare_eq;
    intuition (try lia; try congruence).
Qed.

Lemma compareOps_le a b :
  stored a → stored b →
  (DrawingState.compareOps a b ≤ 0 ↔ key_le a b).
Proof.
  intros Ha Hb. unfold key_le.
  rewrite <-compareOps_lt, <-compareOps_eq by done. lia.
Qed.

Lemma sorter_stored a b :
  stored a → stored b → Canvas.sorter a b = DrawingState.compareOps a b.
Proof.
  intros Ha Hb. stored_cases a b Ha Hb.
  unfold Canvas.sorter, DrawingState.compareOps, num_or.
  rewrite Ha1, Ha2, Hb1, Hb2. simpl.
  destruct (decide (ta = tb)) as [->|]; [destruct (decide (ra = rb)) as [->|]|];
    repeat case_decide; try congruence; try lia.
Qed.

(** ** The stable sort *)

Section sort_facts.
Context {A : Type} (cmp : A → A → Z).

Lemma insert_sorted_Permutation a l : insert_sorted cmp a l ≡ₚ a :: l.
Proof.
  induction l as [|b l IH]; simpl; [done|].
  case_decide; [done|]. rewrite IH. apply Permutation_swap.
Qed.

Lemma sort_Permutation l : sort cmp l ≡ₚ l.
Proof.
  induction l as [|a l IH]; simpl; [done|].
  by rewrite insert_sorted_Permutation, IH.
Qed.

Lemma sort_length l : length (sort cmp l) = length l.
Proof. by rewrite sort_Permutation. Qed.

Lemma elem_of_sort a l : a ∈ sort cmp l ↔ a ∈ l.
Proof. by rewrite sort_Permutation. Qed.

(** Sortedness is stated for a transitive relation [R] that the
    comparator decides on the elements satisfying [P]. *)
Context (R : relation A) (P : A → Prop) `{!Transitive R}.
Hypothesis cmp_le : ∀ a b, P a → P b → (cmp a b ≤ 0 ↔ R a b).
Hypothesis R_total : ∀ a b, P a → P b → R a b ∨ R b a.

Lemma insert_sorted_StronglySorted a l :
  P a → Forall P l → StronglySorted R l →
  StronglySorted R (insert_sorted cmp a l).
Proof.
  intros Ha Hl Hs. induction Hs as [|b l Hs IH Hb]; simpl.
  { repeat constructor. }
  apply Forall_cons in Hl as [Pb Hl]. case_decide as Hab.
  - apply cmp_le in Hab; [|done..]. constructor; [by constructor|].
    constructor; [done|]. eapply Forall_impl; [exact Hb|].
    intros c Hc. by trans b.
  - constructor; [by apply IH|].
    rewrite insert_sorted_Permutation. constructor; [|done].
    destruct (R_total a b) as [Hab'|]; [done..| |done].
    destruct Hab. by apply cmp_le.
Qed.

Lemma sort_StronglySorted l : Forall P l → StronglySorted R (sort cmp l).
Proof.
  induction 1 as [|a l Ha Hl IH]; simpl; [constructor|].
  apply insert_sorted_StronglySorted; [done| |done].
  by rewrite sort_Permutation.
Qed.

(** Sorting an array that is in order leaves it as it is. *)
Lemma sort_sorted l : Forall P l → StronglySorted R l → sort cmp l = l.
Proof.
  intros Hl Hs. induction Hs as [|a l Hs IH Ha]; simpl; [done|].
  apply Forall_cons in Hl as [Pa Hl]. rewrite IH by done.
  destruct l as [|b l]; simpl; [done|].
  apply Forall_cons in Ha as [Hab _]. apply Forall_cons in Hl as [Pb _].
  rewrite decide_True; [done|]. by apply cmp_le.
Qed.

(** Two arrays with the same elements sort to the same array when no two
    distinct elements tie. *)
Lemma sort_unique l1 l2 :
  Forall P l1 → l1 ≡ₚ l2 →
  (∀ a b, a ∈ l1 → b ∈ l1 → R a b → R b a → a = b) →
  sort cmp l1 = sort cmp l2.
Proof.
  intros Hl1 Hperm Hasym.
  apply (StronglySorted_unique_strong R).
  - intros a b Ha Hb. apply Hasym.
    + by rewrite <-(sort_Permutation l1).
    + by rewrite Hperm, <-(sort_Permutation l2).
  - by apply sort_StronglySorted.
  - apply sort_StronglySorted. by rewrite <-Hperm.
  - by rewrite !sort_Permutation.
Qed.
End sort_facts.

(** ** Invariants of the log *)

Lemma stored_stamp now1 now2 op : 0 < now1 → stored (stamp now1 now2 op).
Proof. intros ?. unfold stored, stamp; simpl. eauto 10. Qed.

Lemma stored_set_points ps o : stored o → stored (set_points ps o).
Proof. done. Qed.

Lemma stored_set_isDeleted b o : stored o → stored (set_isDeleted b o).
Proof. intros (? & ? & ?). unfold stored, set_isDeleted; simpl. eauto. Qed.

Lemma sort_compareOps_sorted l :
  Forall stored l → StronglySorted key_le (sort compareOps l).
Proof.
  apply (sort_StronglySorted compareOps key_le stored).
  - intros a b Ha Hb. by apply compareOps_le.
  - intros a b _ _. apply key_le_total.
Qed.

Lemma sort_compareOps_id l : log_ok l → sort compareOps l = l.
Proof.
  intros [Hl Hs]. apply (sort_sorted compareOps key_le stored); [|done..].
  intros a b Ha Hb. by apply compareOps_le.
Qed.

(** An in-place update that leaves the key of every operation alone keeps
    the array in order. *)
Lemma log_ok_alter f k l :
  (∀ o, stored o → stored (f o)) → (∀ o, same_key (f o) o) →
  log_ok l → log_ok (alter f k l).
Proof.
  intros Hf1 Hf2 [Hl Hs]. split.
  { apply Forall_alter; [done|]. intros o _. rewrite Forall_forall in Hl.
    eauto. }
  clear Hl. revert k. induction Hs as [|a l Hs IH Ha]; intros [|k]; simpl.
  - constructor.
  - constructor.
  - constructor; [done|]. eapply Forall_impl; [exact Ha|].
    intros b Hb. trans a; [|done]. right. apply Hf2.
  - constructor; [apply IH|]. apply Forall_alter; [done|].
    intros b _ Hb. trans b; [done|]. right. apply same_key_sym, Hf2.
Qed.

Lemma same_key_set_points ps o : same_key (set_points ps o) o.
Proof. done. Qed.

Lemma same_key_set_isDeleted b o : same_key (set_isDeleted b o) o.
Proof. done. Qed.

Lemma log_ok_appendOp now1 now2 op st :
  0 < now1 → Forall stored (ops st) →
  log_ok (ops (appendOp now1 now2 op st)).
Proof.
  intros Hn Hl. simpl.
  assert (Forall stored (ops st ++ [stamp now1 now2 op])) as Hall.
  { apply Forall_app. split; [done|]. apply Forall_singleton.
    by apply stored_stamp. }
  split; [by rewrite sort_Permutation|by apply sort_compareOps_sorted].
Qed.

Lemma log_ok_patchPoints i ps st :
  log_ok (ops st) → log_ok (ops (patchPoints i ps st)).
Proof.
  intros H. unfold patchPoints. case_match; [|done]. simpl.
  apply log_ok_alter; auto using stored_set_points, same_key_set_points.
Qed.

(** ** [globalUndo] and [globalRedo] *)

Lemma undo_loop_skip st n m :
  (n ≤ m)%nat →
  (∀ j o, (n ≤ j < m)%nat → ops st !! j = Some o →
          truthy (isDeleted o) = true) →
  undo_loop m st = undo_loop n st.
Proof.
  induction m as [|m IH]; intros Hnm Hdel.
  { by replace n with 0%nat by lia. }
  destruct (decide (n = S m)) as [->|]; [done|]. simpl.
  destruct (ops st !! m) as [o|] eqn:Hm.
  - rewrite (Hdel m o) by (done || lia). simpl.
    apply IH; [lia|]. intros j o' ? ?. apply (Hdel j); [lia|done].
  - apply IH; [lia|]. intros j o' ? ?. apply (Hdel j); [lia|done].
Qed.

Lemma undo_loop_hit st i o :
  ops st !! i = Some o → truthy (isDeleted o) = false →
  undo_loop (S i) st
  = mkState (alter (set_isDeleted true) i (ops st)) (redoStack st ++ [id o]).
Proof. intros Hi Ho. simpl. by rewrite Hi, Ho. Qed.

Lemma globalUndo_split l1 o l2 rs :
  truthy (isDeleted o) = false →
  Forall (λ o', truthy (isDeleted o') = true) l2 →
  globalUndo (mkState (l1 ++ o :: l2) rs)
  = mkState (l1 ++ set_isDeleted true o :: l2) (rs ++ [id o]).
Proof.
  intros Ho Hl2. unfold globalUndo. simpl ops.
  rewrite (undo_loop_skip _ (S (length l1))).
  - rewrite (undo_loop_hit _ _ o); simpl; [|by apply list_lookup_middle|done].
    f_equal. replace (length l1) with (length l1 + 0)%nat by lia.
    by rewrite alter_app_r.
  - rewrite length_app. simpl. lia.
  - simpl. intros j o' [Hj1 Hj2] Hj.
    rewrite lookup_app_r in Hj by lia.
    destruct (j - length l1)%nat as [|k] eqn:Hk; [lia|]. simpl in Hj.
    rewrite Forall_forall in Hl2. apply Hl2.
    by eapply list_elem_of_lookup_2.
Qed.

Lemma globalUndo_none st :
  Forall (λ o, truthy (isDeleted o) = true) (ops st) → globalUndo st = st.
Proof.
  intros Hall. unfold globalUndo.
  rewrite (undo_loop_skip _ 0%nat); [done|lia|].
  intros j o _ Hj. rewrite Forall_forall in Hall. apply Hall.
  by eapply list_elem_of_lookup_2.
Qed.

Lemma visible_nil l :
  visible l = [] ↔ Forall (λ o, truthy (isDeleted o) = true) l.
Proof.
  unfold visible. induction l as [|o l IH]; simpl.
  { split; [constructor|done]. }
  rewrite filter_cons. destruct (truthy (isDeleted o)) eqn:Ho.
  - rewrite decide_False by done. rewrite IH. split.
    + by constructor.
    + by inversion 1.
  - rewrite decide_True by done. split; [done|]. inversion 1. congruence.
Qed.

Lemma visible_last_split l o :
  last (visible l) = Some o →
  ∃ l1 l2, l = l1 ++ o :: l2 ∧ truthy (isDeleted o) = false
           ∧ Forall (λ o', truthy (isDeleted o') = true) l2.
Proof.
  intros Hlast. pose proof Hlast as Hin.
  apply last_filter_Some in Hlast as (l1 & l2 & -> & Hl2).
  exists l1, l2. split; [done|]. split.
  - apply last_Some in Hin as [l' Hl']. unfold visible in Hl'.
    assert (o ∈ filter (λ o, truthy (isDeleted o) = false) (l1 ++ o :: l2))
      as Ho by (rewrite Hl'; set_solver).
    by apply list_elem_of_filter in Ho as [? _].
  - eapply Forall_impl; [exact Hl2|]. simpl. intros o' ?.
    by destruct (truthy (isDeleted o')).
Qed.

Lemma visible_app l1 l2 : visible (l1 ++ l2) = visible l1 ++ visible l2.
Proof. apply filter_app. Qed.

Lemma pop_snoc {A} (l : list A) a : pop (l ++ [a]) = (l, Some a).
Proof. unfold pop. by rewrite removelast_last, last_snoc. Qed.

Lemma findIndex_middle {A} (p : A → bool) l1 a l2 :
  Forall (λ b, p b = false) l1 → p a = true →
  findIndex p (l1 ++ a :: l2) = Some (length l1).
Proof.
  intros Hl1 Ha. induction Hl1 as [|b l1 Hb _ IH]; simpl.
  - by rewrite Ha.
  - by rewrite Hb, IH.
Qed.

Lemma findIndex_Some {A} (p : A → bool) l k :
  findIndex p l = Some k →
  ∃ l1 a l2, l = l1 ++ a :: l2 ∧ k = length l1 ∧ p a = true
             ∧ Forall (λ b, p b = false) l1.
Proof.
  revert k. induction l as [|b l IH]; intros k; simpl; [done|].
  destruct (p b) eqn:Hb.
  - intros [= <-]. exists [], b, l. by repeat split.
  - destruct (findIndex p l) as [k'|]; [|done]. simpl. intros [= <-].
    destruct (IH k' eq_refl) as (l1 & a & l2 & -> & -> & Ha & Hl1).
    exists (b :: l1), a, l2. repeat split; try done. by constructor.
Qed.

Lemma findIndex_None {A} (p : A → bool) l :
  findIndex p l = None ↔ Forall (λ b, p b = false) l.
Proof.
  induction l as [|b l IH]; simpl; [by split; [constructor|]|].
  destruct (p b) eqn:Hb.
  - split; [done|]. inversion 1. congruence.
  - destruct (findIndex p l); simpl.
    + split; [done|]. inversion 1 as [|?? _ Hl]. apply IH in Hl. done.
    + split; [|done]. intros _. constructor; [done|]. by apply IH.
Qed.

Lemma log_ok_undo_loop n st :
  log_ok (ops st) → log_ok (ops (undo_loop n st)).
Proof.
  intros H. induction n as [|n IH]; simpl; [done|].
  destruct (ops st !! n) as [o|]; [|done].
  destruct (negb (truthy (isDeleted o))); [|done]. simpl.
  apply log_ok_alter;
    auto using stored_set_isDeleted, same_key_set_isDeleted.
Qed.

Lemma log_ok_globalRedo st :
  log_ok (ops st) → log_ok (ops (globalRedo st)).
Proof.
  intros H. unfold globalRedo. destruct (pop (redoStack st)) as [rest [i|]];
    [|done].
  case_decide; [done|]. case_match; [|done]. simpl.
  apply log_ok_alter;
    auto using stored_set_isDeleted, same_key_set_isDeleted.
Qed.

Lemma log_ok_loadOps data st :
  Forall (λ rec, 0 < rec.1.1 ∧ 0 < rec.1.2) data →
  log_ok (ops (loadOps data st)).
Proof.
  intros Hdata. unfold loadOps.
  assert (log_ok (ops (clear st))) as Hinit by (split; constructor).
  revert Hinit. generalize (clear st).
  induction Hdata as [|rec data [Hrec _] _ IH]; intros s Hs; simpl; [done|].
  apply IH. apply log_ok_appendOp; [done|]. apply Hs.
Qed.

Lemma reachable_log_ok st : reachable st → log_ok (ops st).
Proof.
  induction 1 as [|r st Hst IH Hr].
  { split; constructor. }
  destruct r; simpl in *.
  - apply log_ok_appendOp; [apply Hr|apply IH].
  - apply log_ok_appendOp; [apply Hr|apply IH].
  - by apply log_ok_patchPoints.
  - done.
  - by apply log_ok_undo_loop.
  - by apply log_ok_globalRedo.
  - split; constructor.
  - by apply log_ok_loadOps.
Qed.

Lemma reachable_run rs st :
  reachable st → Forall clock_ok rs → reachable (run rs st).
Proof.
  intros Hst Hrs. revert st Hst. unfold run.
  induction Hrs as [|r rs Hr _ IH]; intros st Hst; simpl; [done|].
  apply IH. by constructor.
Qed.

(** ** The total order (C1, C2) *)

Lemma StronglySorted_lookup_lt {A} (R : relation A) l i j a b :
  StronglySorted R l → (i < j)%nat → l !! i = Some a → l !! j = Some b →
  R a b.
Proof.
  intros Hs Hij Hi Hj.
  apply list_elem_of_split_length in Hj as (l1 & l2 & -> & ->).
  rewrite lookup_app_l in Hi by done.
  eapply StronglySorted_app_1_elem_of; [done| |left].
  by eapply list_elem_of_lookup_2.
Qed.

Lemma sort_sorter_id l : log_ok l → sort Canvas.sorter l = l.
Proof.
  intros [Hl Hs]. apply (sort_sorted Canvas.sorter key_le stored); [|done..].
  intros a b Ha Hb. rewrite sorter_stored by done. by apply compareOps_le.
Qed.

Lemma sorter_lt a b :
  Canvas.sorter a b < 0 ↔ precedes (client_view a) (client_view b).
Proof.
  unfold Canvas.sorter, precedes, authoredAt, receivedAt, authorId; simpl.
  repeat case_decide; rewrite ?localeCompare_lt;
    intuition (try lia; try congruence).
Qed.



Lemma sorter_eq a b :
  Canvas.sorter a b = 0 ↔ same_key (client_view a) (client_view b).
Proof.
  unfold Canvas.sorter, same_key, authoredAt, receivedAt, authorId; simpl.
  repeat case_decide; rewrite ?localeCompare_eq;
    intuition (try lia; try congruence).
Qed.

Lemma sorter_le a b :
  Canvas.sorter a b ≤ 0 ↔ key_le (client_view a) (client_view b).
Proof. unfold key_le. rewrite <-sorter_lt, <-sorter_eq. lia. Qed.

#[global] Instance client_le_trans : Transitive client_le.
Proof. intros a b c. unfold client_le. apply key_le_trans. Qed.

Lemma sort_sorter_unique l1 l2 :
  l1 ≡ₚ l2 →
  (∀ a b, a ∈ l1 → b ∈ l1 → Canvas.sorter a b = 0 → a = b) →
  sort Canvas.sorter l1 = sort Canvas.sorter l2.
Proof.
  intros Hperm Hties.
  apply (sort_unique Canvas.sorter client_le (λ _, True)); try done.
  - intros a b _ _. apply sorter_le.
  - intros a b _ _. apply key_le_total.
  - by apply Forall_true.
  - intros a b Ha Hb Hab Hba. apply Hties; [done..|].
    apply sorter_eq. by apply key_le_antisym.
Qed.

(** C2 (as amended).  Two replicas of the log that hold the same operations
    hold them in the same order, provided no two distinct operations of the
    set have the same key (authoredAt, receivedAt, authorId); likewise the
    order a client computes from a set of operations does not depend on the
    order in which it received them, provided no two distinct operations
    tie under its comparator. *)
Theorem convergence_distinct_keys :
  (∀ st1 st2,
     reachable st1 → reachable st2 → ops st1 ≡ₚ ops st2 →
     (∀ a b, a ∈ ops st1 → b ∈ ops st1 → same_key a b → a = b) →
     ops st1 = ops st2)
  ∧ (∀ l1 l2 : list Op,
       l1 ≡ₚ l2 →
       (∀ a b, a ∈ l1 → b ∈ l1 → Canvas.sorter a b = 0 → a = b) →
       sort Canvas.sorter l1 = sort Canvas.sorter l2).
Proof.
  split; [|apply sort_sorter_unique].
  intros st1 st2 H1 H2 Hperm Hkeys.
  apply reachable_log_ok in H1 as [_ Hs1], H2 as [_ Hs2].
  apply (StronglySorted_unique_strong key_le); try done.
  intros a b Ha Hb Hab Hba. apply Hkeys; [done|by rewrite Hperm|].
  by apply key_le_antisym.
Qed.

(** ** What each operation of the log leaves unchanged *)

Lemma fmap_alter_same {A B} (g : A → B) (f : A → A) k (l : list A) :
  (∀ a, g (f a) = g a) → g <$> alter f k l = g <$> l.
Proof.
  intros Hf. revert k. induction l as [|a l IH]; intros [|k]; simpl;
    try done.
  - by rewrite Hf.
  - f_equal. apply IH.
Qed.

Lemma appendOp_Permutation now1 now2 op st :
  ops (appendOp now1 now2 op st) ≡ₚ ops st ++ [stamp now1 now2 op].
Proof. apply sort_Permutation. Qed.

Lemma loadOps_Permutation data st :
  ops (loadOps data st) ≡ₚ (λ rec, stamp rec.1.1 rec.1.2 rec.2) <$> data.
Proof.
  unfold loadOps. change (clear st) with (mkState [] []).
  rewrite <-(app_nil_l (_ <$> data)).
  change (@nil Op) with (ops (mkState [] [])) at 2.
  generalize (mkState [] []). induction data as [|rec data IH]; intros s.
  { simpl. by rewrite app_nil_r. }
  simpl. rewrite IH, appendOp_Permutation. by rewrite <-app_assoc.
Qed.

Lemma loadOps_redoStack data st : redoStack (loadOps data st) = [].
Proof.
  unfold loadOps. destruct data as [|rec data _] using rev_ind; [done|].
  by rewrite foldl_app.
Qed.

(** The fields of the stored operations that a request can change are
    [points] (patch) and [isDeleted] (undo, redo); every other field is
    read through a projection [g] that these updates preserve. *)
Section preserved_field.
Context {B : Type} (g : Op → B).
Hypothesis g_points : ∀ ps o, g (set_points ps o) = g o.
Hypothesis g_isDeleted : ∀ b o, g (set_isDeleted b o) = g o.

Lemma patchPoints_preserves i ps st :
  g <$> ops (patchPoints i ps st) = g <$> ops st.
Proof.
  unfold patchPoints. case_match; [|done]. simpl.
  by apply fmap_alter_same.
Qed.

Lemma undo_loop_preserves n st :
  g <$> ops (undo_loop n st) = g <$> ops st.
Proof.
  induction n as [|n IH]; simpl; [done|].
  destruct (ops st !! n) as [o|]; [|done].
  destruct (negb (truthy (isDeleted o))); [|done]. simpl.
  by apply fmap_alter_same.
Qed.

Lemma globalUndo_preserves st : g <$> ops (globalUndo st) = g <$> ops st.
Proof. apply undo_loop_preserves. Qed.

Lemma globalRedo_preserves st : g <$> ops (globalRedo st) = g <$> ops st.
Proof.
  unfold globalRedo. destruct (pop (redoStack st)) as [rest [i|]]; [|done].
  case_decide; [done|]. case_match; [|done]. simpl.
  by apply fmap_alter_same.
Qed.
End preserved_field.

(** ** Append and the uniqueness of ids (C4) *)

(** C4 (as amended).  [appendOp] never rejects: the log grows by exactly
    one entry, whose id is the id of the operation appended, whether or not
    that id is already in the log.  Hence the ids of the log stay pairwise
    distinct as long as every appended operation brings an id that is new
    to the log; patch, undo and redo leave the ids of the log as they
    are. *)
Theorem appendOp_never_rejects now1 now2 op st :
  length (ops (appendOp now1 now2 op st)) = S (length (ops st))
  ∧ id <$> ops (appendOp now1 now2 op st) ≡ₚ (id <$> ops st) ++ [id op]
  ∧ (NoDup (id <$> ops st) → id op ∉ id <$> ops st →
     NoDup (id <$> ops (appendOp now1 now2 op st)))
  ∧ (∀ i ps, id <$> ops (patchPoints i ps st) = id <$> ops st)
  ∧ id <$> ops (globalUndo st) = id <$> ops st
  ∧ id <$> ops (globalRedo st) = id <$> ops st.
Proof.
  assert (id <$> ops (appendOp now1 now2 op st) ≡ₚ (id <$> ops st) ++ [id op])
    as Hids by (by rewrite appendOp_Permutation, fmap_app).
  split; [|split; [done|split; [|split; [|split]]]].
  - rewrite appendOp_Permutation, length_app. simpl. lia.
  - intros Hnd Hfresh. rewrite Hids. apply NoDup_app. split; [done|].
    split; [|apply NoDup_singleton].
    intros i Hi ->%list_elem_of_singleton. done.
  - intros i ps. by apply patchPoints_preserves.
  - by apply globalUndo_preserves.
  - by apply globalRedo_preserves.
Qed.

(** ** Undo and redo (C5, C6, C7) *)

Lemma state_eta st : st = mkState (ops st) (redoStack st).
Proof. by destruct st. Qed.

(** C5.  The log of a room is kept in the total order, so computing the
    order anew gives the array itself.  If some operation is visible,
    [globalUndo] tombstones the last visible operation of that order, an
    operation whose key no visible operation exceeds: afterwards the
    entry at its place is the same operation with [isDeleted] set to
    [true], every other entry is as it was, the visible operations are
    those of before without this last one, and the id of the operation is
    pushed onto the redo stack.  If no operation is visible (all
    tombstoned, or an empty log), [globalUndo] returns the state
    unchanged. *)
Theorem globalUndo_last_visible st :
  reachable st →
  (∀ o, last (visible (sort compareOps (ops st))) = Some o →
     ∃ l1 l2,
       sort compareOps (ops st) = l1 ++ o :: l2
       ∧ ops st = l1 ++ o :: l2
       ∧ visible l2 = []
       ∧ truthy (isDeleted o) = false
       ∧ (∀ o', o' ∈ visible (ops st) → key_le o' o)
       ∧ globalUndo st
         = mkState (l1 ++ set_isDeleted true o :: l2)
                   (redoStack st ++ [id o])
       ∧ ops (globalUndo st)
         = l1 ++ mkOp (id o) (userId o) (type o) (mode o) (color o)
                      (width o) (points o) (payload o) (timestamp o)
                      (serverTimestamp o) (Some true) :: l2
       ∧ redoStack (globalUndo st) = redoStack st ++ [id o]
       ∧ visible (ops st) = visible (ops (globalUndo st)) ++ [o]
       ∧ tombstoned (ops (globalUndo st))
         ≡ₚ mkOp (id o) (userId o) (type o) (mode o) (color o)
                 (width o) (points o) (payload o) (timestamp o)
                 (serverTimestamp o) (Some true) :: tombstoned (ops st))
  ∧ (visible (ops st) = [] → globalUndo st = st).
Proof.
  intros Hst. pose proof (reachable_log_ok st Hst) as Hok. split.
  - rewrite (sort_compareOps_id _ Hok). intros o Hlast.
    destruct (visible_last_split _ _ Hlast) as (l1 & l2 & Hops & Ho & Hl2).
    assert (globalUndo st
            = mkState (l1 ++ set_isDeleted true o :: l2)
                      (redoStack st ++ [id o])) as Hundo.
    { rewrite (state_eta st) at 1. rewrite Hops.
      by apply globalUndo_split. }
    apply visible_nil in Hl2.
    exists l1, l2. rewrite Hundo.
    split; [done|]. split; [done|]. split; [done|]. split; [done|].
    split; [|split; [done|split; [done|split; [done|split]]]].
    + intros o' Ho'. destruct Hok as [_ Hs]. rewrite Hops in Hs, Ho'.
      unfold visible in Ho'. apply list_elem_of_filter in Ho' as [Hvis Hin].
      apply elem_of_app in Hin as [Hin|Hin].
      * eapply StronglySorted_app_1_elem_of; [done..|left].
      * apply elem_of_cons in Hin as [->|Hin]; [by right|].
        apply visible_nil in Hl2.
        rewrite Forall_forall in Hl2. apply Hl2 in Hin. congruence.
    + simpl. rewrite Hops, !visible_app.
      change (o :: l2) with ([o] ++ l2).
      change (set_isDeleted true o :: l2)
        with ([set_isDeleted true o] ++ l2).
      rewrite !visible_app, Hl2. unfold visible at 2 4.
      rewrite filter_cons_True by done.
      rewrite filter_cons_False by done. by rewrite !app_nil_r.
    + simpl. rewrite Hops. unfold tombstoned.
      rewrite !filter_app, (filter_cons_False _ o) by congruence.
      rewrite filter_cons_True by done.
      by rewrite Permutation_middle.
  - intros Hnil. apply globalUndo_none. by apply visible_nil.
Qed.

(** C6 (as amended).  Let [o] be the last visible operation of a room's
    log.  If the id of [o] is not the empty string and no entry that
    stands before [o] in the log carries the same id, then [globalUndo]
    followed by [globalRedo] gives back the state as it was: the same
    array of operations (so the same visible operations in the same
    order) and the same redo stack. *)
Theorem undo_redo_roundtrip st l1 o l2 :
  reachable st →
  ops st = l1 ++ o :: l2 → truthy (isDeleted o) = false → visible l2 = [] →
  id o ≠ EmptyString → Forall (λ o', id o' ≠ id o) l1 →
  globalRedo (globalUndo st) = st
  ∧ visible (ops (globalRedo (globalUndo st))) = visible (ops st).
Proof.
  intros Hst Hops Ho Hl2 Hid Hl1.
  cut (globalRedo (globalUndo st) = st); [by intros ->|].
  pose proof (reachable_log_ok st Hst) as [Hall _].
  rewrite (state_eta st), Hops.
  rewrite globalUndo_split by (done || by apply visible_nil).
  unfold globalRedo. simpl redoStack. rewrite pop_snoc.
  rewrite decide_False by done. simpl ops.
  rewrite findIndex_middle.
  - simpl. f_equal.
    replace (length l1) with (length l1 + 0)%nat by lia.
    rewrite alter_app_r. simpl. do 2 f_equal.
    rewrite Hops, Forall_forall in Hall.
    destruct (Hall o) as (_ & _ & [b Hb]); [set_solver|].
    destruct o; simpl in *. subst. by destruct b.
  - eapply Forall_impl; [exact Hl1|]. simpl. intros o' Ho'.
    by apply bool_decide_eq_false.
  - by apply bool_decide_eq_true.
Qed.

Lemma reachable_redoStack_nil st :
  reachable st → ops st = [] → redoStack st = [].
Proof.
  induction 1 as [|r st Hst IH Hr]; [done|].
  assert (∀ now1 now2 op s, ops (appendOp now1 now2 op s) ≠ []) as Happ.
  { intros now1 now2 op s Hnil.
    pose proof (appendOp_Permutation now1 now2 op s) as Hp.
    rewrite Hnil in Hp. apply Permutation_nil in Hp.
    by destruct (ops s). }
  destruct r; simpl; intros Hnil.
  - by destruct (Happ _ _ _ _ Hnil).
  - by destruct (Happ _ _ _ _ Hnil).
  - apply (f_equal length) in Hnil. unfold patchPoints in *.
    case_match; simpl in *; [|by destruct (ops st); auto].
    rewrite length_alter in Hnil. destruct (ops st); [|done].
    auto.
  - auto.
  - apply (f_equal (fmap id)) in Hnil.
    rewrite (globalUndo_preserves id) in Hnil by done.
    destruct (ops st) eqn:E; [|done]. unfold globalUndo. rewrite E. simpl.
    auto.
  - apply (f_equal (fmap id)) in Hnil.
    rewrite (globalRedo_preserves id) in Hnil by done.
    destruct (ops st) eqn:E; [|done]. pose proof (IH eq_refl) as Hrs.
    unfold globalRedo. rewrite Hrs. simpl. exact Hrs.
  - done.
  - apply loadOps_redoStack.
Qed.

(** C7.  Every append empties the redo stack, so a redo that follows an
    undo and an append returns the state unchanged; a redo on an empty
    redo stack returns the state unchanged; on an empty log undo returns
    the state unchanged and redo leaves the log empty, and in every state
    of a room with an empty log both return the state unchanged.  The two
    functions are total: there is no error result. *)
Theorem redo_invalidation :
  (∀ now1 now2 op st,
     redoStack (appendOp now1 now2 op st) = []
     ∧ globalRedo (appendOp now1 now2 op (globalUndo st))
       = appendOp now1 now2 op (globalUndo st))
  ∧ (∀ l, globalRedo (mkState l []) = mkState l [])
  ∧ (∀ rs, globalUndo (mkState [] rs) = mkState [] rs
           ∧ ops (globalRedo (mkState [] rs)) = [])
  ∧ (∀ st, reachable st → ops st = [] →
           globalUndo st = st ∧ globalRedo st = st).
Proof.
  split; [intros; split; reflexivity|]. split; [reflexivity|]. split.
  - intros rs. split; [reflexivity|]. unfold globalRedo.
    simpl redoStack. destruct (pop rs) as [rest [i|]]; [|reflexivity].
    case_decide; reflexivity.
  - intros st Hst Hnil.
    pose proof (reachable_redoStack_nil st Hst Hnil) as Hrs.
    rewrite (state_eta st), Hnil, Hrs. done.
Qed.

(** ** Patches (C8) *)

(** C8 (as amended).  [patchPoints] replaces the point sequence of the
    first operation of the log that carries the id by the sequence it is
    given, whatever the two sequences are, and changes nothing else; so
    the points stored before remain a prefix of the points stored after
    exactly when the sequence given extends them.  A patch for an id that
    is not in the log returns the state unchanged.  The server keeps no
    record of finalization: [stroke:end] leaves the state as it is and a
    patch that follows it is applied like any other. *)
Theorem patchPoints_replaces i ps st :
  (∀ l1 o l2,
     ops st = l1 ++ o :: l2 → id o = i → Forall (λ o', id o' ≠ i) l1 →
     patchPoints i ps st
     = mkState (l1 ++ set_points ps o :: l2) (redoStack st)
     ∧ points (set_points ps o) = ps
     ∧ (points o `prefix_of` points (set_points ps o)
        ↔ points o `prefix_of` ps))
  ∧ (Forall (λ o, id o ≠ i) (ops st) → patchPoints i ps st = st)
  ∧ handle (stroke_update i ps) (handle (stroke_end i) st)
    = patchPoints i ps st.
Proof.
  split; [|split; [|done]].
  - intros l1 o l2 Hops Ho Hl1. split; [|done].
    unfold patchPoints. rewrite Hops, findIndex_middle.
    + f_equal. replace (length l1) with (length l1 + 0)%nat by lia.
      by rewrite alter_app_r.
    + eapply Forall_impl; [exact Hl1|]. simpl. intros o' Ho'.
      by apply bool_decide_eq_false.
    + by apply bool_decide_eq_true.
  - intros Hall. unfold patchPoints.
    replace (findIndex _ (ops st)) with (@None nat); [done|].
    symmetry. apply findIndex_None.
    eapply Forall_impl; [exact Hall|]. simpl. intros o' Ho'.
    by apply bool_decide_eq_false.
Qed.

(** ** The server timestamp (C9) *)

(** C9 (as amended).  [appendOp] stores a copy of the operation whose
    [serverTimestamp] is the reading of the clock made by this append,
    whatever [serverTimestamp] the operation carried, next to the
    operations already in the log, which it leaves as they are; patch,
    undo and redo change no [serverTimestamp] of the log; a reload gives
    every record of the snapshot the clock reading of its own append. *)
Theorem serverTimestamp_assignment :
  (∀ now1 now2 op st,
     ops (appendOp now1 now2 op st) ≡ₚ ops st ++ [stamp now1 now2 op]
     ∧ serverTimestamp (stamp now1 now2 op) = Some now1)
  ∧ (∀ i ps st,
       serverTimestamp <$> ops (patchPoints i ps st)
       = serverTimestamp <$> ops st)
  ∧ (∀ st,
       serverTimestamp <$> ops (globalUndo st) = serverTimestamp <$> ops st
       ∧ serverTimestamp <$> ops (globalRedo st)
         = serverTimestamp <$> ops st)
  ∧ (∀ data st,
       serverTimestamp <$> ops (loadOps data st)
       ≡ₚ (λ rec, Some rec.1.1) <$> data).
Proof.
  split; [|split; [|split]].
  - intros. split; [apply appendOp_Permutation|done].
  - intros. by apply patchPoints_preserves.
  - intros. split;
      [by apply globalUndo_preserves|by apply globalRedo_preserves].
  - intros. rewrite loadOps_Permutation, <-list_fmap_compose. done.
Qed.

(** ** Append clears the tombstone (C10) *)

(** C10.  The copy of an operation that [appendOp] stores has
    [isDeleted: false], whatever the operation carried, and the redo stack
    is empty afterwards.  Hence after a reload, which clears the state and
    appends every record of the snapshot, every record is in the log, no
    operation of the log is tombstoned (all are visible), and the redo
    stack is empty. *)
Theorem appendOp_clears_tombstone :
  (∀ now1 now2 op st,
     stamp now1 now2 op ∈ ops (appendOp now1 now2 op st)
     ∧ id (stamp now1 now2 op) = id op
     ∧ isDeleted (stamp now1 now2 op) = Some false
     ∧ redoStack (appendOp now1 now2 op st) = [])
  ∧ (∀ data st,
       id <$> ops (loadOps data st) ≡ₚ (λ rec, id rec.2) <$> data
       ∧ Forall (λ o, isDeleted o = Some false) (ops (loadOps data st))
       ∧ visible (ops (loadOps data st)) = ops (loadOps data st)
       ∧ redoStack (loadOps data st) = []).
Proof.
  split.
  - intros. split; [|done]. rewrite appendOp_Permutation. set_solver.
  - intros data st.
    assert (Forall (λ o, isDeleted o = Some false) (ops (loadOps data st)))
      as Hall.
    { rewrite loadOps_Permutation. apply Forall_fmap, Forall_true. done. }
    split; [|split; [done|split; [|apply loadOps_redoStack]]].
    + rewrite loadOps_Permutation, <-list_fmap_compose. done.
    + unfold visible. induction Hall as [|o l Ho _ IH]; [done|].
      rewrite filter_cons, decide_True, IH; [done|]. by rewrite Ho.
Qed.

(** ** Rendering

    What [redrawAll] writes is a sequence of assignments, each for a
    locally committed id; the lists, the stroke being drawn and the set
    of locally committed ids are left as they are. *)

Lemma drawStroke_steps rect l c :
  rtc (render_step rect) c (drawStroke rect l c).
Proof.
  unfold drawStroke. set (s := heap c !!! l).
  destruct (truthy (isDeleted s)); [done|].
  destruct (is_committed c (id s)) eqn:Hcom; [|done].
  apply bool_decide_eq_true in Hcom.
  set (c1 := match committedStrokeCoordinates c !! id s with
             | Some _ => _ | None => _ end).
  assert (rtc (render_step rect) c c1 ∧ heap c1 = heap c
          ∧ locallyCommittedStrokes c1 = locallyCommittedStrokes c)
    as (H1 & Hh & Hl).
  { unfold c1.
    destruct (committedStrokeCoordinates c !! id s); [|done].
    destruct (committedStrokeCanvasSize c !! id s) as [storedSize|] eqn:Hsz;
      [|done].
    destruct (committedStrokeNormalizedCoordinates c !! id s); [|done].
    destruct (size_changed rect storedSize) eqn:Hch; [|done].
    split; [|done]. apply rtc_once. by eapply rescale. }
  clearbody c1. eapply rtc_trans; [exact H1|].
  destruct (committedStrokeCoordinates c1 !! id s) as [[|p sp]|] eqn:Hc1;
    [done| |done].
  destruct (match points s with [] => true | _ => _ end); [|done].
  apply rtc_once.
  apply (reset_points rect c1 l (p :: sp)); rewrite Hh; fold s;
    [by rewrite Hl|done].
Qed.

Lemma redraw_stroke_steps rect c l :
  rtc (render_step rect) c (redraw_stroke rect c l).
Proof.
  unfold redraw_stroke. set (s := heap c !!! l).
  case_decide; [|done].
  destruct (truthy (isDeleted s)); [done|].
  eapply rtc_trans; [|apply drawStroke_steps].
  destruct (is_committed c (id s)) eqn:Hcom; [|done].
  apply bool_decide_eq_true in Hcom.
  destruct (committedStrokeCoordinates c !! id s) as [[|p sp]|] eqn:Hc;
    [done| |done].
  destruct (points s) as [|q ps]; [done|].
  destruct (first_moved q p); [|done].
  apply rtc_once. by apply reset_points.
Qed.

Lemma redrawAll_steps rect c : rtc (render_step rect) c (redrawAll rect c).
Proof.
  unfold redrawAll. generalize (sort
    (λ a b : loc + Op,
       sorter match a with inl l => heap c !!! l | inr o => o end
              match b with inl l => heap c !!! l | inr o => o end)
    ((inl <$> strokes c) ++ (inr <$> shapes c))).
  intros es. revert c.
  induction es as [|[l|o] es IH]; intros c0; simpl; [done| |apply IH].
  eapply rtc_trans; [apply redraw_stroke_steps|apply IH].
Qed.

(** A property that every assignment of rendering keeps is kept by
    [redrawAll]. *)
Lemma redrawAll_keeps (P : Controller → Prop) rect c :
  (∀ c1 c2, render_step rect c1 c2 → P c1 → P c2) →
  P c → P (redrawAll rect c).
Proof.
  intros Hstep. generalize (redrawAll_steps rect c).
  generalize (redrawAll rect c). intros c' Hrtc.
  induction Hrtc as [|c1 c2 c3 H12 _ IH]; [done|].
  intros HP. apply IH. by eapply Hstep.
Qed.

Lemma update_stored_coordinates h ss sh a c :
  committedStrokeCoordinates (update h ss sh a c)
  = committedStrokeCoordinates c.
Proof. done. Qed.

Lemma redrawAll_frame rect c :
  myUserId (redrawAll rect c) = myUserId c
  ∧ strokes (redrawAll rect c) = strokes c
  ∧ shapes (redrawAll rect c) = shapes c
  ∧ activeStroke (redrawAll rect c) = activeStroke c
  ∧ isPointerDown (redrawAll rect c) = isPointerDown c
  ∧ locallyCommittedStrokes (redrawAll rect c) = locallyCommittedStrokes c.
Proof.
  apply (redrawAll_keeps
           (λ c', myUserId c' = myUserId c
                  ∧ strokes c' = strokes c
                  ∧ shapes c' = shapes c
                  ∧ activeStroke c' = activeStroke c
                  ∧ isPointerDown c' = isPointerDown c
                  ∧ locallyCommittedStrokes c' = locallyCommittedStrokes c));
    [|done].
  intros c1 c2 Hstep HP. by destruct Hstep.
Qed.

(** Without a locally committed stroke, [redrawAll] writes nothing. *)
Lemma redrawAll_uncommitted rect c :
  locallyCommittedStrokes c = ∅ → redrawAll rect c = c.
Proof.
  intros Hempty.
  apply (redrawAll_keeps (λ c', c' = c)); [|done].
  intros c1 c2 Hstep ->. destruct Hstep as [? ? ? Hin|? ? ? ? Hin];
    rewrite Hempty in Hin; set_solver.
Qed.

(** ** The pin of a committed stroke *)

Section pin.
Context (i : string) (pinned : list Point) (sz : Size).

#[local] Abbreviation keeps := (keeps i pinned).
#[local] Abbreviation pinned_in := (pinned_in i pinned).
#[local] Abbreviation active_other := (active_other i).
#[local] Abbreviation Committed := (Committed i pinned sz).

Lemma keeps_refl h : keeps h h.
Proof. intros l o Hl. eauto. Qed.

Lemma keeps_trans h1 h2 h3 : keeps h1 h2 → keeps h2 h3 → keeps h1 h3.
Proof.
  intros H12 H23 l o Hl.
  destruct (H12 l o Hl) as (o2 & Hl2 & Hid2 & Hp2).
  destruct (H23 l o2 Hl2) as (o3 & Hl3 & Hid3 & Hp3).
  exists o3. split; [done|]. split; [congruence|].
  intros Hi Hp. apply Hp3; [congruence|by apply Hp2].
Qed.

Lemma keeps_insert_fresh h l o : h !! l = None → keeps h (<[l := o]> h).
Proof.
  intros Hfresh l' o' Hl'. exists o'.
  rewrite lookup_insert_ne by congruence. done.
Qed.

Lemma keeps_alter f l h :
  (∀ o, h !! l = Some o →
        id (f o) = id o
        ∧ (id o = i → points o = pinned → points (f o) = pinned)) →
  keeps h (alter f l h).
Proof.
  intros Hf l' o Hl'. destruct (decide (l = l')) as [->|Hne].
  - exists (f o). rewrite lookup_alter_eq, Hl'. simpl.
    destruct (Hf o Hl') as [? ?]. done.
  - exists o. rewrite lookup_alter_ne by done. done.
Qed.





Lemma pinned_in_keeps h h' ls :
  keeps h h' → pinned_in h ls → pinned_in h' ls.
Proof.
  intros Hk Hp l Hl. destruct (Hp l Hl) as (o & Ho & Hpo).
  destruct (Hk l o Ho) as (o' & Ho' & Hid & Hpo').
  exists o'. split; [done|]. intros Hi. rewrite Hid in Hi. auto.
Qed.

Lemma active_other_keeps h h' a :
  keeps h h' → active_other h a → active_other h' a.
Proof.
  intros Hk Ha l Hl. destruct (Ha l Hl) as (o & Ho & Hne).
  destruct (Hk l o Ho) as (o' & Ho' & Hid & _).
  exists o'. split; [done|congruence].
Qed.

(** The way every handler re-establishes the Committed state. *)
Lemma Committed_update c h' ss' sh a' :
  Committed c →
  keeps (heap c) h' →
  (∀ l, l ∈ ss' →
        l ∈ strokes c ∨ ∃ o, h' !! l = Some o ∧ id o ≠ i) →
  (∀ l o, l ∈ strokes c → heap c !! l = Some o → id o = i → l ∈ ss') →
  (a' = activeStroke c ∨ active_other h' a') →
  Committed (update h' ss' sh a' c).
Proof.
  intros (Hin & Hco & Hsize & Hpin & (l0 & o0 & Hl0 & Ho0 & Hid0) & Hact)
         Hk Hss Hkeep Ha.
  split; [done|]. split; [done|]. split; [done|]. simpl. split; [|split].
  - intros l Hl. destruct (Hss l Hl) as [Hold|(o & Ho & Hne)].
    + exact (pinned_in_keeps (heap c) h' (strokes c) Hk Hpin l Hold).
    + exists o. split; [done|]. done.
  - destruct (Hk l0 o0 Ho0) as (o' & Ho' & Hid' & _).
    exists l0, o'. split; [by eapply Hkeep|]. split; [done|congruence].
  - destruct Ha as [->|Ha]; [|done].
    by apply (active_other_keeps (heap c)).
Qed.
End pin.

Section pin_handlers.
Context (i : string) (pinned : list Point) (sz : Size).

#[local] Abbreviation Committed := (Committed i pinned sz).


Lemma find_stroke_Some h j ls l :
  find_stroke h j ls = Some l → l ∈ ls ∧ id (h !!! l) = j.
Proof.
  unfold find_stroke. intros [Hin Hid]%find_some.
  split; [by apply list_elem_of_In|]. by apply bool_decide_eq_true in Hid.
Qed.


Lemma Committed_set_heap c f l :
  Committed c →
  (∀ o, heap c !! l = Some o →
        id (f o) = id o
        ∧ (id o = i → points o = pinned → points (f o) = pinned)) →
  Committed (set_heap (alter f l (heap c)) c).
Proof.
  intros HC Hf. unfold set_heap. apply Committed_update; try done.
  - by apply keeps_alter.
  - auto.
  - auto.
Qed.

(** Rendering keeps the Committed state on a canvas that has the box of
    the commit. *)
Lemma Committed_render_step rect c c' :
  size_changed rect sz = false →
  render_step rect c c' → Committed c → Committed c'.
Proof.
  intros Hsz Hstep HC.
  destruct Hstep as [c l sp Hid Hsp|c j sz' np Hj Hsz' Hch].
  - apply Committed_set_heap; [done|].
    intros o Ho. split; [done|]. intros Hi _. simpl.
    rewrite (lookup_total_correct _ _ _ Ho), Hi in Hsp.
    destruct HC as (_ & Hco & _). congruence.
  - destruct HC as (Hin & Hco & Hsize & Hrest).
    assert (j ≠ i) as Hne by (intros ->; congruence).
    split; [done|]. simpl. by rewrite !lookup_insert_ne.
Qed.

Lemma Committed_redrawAll rect c :
  size_changed rect sz = false →
  Committed c → Committed (redrawAll rect c).
Proof.
  intros Hsz. apply redrawAll_keeps.
  intros c1 c2. by apply Committed_render_step.
Qed.








End pin_handlers.

(** ** How the Committed state is entered *)

Lemma keeps_restore_first i pinned coords h ls :
  coords !! i = Some pinned →
  keeps i pinned h (restore_first coords i h ls).
Proof.
  intros Hc. unfold restore_first. rewrite Hc.
  destruct (find_stroke h i ls) as [l|]; [|apply keeps_refl].
  apply keeps_alter. intros o _. done.
Qed.

Lemma keeps_verify_stroke i pinned h ls :
  keeps i pinned h (verify_stroke pinned i h ls).
Proof.
  unfold verify_stroke.
  destruct (find_stroke h i ls) as [l|]; [|apply keeps_refl].
  destruct pinned as [|p ps] eqn:Hp; [apply keeps_refl|].
  destruct (points (h !!! l)) as [|q qs]; [apply keeps_refl|].
  destruct (first_moved q p); [|apply keeps_refl].
  apply keeps_alter. intros o _. done.
Qed.

(** [endStroke] puts the stroke being drawn into the Committed state, with
    the locked coordinates as its pin and the box of the canvas, when the
    stroke has points, the stroke list refers to existing objects and at
    most one entry of the list carries the id of the stroke. *)
Lemma endStroke_Committed lock rect c a o :
  activeStroke c = Some a → heap c !! a = Some o → points o ≠ [] →
  (∀ l, l ∈ strokes c → is_Some (heap c !! l)) →
  (∀ k1 k2 l1 l2,
     strokes c !! k1 = Some l1 → strokes c !! k2 = Some l2 →
     id (heap c !!! l1) = id o → id (heap c !!! l2) = id o → k1 = k2) →
  size_changed rect rect = false →
  Committed (id o) (lock (points o)) rect (endStroke lock rect c).
Proof.
  intros Ha Ho Hpts Hwf Huniq Hrect. unfold endStroke.
  rewrite Ha, (lookup_total_correct _ _ _ Ho).
  rewrite decide_False by (by destruct (points o)).
  set (i := id o). set (pinned := lock (points o)).
  set (strokeToCommit := mkOp _ _ _ _ _ _ _ _ _ _ _).
  unfold alloc. set (l := fresh (dom (heap c))).
  set (h1 := <[l := strokeToCommit]> (heap c)).
  assert (heap c !! l = None) as Hfresh.
  { apply not_elem_of_dom. apply is_fresh. }
  assert (∀ r, r ∈ strokes c → h1 !!! r = heap c !!! r) as Hsame.
  { intros r Hr. unfold h1. apply lookup_total_insert_ne.
    intros <-. destruct (Hwf _ Hr) as [? ?]. congruence. }
  set (coords := <[i := pinned]> (committedStrokeCoordinates c)).
  assert (coords !! i = Some pinned) as Hco.
  { apply lookup_insert_eq. }
  set (ss := match findIndex _ (strokes c) with
             | Some k => _ | None => _ end).
  assert (l ∈ ss ∧ ∀ r, r ∈ ss →
            r = l ∨ (r ∈ strokes c ∧ id (heap c !!! r) ≠ i)) as [Hl Hss].
  { unfold ss.
    destruct (findIndex _ (strokes c)) as [k|] eqn:Hfind.
    - apply findIndex_Some in Hfind
        as (l1 & r0 & l2 & Hstrokes & -> & Hr0 & Hl1).
      apply bool_decide_eq_true in Hr0.
      rewrite Hstrokes in *.
      replace (length l1) with (length l1 + 0)%nat by lia.
      rewrite insert_app_r. simpl.
      split; [apply elem_of_app; right; apply list_elem_of_here|].
      rewrite Hsame in Hr0
        by (apply elem_of_app; right; apply list_elem_of_here).
      intros r Hr. apply elem_of_app in Hr as [Hr|Hr].
      + assert (r ∈ l1 ++ r0 :: l2) as Hin by (apply elem_of_app; by left).
        right. split; [done|]. rewrite Forall_forall in Hl1.
        pose proof (Hl1 r Hr) as Hne.
        apply bool_decide_eq_false in Hne. by rewrite Hsame in Hne.
      + apply elem_of_cons in Hr as [?|Hr]; [by left|]. right.
        assert (r ∈ l1 ++ r0 :: l2) as Hin.
        { apply elem_of_app. right. by apply list_elem_of_further. }
        split; [done|]. intros Hid.
        apply list_elem_of_lookup in Hr as [k Hk].
        assert (length l1 = (length l1 + S k)%nat); [|lia].
        apply (Huniq _ _ r0 r); try done.
        * by apply list_lookup_middle.
        * rewrite lookup_app_r by lia.
          by replace (length l1 + S k - length l1)%nat with (S k) by lia.
    - apply findIndex_None in Hfind.
      split; [apply elem_of_app; right; apply list_elem_of_here|].
      intros r Hr. apply elem_of_app in Hr as [Hr|Hr].
      + right. split; [done|]. rewrite Forall_forall in Hfind.
        pose proof (Hfind r Hr) as Hne.
        apply bool_decide_eq_false in Hne. by rewrite Hsame in Hne.
      + left. by apply list_elem_of_singleton in Hr. }
  clearbody ss.
  set (h2 := restore_first coords i h1 ss).
  set (h3 := restore_first coords i h2 (sort_refs h2 ss)).
  set (h4 := verify_stroke pinned i h3 (sort_refs h2 ss)).
  assert (keeps i pinned h1 h4) as Hk13.
  { eapply keeps_trans; [|apply keeps_verify_stroke].
    eapply keeps_trans; by apply keeps_restore_first. }
  clearbody h4. clear h3.
  rename h4 into h3.
  assert (keeps i pinned (heap c) h3) as Hk.
  { eapply keeps_trans; [|exact Hk13]. by apply keeps_insert_fresh. }
  assert (∃ o3, h3 !! l = Some o3 ∧ id o3 = i ∧ points o3 = pinned)
    as (o3 & Ho3 & Hid3 & Hp3).
  { destruct (Hk13 l strokeToCommit) as (o3 & ? & ? & Hp).
    { apply lookup_insert_eq. }
    exists o3. split; [done|]. split; [done|]. by apply Hp. }
  apply Committed_redrawAll; [done|].
  split; [set_solver|]. split; [done|].
  split; [apply lookup_insert_eq|]. simpl. split; [|split].
  - intros r Hr. unfold sort_refs in Hr. apply elem_of_sort in Hr.
    destruct (Hss r Hr) as [->|[Hr' Hne]]; [by exists o3|].
    destruct (Hwf r Hr') as [o' Ho'].
    rewrite (lookup_total_correct _ _ _ Ho') in Hne.
    destruct (Hk r o' Ho') as (o'' & Ho'' & Hid'' & _).
    exists o''. split; [done|]. congruence.
  - exists l, o3. split; [|done]. unfold sort_refs. by apply elem_of_sort.
  - intros ? [=].
Qed.

(** * Further properties of the drawing state *)

(** ** Where an append puts the operation *)

Lemma sort_snoc_log_ok l x :
  log_ok l → stored x →
  ∃ l1 l2,
    l = l1 ++ l2
    ∧ sort compareOps (l ++ [x]) = l1 ++ x :: l2
    ∧ Forall (λ o, key_le o x) l1
    ∧ Forall (precedes x) l2.
Proof.
  intros [Hl Hs] Hx. induction Hs as [|a l Hs IH Ha].
  { exists [], []. by repeat split. }
  apply Forall_cons in Hl as [Pa Hl].
  destruct (IH Hl) as (l1 & l2 & -> & Hsort & Hl1 & Hl2).
  simpl. rewrite Hsort. destruct l1 as [|b l1]; simpl.
  - case_decide as Hax.
    + exists [a], l2. repeat split; [|done].
      apply Forall_singleton. by apply compareOps_le.
    + exists [], (a :: l2). simpl. split; [done|].
      assert (precedes x a) as Hxa.
      { apply not_key_le. intros Hle. apply Hax. by apply compareOps_le. }
      split; [|split; [done|by constructor]].
      f_equal. destruct l2 as [|c l2]; simpl; [done|].
      apply Forall_cons in Ha as [Hac _]. apply Forall_cons in Hl as [Pc _].
      rewrite decide_True; [done|]. by apply compareOps_le.
  - apply Forall_cons in Ha as [Hab _]. apply Forall_cons in Hl as [Pb _].
    apply Forall_cons in Hl1 as [Hbx Hl1].
    rewrite decide_True by (by apply compareOps_le).
    exists (a :: b :: l1), l2. repeat split; [|done].
    constructor; [by trans b|by constructor].
Qed.

(** X1.  In a room's log, [appendOp] leaves the stored operations in
    their order and puts the new one behind every stored operation whose
    key is smaller than or equal to its key and before every stored
    operation whose key is greater: among equal keys the order is the
    order of arrival. *)
Theorem appendOp_position now1 now2 op st :
  reachable st → 0 < now1 →
  ∃ l1 l2,
    ops st = l1 ++ l2
    ∧ ops (appendOp now1 now2 op st) = l1 ++ stamp now1 now2 op :: l2
    ∧ Forall (λ o, key_le o (stamp now1 now2 op)) l1
    ∧ Forall (precedes (stamp now1 now2 op)) l2.
Proof.
  intros Hst Hnow. apply sort_snoc_log_ok.
  - by apply reachable_log_ok.
  - by apply stored_stamp.
Qed.

(** ** Counting visible and tombstoned operations *)

Lemma visible_tombstoned_length l :
  (length (visible l) + length (tombstoned l) = length l)%nat.
Proof.
  unfold visible, tombstoned. induction l as [|o l IH]; [done|].
  rewrite !filter_cons. destruct (truthy (isDeleted o)) eqn:Ho.
  - rewrite decide_False, decide_True by done. simpl. lia.
  - rewrite decide_True, decide_False by done. simpl. lia.
Qed.

Lemma visible_cons o l :
  visible (o :: l) = if truthy (isDeleted o) then visible l else o :: visible l.
Proof.
  unfold visible. rewrite filter_cons.
  destruct (truthy (isDeleted o)); by case_decide.
Qed.

Lemma visible_alter_undelete k l :
  (length (visible l) ≤ length (visible (alter (set_isDeleted false) k l))
   ≤ S (length (visible l)))%nat.
Proof.
  revert k. induction l as [|o l IH]; intros [|k].
  - simpl. lia.
  - simpl. lia.
  - change (alter (set_isDeleted false) 0%nat (o :: l))
      with (set_isDeleted false o :: l).
    rewrite !visible_cons. simpl.
    destruct (truthy (isDeleted o)); simpl; lia.
  - change (alter (set_isDeleted false) (S k) (o :: l))
      with (o :: alter (set_isDeleted false) k l).
    rewrite !visible_cons. specialize (IH k).
    destruct (truthy (isDeleted o)); simpl; lia.
Qed.

Lemma visible_fmap_isDeleted l l' :
  isDeleted <$> l = isDeleted <$> l' → length (visible l) = length (visible l').
Proof.
  revert l'. induction l as [|o l IH]; intros [|o' l']; simpl; try done.
  intros [= Ho Hl]. rewrite !visible_cons, Ho.
  destruct (truthy (isDeleted o')); simpl; auto.
Qed.

Lemma globalUndo_visible st :
  visible (ops st) ≠ [] →
  ∃ o, visible (ops st) = visible (ops (globalUndo st)) ++ [o]
       ∧ redoStack (globalUndo st) = redoStack st ++ [id o]
       ∧ o ∈ ops st.
Proof.
  intros Hvis.
  destruct (last (visible (ops st))) as [o|] eqn:Hlast.
  2:{ by apply last_None in Hlast. }
  destruct (visible_last_split _ _ Hlast) as (l1 & l2 & Hops & Ho & Hl2).
  exists o. rewrite (state_eta st), Hops at 2 3.
  rewrite globalUndo_split by done. simpl. rewrite Hops.
  apply visible_nil in Hl2.
  rewrite !visible_app, !visible_cons, Hl2, Ho. simpl.
  rewrite app_nil_r. split; [done|]. split; [done|].
  apply elem_of_app. right. left.
Qed.

Lemma length_ops_globalUndo st : length (ops (globalUndo st)) = length (ops st).
Proof.
  rewrite <-(length_fmap id (ops (globalUndo st))).
  rewrite (globalUndo_preserves id) by done. by rewrite length_fmap.
Qed.

Lemma length_ops_globalRedo st : length (ops (globalRedo st)) = length (ops st).
Proof.
  rewrite <-(length_fmap id (ops (globalRedo st))).
  rewrite (globalRedo_preserves id) by done. by rewrite length_fmap.
Qed.

Lemma globalRedo_visible st :
  (length (visible (ops st)) ≤ length (visible (ops (globalRedo st)))
   ≤ S (length (visible (ops st))))%nat.
Proof.
  unfold globalRedo. destruct (pop (redoStack st)) as [rest [i|]]; [|lia].
  case_decide; simpl; [lia|]. case_match; simpl; [|lia].
  apply visible_alter_undelete.
Qed.

(** X2.  Undo and redo neither add nor remove an entry of the log.  When
    some operation is visible, undo hides exactly one operation, the last
    visible one, and pushes its id; redo makes at most one operation
    visible again and hides none. *)
Theorem undo_redo_counts st :
  length (ops (globalUndo st)) = length (ops st)
  ∧ length (ops (globalRedo st)) = length (ops st)
  ∧ (visible (ops st) ≠ [] →
     ∃ o, visible (ops st) = visible (ops (globalUndo st)) ++ [o]
          ∧ redoStack (globalUndo st) = redoStack st ++ [id o])
  ∧ (length (visible (ops st)) ≤ length (visible (ops (globalRedo st)))
     ≤ S (length (visible (ops st))))%nat.
Proof.
  split; [apply length_ops_globalUndo|].
  split; [apply length_ops_globalRedo|].
  split; [|apply globalRedo_visible].
  intros Hvis. destruct (globalUndo_visible st Hvis) as (o & ? & ? & _).
  by exists o.
Qed.

(** ** The redo stack *)

Lemma globalUndo_cases st :
  globalUndo st = st
  ∨ ∃ o, o ∈ ops st
         ∧ redoStack (globalUndo st) = redoStack st ++ [id o]
         ∧ S (length (visible (ops (globalUndo st))))
           = length (visible (ops st)).
Proof.
  destruct (decide (visible (ops st) = [])) as [Hnil|Hvis].
  - left. apply globalUndo_none. by apply visible_nil.
  - right. destruct (globalUndo_visible st Hvis) as (o & Hv & Hrs & Ho).
    exists o. split; [done|]. split; [done|].
    rewrite Hv, length_app. simpl. lia.
Qed.

Lemma redoStack_globalRedo st :
  globalRedo st = st ∨ ∃ i, redoStack st = redoStack (globalRedo st) ++ [i].
Proof.
  unfold globalRedo.
  destruct (redoStack st) as [|i rest _] using rev_ind; [by left|].
  right. exists i. rewrite pop_snoc. case_decide; [done|]. by case_match.
Qed.

(** X3.  In every state of a room's log, each id on the redo stack is the
    id of some entry of the log, and the redo stack is not longer than
    the number of tombstoned entries.  (The entry need not be the one
    that was undone when two entries carry the same id, and a redo of the
    empty id returns before it looks for an entry.) *)
Theorem redoStack_refers_to_log st :
  reachable st →
  Forall (λ i, i ∈ id <$> ops st) (redoStack st)
  ∧ (length (redoStack st) ≤ length (tombstoned (ops st)))%nat.
Proof.
  induction 1 as [|r st Hst [IH1 IH2] Hr].
  { split; [constructor|done]. }
  assert (∀ s, redoStack s = [] →
            Forall (λ i, i ∈ id <$> ops s) (redoStack s)
            ∧ (length (redoStack s) ≤ length (tombstoned (ops s)))%nat)
    as Hempty.
  { intros s ->. split; [constructor|simpl; lia]. }
  destruct r; unfold handle.
  - by apply Hempty.
  - by apply Hempty.
  - unfold patchPoints. case_match; [|done]. simpl. split.
    + by rewrite fmap_alter_same.
    + pose proof (visible_tombstoned_length (ops st)) as H1.
      pose proof (visible_tombstoned_length
                    (alter (set_points ps) n (ops st))) as H2.
      rewrite length_alter in H2.
      rewrite (visible_fmap_isDeleted _ (ops st)) in H2
        by (by apply fmap_alter_same).
      lia.
  - done.
  - destruct (globalUndo_cases st) as [->|(o & Ho & Hrs & Hvis)]; [done|].
    rewrite Hrs, (globalUndo_preserves id) by done. split.
    + apply Forall_app. split; [done|]. apply Forall_singleton.
      by apply list_elem_of_fmap_2.
    + pose proof (visible_tombstoned_length (ops st)) as H1.
      pose proof (visible_tombstoned_length (ops (globalUndo st))) as H2.
      rewrite length_ops_globalUndo in H2. rewrite length_app. simpl. lia.
  - destruct (redoStack_globalRedo st) as [->|[i Hrs]]; [done|].
    rewrite Hrs, Forall_app, length_app in *. simpl in *.
    rewrite (globalRedo_preserves id) by done. split; [apply IH1|].
    pose proof (visible_tombstoned_length (ops st)) as H1.
    pose proof (visible_tombstoned_length (ops (globalRedo st))) as H2.
    rewrite length_ops_globalRedo in H2.
    pose proof (globalRedo_visible st). lia.
  - by apply Hempty.
  - apply Hempty, loadOps_redoStack.
Qed.

(** ** Repeated undo and redo *)

Lemma undo_redo_unique_ids st :
  reachable st → NoDup (id <$> ops st) →
  Forall (λ o, id o ≠ EmptyString) (ops st) → visible (ops st) ≠ [] →
  globalRedo (globalUndo st) = st.
Proof.
  intros Hst Hnd Hne Hvis.
  destruct (last (visible (ops st))) as [o|] eqn:Hlast.
  2:{ by apply last_None in Hlast. }
  destruct (visible_last_split _ _ Hlast) as (l1 & l2 & Hops & Ho & Hl2).
  pose proof (reachable_log_ok st Hst) as [Hall _].
  rewrite Hops in Hnd, Hne, Hall.
  rewrite (state_eta st), Hops. rewrite globalUndo_split by done.
  unfold globalRedo. simpl redoStack. rewrite pop_snoc.
  rewrite Forall_forall in Hne.
  rewrite decide_False by (apply Hne; set_solver). simpl ops.
  rewrite findIndex_middle.
  - simpl. f_equal.
    replace (length l1) with (length l1 + 0)%nat by lia.
    rewrite alter_app_r. simpl. do 2 f_equal.
    rewrite Forall_forall in Hall.
    destruct (Hall o) as (_ & _ & [b Hb]); [set_solver|].
    destruct o; simpl in *. subst. by destruct b.
  - rewrite fmap_app, fmap_cons in Hnd.
    apply NoDup_app in Hnd as (_ & Hdisj & _).
    apply Forall_forall. intros o' Ho'. simpl.
    apply bool_decide_eq_false. intros Heq.
    apply (Hdisj (id o')); [by apply list_elem_of_fmap_2|].
    rewrite Heq. left.
  - by apply bool_decide_eq_true.
Qed.

(** X4.  In a room's log whose ids are pairwise distinct and not empty,
    [n] undos followed by [n] redos give back the state as it was, for
    every [n] up to the number of visible operations: redo takes back the
    undos in reverse order. *)
Theorem undo_n_redo_n st n :
  reachable st → NoDup (id <$> ops st) →
  Forall (λ o, id o ≠ EmptyString) (ops st) →
  (n ≤ length (visible (ops st)))%nat →
  Nat.iter n globalRedo (Nat.iter n globalUndo st) = st.
Proof.
  intros Hst Hnd Hne. induction n as [|n IH]; intros Hn; [done|].
  assert (reachable (Nat.iter n globalUndo st)
          ∧ id <$> ops (Nat.iter n globalUndo st) = id <$> ops st
          ∧ (length (visible (ops (Nat.iter n globalUndo st))) + n
             = length (visible (ops st)))%nat) as (Hr & Hids & Hlen).
  { clear IH. induction n as [|m IHm]; [done|].
    destruct IHm as (Hr & Hids & Hlen); [lia|]. simpl. split; [|split].
    - by apply (reachable_step history_undo).
    - by rewrite (globalUndo_preserves id).
    - destruct (globalUndo_visible (Nat.iter m globalUndo st))
        as (o & Hv & _).
      { intros Hnil. rewrite Hnil in Hlen. simpl in Hlen. lia. }
      rewrite Hv, length_app in Hlen. simpl in Hlen. lia. }
  rewrite Nat.iter_succ_r. simpl.
  rewrite undo_redo_unique_ids; [apply IH; lia|done|by rewrite Hids| |].
  - apply Forall_forall. intros o Ho.
    assert (id o ∈ id <$> ops st) as Hin.
    { rewrite <-Hids. by apply list_elem_of_fmap_2. }
    apply list_elem_of_fmap in Hin as (o' & -> & Ho').
    rewrite Forall_forall in Hne. by apply Hne.
  - intros Hnil. rewrite Hnil in Hlen. simpl in Hlen. lia.
Qed.

(** ** Clear *)

(** X5.  A clear cannot be taken back: from the cleared state, patches,
    stroke ends, undos and redos in any number and order leave the log
    and the redo stack empty; only an append or a reload stores an
    operation again. *)
Theorem clear_is_final rs st :
  Forall (λ r, stores_content r = false) rs →
  run rs (clear st) = clear st.
Proof.
  unfold run. change (clear st) with (mkState [] []).
  induction 1 as [|r rs Hr _ IH]; simpl; [done|].
  destruct r; try discriminate Hr; exact IH.
Qed.

(** * Rooms and presence *)

(** ** The table of rooms *)

(** X6.  [get] returns the room stored under the name and leaves the table
    as it is when the room exists; otherwise it stores a new room with
    that name, no user and an empty log.  Afterwards the room is in the
    table under its name, a second [get] changes nothing, and no other
    name of the table is affected. *)
Theorem ensure_get nm (rooms : gmap string Rooms.Room) :
  (Rooms.ensure nm rooms).2 !! nm = Some (Rooms.ensure nm rooms).1
  ∧ Rooms.ensure nm (Rooms.ensure nm rooms).2 = Rooms.ensure nm rooms
  ∧ (∀ r, rooms !! nm = Some r → Rooms.ensure nm rooms = (r, rooms))
  ∧ (rooms !! nm = None →
     (Rooms.ensure nm rooms).1
     = Rooms.mkRoom nm [] createDrawingState)
  ∧ (∀ nm', nm' ≠ nm → (Rooms.ensure nm rooms).2 !! nm' = rooms !! nm').
Proof.
  unfold Rooms.ensure. destruct (rooms !! nm) as [r|] eqn:Hnm; simpl.
  - rewrite Hnm. repeat split; try done. intros r' [= <-]. done.
  - rewrite lookup_insert_eq. repeat split; try done.
    intros nm' Hne. by rewrite lookup_insert_ne.
Qed.

(** ** Presence *)

Lemma map_set_fst {V} k (v : V) m :
  fst <$> Rooms.map_set k v m
  = if decide (k ∈ fst <$> m) then fst <$> m else (fst <$> m) ++ [k].
Proof.
  induction m as [|[k' v'] m IH].
  { destruct (decide (k ∈ fst <$> [])) as [Hin|_]; [|done].
    by apply elem_of_nil in Hin. }
  change (Rooms.map_set k v ((k', v') :: m))
    with (if decide (k' = k) then (k, v) :: m
          else (k', v') :: Rooms.map_set k v m).
  rewrite (fmap_cons fst (k', v') m).
  destruct (decide (k' = k)) as [->|Hk].
  - destruct (decide (k ∈ (k, v').1 :: (fst <$> m))) as [_|Hnin]; [done|].
    destruct Hnin. left.
  - rewrite fmap_cons, IH.
    destruct (decide (k ∈ fst <$> m)) as [Hin|Hnin];
      destruct (decide (k ∈ (k', v').1 :: (fst <$> m))) as [Hin'|Hnin'];
      try done.
    + destruct Hnin'. by right.
    + apply elem_of_cons in Hin' as [?|?]; [simpl in *; congruence|done].
Qed.

Lemma map_set_new {V} k (v : V) m :
  k ∉ fst <$> m → Rooms.map_set k v m = m ++ [(k, v)].
Proof.
  induction m as [|[k' v'] m IH]; simpl; [done|]. intros Hnin.
  apply not_elem_of_cons in Hnin as [Hne Hnin].
  rewrite decide_False by done. by rewrite IH.
Qed.

Lemma map_delete_absent {V} k (m : list (string * V)) :
  k ∉ fst <$> m → Rooms.map_delete k m = m.
Proof.
  unfold Rooms.map_delete. induction m as [|[k' v'] m IH]; [done|].
  rewrite fmap_cons. intros Hnin.
  apply not_elem_of_cons in Hnin as [Hne Hnin].
  rewrite filter_cons_True by (simpl in *; congruence).
  by rewrite IH.
Qed.

Lemma map_delete_fst {V} k (m : list (string * V)) :
  fst <$> Rooms.map_delete k m = filter (λ k', k' ≠ k) (fst <$> m).
Proof.
  unfold Rooms.map_delete. induction m as [|[k' v'] m IH]; [done|].
  rewrite fmap_cons, !filter_cons. simpl.
  case_decide; rewrite ?fmap_cons; by rewrite IH.
Qed.

Lemma map_set_elem {V} k (v : V) m : (k, v) ∈ Rooms.map_set k v m.
Proof.
  induction m as [|[k' v'] m IH]; simpl; [left|].
  case_decide; [left|by right].
Qed.

Lemma map_set_idemp {V} k (v : V) m :
  Rooms.map_set k v (Rooms.map_set k v m) = Rooms.map_set k v m.
Proof.
  induction m as [|[k' v'] m IH]; simpl.
  - by rewrite decide_True.
  - case_decide as Hk; simpl.
    + by rewrite decide_True.
    + rewrite decide_False by done. by rewrite IH.
Qed.

(** X7.  The users of a room are held per socket.  In a room whose socket
    ids are pairwise distinct, [addUser] and [removeUser] keep them
    distinct; [addUser] lists the user in the presence, adds one presence
    entry for a new socket id and none for a known one, and adding the
    same user twice is the same as adding it once; [removeUser] of the
    socket of a user just added on a new socket gives back the room, and
    [removeUser] of an unknown socket id changes nothing. *)
Theorem presence_per_socket u sid r :
  NoDup (Rooms.sockets r) →
  NoDup (Rooms.sockets (Rooms.addUser u r))
  ∧ NoDup (Rooms.sockets (Rooms.removeUser sid r))
  ∧ (Rooms.user_id u, Rooms.user_color u)
      ∈ Rooms.getPresence (Rooms.addUser u r)
  ∧ length (Rooms.getPresence (Rooms.addUser u r))
    = (if decide (Rooms.socketId u ∈ Rooms.sockets r)
       then length (Rooms.getPresence r)
       else S (length (Rooms.getPresence r)))
  ∧ Rooms.addUser u (Rooms.addUser u r) = Rooms.addUser u r
  ∧ (Rooms.socketId u ∉ Rooms.sockets r →
     Rooms.removeUser (Rooms.socketId u) (Rooms.addUser u r) = r)
  ∧ (sid ∉ Rooms.sockets r → Rooms.removeUser sid r = r)
  ∧ sid ∉ Rooms.sockets (Rooms.removeUser sid r).
Proof.
  intros Hnd. destruct r as [nm us st]. unfold Rooms.sockets in *.
  simpl in *. split; [|split; [|split; [|split; [|split; [|split; [|split]]]]]].
  - rewrite map_set_fst. case_decide; [done|].
    apply NoDup_app. split; [done|]. split; [|apply NoDup_singleton].
    intros k Hk ->%list_elem_of_singleton. done.
  - rewrite map_delete_fst. by apply NoDup_filter.
  - unfold Rooms.getPresence. simpl.
    apply (list_elem_of_fmap_2 (λ kv, (Rooms.user_id kv.2,
                                       Rooms.user_color kv.2))
             _ (Rooms.socketId u, u)).
    apply map_set_elem.
  - unfold Rooms.getPresence. simpl. rewrite !length_fmap.
    rewrite <-(length_fmap fst (Rooms.map_set _ _ _)), map_set_fst.
    case_decide; rewrite ?length_app, !length_fmap; simpl; lia.
  - unfold Rooms.addUser. simpl. by rewrite map_set_idemp.
  - intros Hnew. unfold Rooms.removeUser, Rooms.addUser. simpl. f_equal.
    rewrite map_set_new by done. unfold Rooms.map_delete.
    rewrite filter_app, filter_cons_False, filter_nil, app_nil_r
      by (simpl; auto).
    by apply map_delete_absent.
  - intros Hsid. unfold Rooms.removeUser. simpl. f_equal.
    by apply map_delete_absent.
  - rewrite map_delete_fst. intros [Hne _]%list_elem_of_filter. done.
Qed.

(** ** Connections and rooms *)

Lemma in_room_lookup nm f (rooms : gmap string Rooms.Room) :
  Connection.in_room nm f rooms !! nm = Some (f (Rooms.ensure nm rooms).1)
  ∧ ∀ nm', nm' ≠ nm → Connection.in_room nm f rooms !! nm' = rooms !! nm'.
Proof.
  unfold Connection.in_room, Rooms.ensure.
  destruct (rooms !! nm) as [r|]; simpl.
  - split; [by rewrite lookup_insert_eq|].
    intros nm' Hne. by rewrite lookup_insert_ne.
  - split; [by rewrite lookup_insert_eq|].
    intros nm' Hne. by rewrite !lookup_insert_ne.
Qed.

Lemma on_message_other m c rooms nm :
  Connection.joinedRoom (Connection.on_message m c rooms).1 ≠ Some nm →
  (Connection.on_message m c rooms).2 !! nm = rooms !! nm.
Proof.
  assert (∀ jr f, Some jr ≠ Some nm →
            Connection.in_room jr f rooms !! nm = rooms !! nm) as Hin.
  { intros jr f Hne. apply in_room_lookup. congruence. }
  destruct m; simpl; try done;
    try (destruct (Connection.joinedRoom c) as [jr|] eqn:Hjr; simpl;
         [|done]; intros Hne; apply Hin; congruence).
  intros Hne. by apply Hin.
Qed.

Lemma on_message_joinedRoom m c rooms :
  Connection.is_join m = false →
  Connection.joinedRoom (Connection.on_message m c rooms).1
  = Connection.joinedRoom c.
Proof.
  destruct m; simpl; try done; intros _;
    by destruct (Connection.joinedRoom c) eqn:Hjr.
Qed.

Lemma on_messages_other ms c rooms nm :
  Forall (λ m, Connection.is_join m = false) ms →
  Connection.joinedRoom c ≠ Some nm →
  Connection.joinedRoom (Connection.on_messages ms c rooms).1
  = Connection.joinedRoom c
  ∧ (Connection.on_messages ms c rooms).2 !! nm = rooms !! nm.
Proof.
  unfold Connection.on_messages. intros Hms. revert c rooms.
  induction Hms as [|m ms Hm _ IH]; intros c rooms Hne; simpl; [done|].
  destruct (Connection.on_message m c rooms) as [c1 rooms1] eqn:Hstep.
  pose proof (on_message_joinedRoom m c rooms Hm) as Hjr.
  pose proof (on_message_other m c rooms nm) as Hother.
  rewrite Hstep in Hjr, Hother. simpl in *.
  destruct (IH c1 rooms1) as [IH1 IH2]; [congruence|].
  split; [congruence|]. rewrite IH2. apply Hother. congruence.
Qed.

Lemma on_message_request m c rooms jr r req :
  Connection.joinedRoom c = Some jr → rooms !! jr = Some r →
  Connection.to_request m = Some req →
  (Connection.on_message m c rooms).2 !! jr
  = Some (Connection.with_state (handle req) r).
Proof.
  intros Hjr Hr Hreq.
  assert (∀ f, Connection.in_room jr f rooms !! jr = Some (f r)) as Hin.
  { intros f. rewrite (proj1 (in_room_lookup _ _ _)).
    unfold Rooms.ensure. by rewrite Hr. }
  destruct m; simpl in *; try done; rewrite Hjr; simpl; rewrite Hin;
    by inversion Hreq.
Qed.

(** X8.  A connection acts on the room it has joined and on no other: a
    message leaves every room untouched except the room joined when the
    message has been served; before a join every message other than
    [join] leaves the connection and all rooms as they are; and a message
    that calls the drawing state replaces the log of the joined room by
    the result of that call and keeps its users. *)
Theorem connection_acts_on_joined_room m c rooms :
  (∀ nm,
     Connection.joinedRoom (Connection.on_message m c rooms).1 ≠ Some nm →
     (Connection.on_message m c rooms).2 !! nm = rooms !! nm)
  ∧ (Connection.joinedRoom c = None → Connection.is_join m = false →
     Connection.on_message m c rooms = (c, rooms))
  ∧ (∀ jr r req,
       Connection.joinedRoom c = Some jr → rooms !! jr = Some r →
       Connection.to_request m = Some req →
       (Connection.on_message m c rooms).2 !! jr
       = Some (Rooms.mkRoom (Rooms.name r) (Rooms.users r)
                            (handle req (Rooms.state r)))).
Proof.
  split; [intros nm; apply on_message_other|]. split.
  - intros Hnone Hm. destruct m; simpl in *; try done; by rewrite Hnone.
  - intros jr r req Hjr Hr Hreq. by apply on_message_request.
Qed.

(** X9.  A connection that joins a second room is not removed from the
    first one: after [join] for one room and [join] for another room, the
    socket is still among the users of the first room, and it stays there
    whatever the connection sends next short of a further [join], its
    [disconnect] included, which removes it from the second room only. *)
Theorem second_join_leaves_first_room c rooms a b uid uid' col col' ms :
  Connection.str_or a "lobby" ≠ Connection.str_or b "lobby" →
  Forall (λ m, Connection.is_join m = false) ms →
  ∃ r,
    (Connection.on_messages
       (Connection.join a uid col :: Connection.join b uid' col'
        :: ms ++ [Connection.disconnect]) c rooms).2
      !! Connection.str_or a "lobby" = Some r
    ∧ Connection.socket_id c ∈ Rooms.sockets r.
Proof.
  intros Hab Hms. unfold Connection.on_messages. simpl.
  set (ra := Connection.str_or a "lobby") in *.
  set (rb := Connection.str_or b "lobby") in *.
  set (u := Rooms.mkUser uid (Connection.socket_id c)
                         (Connection.str_or col "#000")).
  set (rooms1 := Connection.in_room ra (Rooms.addUser u) rooms).
  set (c2 := Connection.mkConn _ (Some rb) _ _).
  set (rooms2 := Connection.in_room rb _ rooms1).
  destruct (on_messages_other (ms ++ [Connection.disconnect]) c2 rooms2 ra)
    as [_ Hsame].
  { apply Forall_app. split; [done|]. by apply Forall_singleton. }
  { simpl. congruence. }
  unfold Connection.on_messages in Hsame. rewrite Hsame.
  unfold rooms2. rewrite (proj2 (in_room_lookup _ _ _)) by done.
  unfold rooms1. rewrite (proj1 (in_room_lookup _ _ _)).
  eexists. split; [done|].
  unfold Rooms.sockets, Rooms.addUser. simpl.
  apply (list_elem_of_fmap_2 fst _ (Rooms.socketId u, u)).
  apply map_set_elem.
Qed.

(** * Further properties of the client *)

(** ** The stroke being drawn *)

Lemma alloc_list_lookup os h ls h' l o :
  alloc_list os h = (ls, h') → h !! l = Some o → h' !! l = Some o.
Proof.
  revert h ls h'. induction os as [|o' os IH]; intros h ls h'.
  { by intros [= <- <-]. }
  change (alloc_list (o' :: os) h)
    with (let (l, h1) := alloc o' h in
          let (ls, h2) := alloc_list os h1 in (l :: ls, h2)).
  unfold alloc.
  destruct (alloc_list os (<[fresh (dom h) := o']> h)) as [ls' h2] eqn:Hl.
  intros [= <- <-] Ho. eapply IH; [exact Hl|].
  rewrite lookup_insert_ne; [done|]. intros Heq.
  pose proof (is_fresh (dom h)) as Hfresh. rewrite Heq in Hfresh.
  apply Hfresh. by apply elem_of_dom.
Qed.

Lemma foldl_lookup_other (f : gmap loc Op → loc → gmap loc Op) h ls a :
  (∀ h l, a ≠ l → f h l !! a = h !! a) →
  a ∉ ls → foldl f h ls !! a = h !! a.
Proof.
  intros Hf. revert h. induction ls as [|l ls IH]; intros h Ha; simpl.
  - done.
  - apply not_elem_of_cons in Ha as [Hne Ha]. rewrite IH by done.
    by apply Hf.
Qed.

Lemma restore_points_lookup_other c h l a :
  a ≠ l → restore_points c h l !! a = h !! a.
Proof.
  intros Hne. unfold restore_points.
  destruct (committedStrokeCoordinates c !! id (h !!! l)); [|done].
  by rewrite lookup_alter_ne.
Qed.

Section drawing.
Context (a : loc) (o : Op).

Lemma Drawing_active_is c j :
  Drawing a o c → active_is c j = bool_decide (id o = j).
Proof.
  intros (_ & Ha & Ho & _). unfold active_is.
  by rewrite Ha, (lookup_total_correct _ _ _ Ho).
Qed.

Lemma Drawing_set_heap c f l :
  Drawing a o c → l ≠ a → Drawing a o (set_heap (alter f l (heap c)) c).
Proof.
  intros (Hdown & Ha & Ho & Hid) Hne. repeat split; try done.
  simpl. by rewrite lookup_alter_ne.
Qed.

Lemma Drawing_find_stroke c j l :
  Drawing a o c → id o ≠ j → find_stroke (heap c) j (strokes c) = Some l →
  l ≠ a.
Proof.
  intros (_ & _ & Ho & _) Hne [_ Hid]%find_stroke_Some ->.
  by rewrite (lookup_total_correct _ _ _ Ho) in Hid.
Qed.

Lemma Drawing_render_step rect c c' :
  render_step rect c c' → Drawing a o c → Drawing a o c'.
Proof.
  intros Hstep HD. destruct Hstep as [c l sp Hid Hsp|c j sz' np Hj Hsz' Hch].
  - apply Drawing_set_heap; [done|]. intros ->.
    destruct HD as (_ & _ & Ho & Hno).
    by rewrite (lookup_total_correct _ _ _ Ho) in Hid.
  - exact HD.
Qed.

Lemma Drawing_redrawAll rect c :
  Drawing a o c → Drawing a o (redrawAll rect c).
Proof. apply redrawAll_keeps. apply Drawing_render_step. Qed.

Lemma Drawing_onStrokeAppended rect s c :
  Drawing a o c → Drawing a o (onStrokeAppended rect s c).
Proof.
  intros HD. pose proof HD as (Hdown & Ha & Ho & Hid).
  unfold onStrokeAppended.
  destruct (is_committed c (id s)); [done|].
  rewrite (Drawing_active_is c (id s) HD), Hdown, andb_true_r.
  case_bool_decide as Hj; [done|]. simpl.
  destruct (find_stroke (heap c) (id s) (strokes c)) as [e|] eqn:Hfind.
  - case_bool_decide; [|done]. apply Drawing_set_heap; [done|].
    by eapply Drawing_find_stroke.
  - unfold alloc. simpl. repeat split; try done. simpl.
    rewrite lookup_insert_ne; [done|]. intros Heq.
    pose proof (is_fresh (dom (heap c))) as Hfresh. rewrite Heq in Hfresh.
    apply Hfresh. by apply elem_of_dom.
Qed.

Lemma Drawing_onStrokePatched j ps c :
  Drawing a o c → Drawing a o (onStrokePatched j ps c).
Proof.
  intros HD. pose proof HD as (Hdown & Ha & Ho & Hid).
  unfold onStrokePatched.
  destruct (is_committed c j); [done|].
  rewrite (Drawing_active_is c j HD), Hdown, andb_true_r.
  case_bool_decide as Hj; [done|]. simpl.
  destruct (find_stroke (heap c) j (strokes c)) as [l|] eqn:Hfind; [|done].
  case_bool_decide; [done|]. apply Drawing_set_heap; [done|].
  by eapply Drawing_find_stroke.
Qed.

Lemma Drawing_not_committed_stroke c (P : loc → Prop) `{∀ l, Decision (P l)} :
  Drawing a o c →
  (∀ l, P l → id (heap c !!! l) ∈ locallyCommittedStrokes c
              ∨ Some (id (heap c !!! l))
                ≠ (λ a, id (heap c !!! a)) <$> activeStroke c) →
  a ∉ filter P (strokes c).
Proof.
  intros (_ & Ha & Ho & Hid) HP [HPa _]%list_elem_of_filter.
  destruct (HP a HPa) as [Hin|Hne].
  - by rewrite (lookup_total_correct _ _ _ Ho) in Hin.
  - by rewrite Ha in Hne.
Qed.

Lemma Drawing_onInitialState rect list c :
  Drawing a o c → Drawing a o (onInitialState rect list c).
Proof.
  intros HD. pose proof HD as (Hdown & Ha & Ho & Hid).
  unfold onInitialState.
  destruct (alloc_list list (heap c)) as [refs h1] eqn:Hal.
  apply Drawing_redrawAll.
  repeat split; try done. simpl.
  rewrite foldl_lookup_other.
  - by eapply alloc_list_lookup.
  - intros h l Hne. by apply restore_points_lookup_other.
  - apply Drawing_not_committed_stroke; [done|]. auto.
Qed.

Lemma Drawing_onWholeStateReplaced rect list c :
  Drawing a o c → Drawing a o (onWholeStateReplaced rect list c).
Proof.
  intros HD. pose proof HD as (Hdown & Ha & Ho & Hid).
  unfold onWholeStateReplaced.
  destruct (alloc_list list (heap c)) as [refs h1] eqn:Hal.
  set (newStrokes := filter _ refs).
  set (ourCommittedStrokes := filter _ (strokes c)).
  set (h2 := foldl _ h1 ourCommittedStrokes).
  assert (h2 !! a = Some o) as Ho2.
  { unfold h2. rewrite foldl_lookup_other.
    - by eapply alloc_list_lookup.
    - intros h l Hne. case_decide; [|done].
      by apply restore_points_lookup_other.
    - apply Drawing_not_committed_stroke; [done|].
      intros l [?|[_ ?]]; auto. }
  rewrite Ha, Hdown. simpl.
  destruct (find_stroke h2 (id (h2 !!! a)) newStrokes);
    apply Drawing_redrawAll; by repeat split.
Qed.

Lemma Drawing_deliver rect e c :
  Drawing a o c → Drawing a o (deliver rect e c).
Proof.
  destruct e; simpl.
  - apply Drawing_onInitialState.
  - apply Drawing_onStrokeAppended.
  - apply Drawing_onStrokePatched.
  - apply Drawing_onWholeStateReplaced.
Qed.

Lemma Drawing_moveStroke p c :
  Drawing a o c → Drawing a (push_point p o) (moveStroke p c).
Proof.
  intros (Hdown & Ha & Ho & Hid). unfold moveStroke. rewrite Hdown, Ha.
  repeat split; try done. simpl. by rewrite lookup_alter_eq, Ho.
Qed.
End drawing.

Lemma set_points_points o : set_points (points o) o = o.
Proof. by destruct o. Qed.

Lemma set_points_set_points ps ps' o :
  set_points ps (set_points ps' o) = set_points ps o.
Proof. done. Qed.

(** X10.  A stroke that is being drawn is not touched by the network:
    while the pointer is down on a stroke whose id is not locally
    committed, whatever [state:init], [stroke:append], [stroke:patch] and
    [state:replace] events arrive between the moves of the pointer, the
    stroke stays the active one, the pointer stays down, and the stroke
    holds its points followed by the points of the moves, in their order,
    and every other property as it was. *)
Theorem drawing_not_interrupted a o c ins :
  Drawing a o c →
  Drawing a (set_points (points o ++ moved ins) o) (inputs ins c).
Proof.
  unfold inputs. revert o c.
  induction ins as [|i ins IH]; intros o c HD; simpl.
  { by rewrite app_nil_r, set_points_points. }
  destruct i as [p|rect e]; simpl.
  - apply (Drawing_moveStroke a o p) in HD. apply IH in HD.
    unfold push_point in HD. simpl in HD.
    by rewrite set_points_set_points, <-app_assoc in HD.
  - apply IH. by apply Drawing_deliver.
Qed.

(** ** The end of a stroke *)


(** * Persistence *)

(** ** The client timestamp of a stored operation *)

Lemma authored_stamp now1 now2 op : 0 < now2 → authored (stamp now1 now2 op).
Proof.
  intros Hnow. unfold authored, stamp, num_or. simpl.
  destruct (timestamp op) as [n|]; [case_decide|]; eexists; split; eauto; lia.
Qed.

Lemma stamp_authored now1 now2 o :
  authored o → timestamp (stamp now1 now2 o) = timestamp o.
Proof.
  intros (n & Hn & Hne). unfold stamp, num_or. simpl. rewrite Hn.
  by rewrite decide_False.
Qed.

Lemma Forall_authored_fmap l l' :
  timestamp <$> l = timestamp <$> l' → Forall authored l' → Forall authored l.
Proof.
  assert (∀ k, Forall authored k
               ↔ Forall (λ ts, ∃ n, ts = Some n ∧ n ≠ 0) (timestamp <$> k))
    as E.
  { intros k. by rewrite Forall_fmap. }
  intros Heq. by rewrite !E, Heq.
Qed.

Lemma authored_loadOps data st :
  Forall (λ rec, 0 < rec.1.1 ∧ 0 < rec.1.2) data →
  Forall authored (ops (loadOps data st)).
Proof.
  intros Hdata. rewrite loadOps_Permutation. apply Forall_fmap.
  eapply Forall_impl; [exact Hdata|]. intros rec [_ Hrec]. simpl.
  by apply authored_stamp.
Qed.

Lemma reachable_authored st : reachable st → Forall authored (ops st).
Proof.
  induction 1 as [|r st Hst IH Hr]; [constructor|].
  destruct r; simpl in *.
  - rewrite sort_Permutation. apply Forall_app. split; [done|].
    apply Forall_singleton. apply authored_stamp, Hr.
  - rewrite sort_Permutation. apply Forall_app. split; [done|].
    apply Forall_singleton. apply authored_stamp, Hr.
  - eapply Forall_authored_fmap; [|exact IH]. by apply patchPoints_preserves.
  - done.
  - eapply Forall_authored_fmap; [|exact IH]. by apply globalUndo_preserves.
  - eapply Forall_authored_fmap; [|exact IH]. by apply globalRedo_preserves.
  - constructor.
  - by apply authored_loadOps.
Qed.

(** ** A reload of a saved log *)

Lemma StronglySorted_lookup_2 {A} (R : relation A) l :
  (∀ i j a b, (i < j)%nat → l !! i = Some a → l !! j = Some b → R a b) →
  StronglySorted R l.
Proof.
  induction l as [|x l IH]; intros H; constructor.
  - apply IH. intros i j a b Hij Hi Hj. apply (H (S i) (S j)); [lia|done..].
  - apply Forall_forall. intros b [j Hj]%list_elem_of_lookup_1.
    apply (H 0%nat (S j) x b); [lia|done..].
Qed.

Lemma restamped_lookup now l k o' :
  restamped now l !! k = Some o' →
  ∃ o, l !! k = Some o ∧ o' = stamp (now k).1 (now k).2 o.
Proof.
  unfold restamped. rewrite list_lookup_imap.
  intros (o & Ho & ->)%fmap_Some. eauto.
Qed.

Lemma loadOps_restamped now l st :
  ops (loadOps (imap (λ k op, ((now k).1, (now k).2, op)) l) st)
  ≡ₚ restamped now l.
Proof.
  rewrite loadOps_Permutation, fmap_imap. unfold restamped.
  by erewrite imap_ext.
Qed.

Lemma authoredAt_distinct l i j a b :
  NoDup (authoredAt <$> l) → l !! i = Some a → l !! j = Some b →
  authoredAt a = authoredAt b → i = j.
Proof.
  intros Hnd Hi Hj Hab.
  apply (NoDup_lookup (authoredAt <$> l) i j (authoredAt a)); [done|..].
  - by rewrite list_lookup_fmap, Hi.
  - by rewrite list_lookup_fmap, Hj, Hab.
Qed.

Lemma loadOps_same_order now l st :
  (∀ k, 0 < (now k).1 ∧ 0 < (now k).2) →
  log_ok l → Forall authored l → NoDup (authoredAt <$> l) →
  ops (loadOps (imap (λ k op, ((now k).1, (now k).2, op)) l) st)
  = restamped now l.
Proof.
  intros Hnow [_ Hsorted] Hauth Hnd. symmetry.
  assert (∀ k o, l !! k = Some o →
            authoredAt (stamp (now k).1 (now k).2 o) = authoredAt o) as Hat.
  { intros k o Ho. unfold authoredAt. rewrite stamp_authored; [done|].
    rewrite Forall_forall in Hauth. apply Hauth.
    by eapply list_elem_of_lookup_2. }
  apply (StronglySorted_unique_strong key_le).
  - intros a' b' [i Hi]%list_elem_of_lookup_1 Hb' Hab Hba.
    rewrite loadOps_restamped in Hb'.
    apply list_elem_of_lookup_1 in Hb' as [j Hj].
    apply restamped_lookup in Hi as (a & Ha & ->).
    apply restamped_lookup in Hj as (b & Hb & ->).
    destruct (key_le_antisym _ _ Hab Hba) as (Heq & _).
    rewrite (Hat i a), (Hat j b) in Heq by done.
    pose proof (authoredAt_distinct l i j a b Hnd Ha Hb Heq) as ->.
    congruence.
  - apply StronglySorted_lookup_2. intros i j a' b' Hij Hi Hj.
    apply restamped_lookup in Hi as (a & Ha & ->).
    apply restamped_lookup in Hj as (b & Hb & ->).
    left. left. rewrite (Hat i a), (Hat j b) by done.
    pose proof (StronglySorted_lookup_lt key_le l i j a b Hsorted Hij Ha Hb)
      as Hle.
    assert (authoredAt a ≠ authoredAt b) as Hne.
    { intros Heq.
      pose proof (authoredAt_distinct l i j a b Hnd Ha Hb Heq). lia. }
    destruct Hle as [[?|[? _]]|[? _]]; [done|done..].
  - apply log_ok_loadOps. apply Forall_lookup_2. intros k rec.
    rewrite list_lookup_imap. intros (o & _ & ->)%fmap_Some. apply Hnow.
  - symmetry. apply loadOps_restamped.
Qed.

Lemma str_or_nonempty s d : s ≠ EmptyString → Connection.str_or (Some s) d = s.
Proof. intros Hs. simpl. by rewrite decide_False. Qed.

(** The loop of [load] appends the records that come before the first
    [null]. *)
Lemma append_records_app now k pre tail st :
  Persistence.append_records now k ((Some <$> pre) ++ tail) st
  = Persistence.append_records now (k + length pre) tail
      (foldl (λ s rec, appendOp rec.1.1 rec.1.2 rec.2 s) st
         (imap (λ j op, ((now (k + j)%nat).1, (now (k + j)%nat).2, op)) pre)).
Proof.
  revert k st. induction pre as [|op pre IH]; intros k st.
  { simpl. by rewrite Nat.add_0_r. }
  rewrite fmap_cons. simpl. rewrite IH, Nat.add_0_r.
  replace (S k + length pre)%nat with (k + S (length pre))%nat by lia.
  do 2 f_equal. apply imap_ext. intros j o _. simpl.
  by replace (S (k + j))%nat with (k + S j)%nat by lia.
Qed.

Lemma append_records_all now l st :
  Persistence.append_records now 0 (Some <$> l) (clear st)
  = (loadOps (imap (λ k op, ((now k).1, (now k).2, op)) l) st, true).
Proof.
  rewrite <-(app_nil_r (Some <$> l)), append_records_app. done.
Qed.

Lemma append_records_null now pre rest st :
  Persistence.append_records now 0 ((Some <$> pre) ++ None :: rest) (clear st)
  = (loadOps (imap (λ k op, ((now k).1, (now k).2, op)) pre) st, false).
Proof. by rewrite append_records_app. Qed.

(** X12.  A load after a save restores the saved log: the room that loads
    gets the saved operations, each stamped anew (tombstone cleared,
    server timestamp replaced by the clock of the reload, client timestamp
    kept), the count of the response is their number, and when the client
    timestamps of the saved log are pairwise distinct the operations stand
    in the order they were saved in.  The file is found under the
    sanitized name: the room that loads need not be the room that saved,
    it is enough that the two names are sanitized to the same string. *)
Theorem save_then_load n m now s r :
  n ≠ EmptyString → m ≠ EmptyString →
  Persistence.sanitize n = Persistence.sanitize m →
  Persistence.rooms s !! n = Some r → reachable (Rooms.state r) →
  (∀ k, 0 < (now k).1 ∧ 0 < (now k).2) →
  ∃ r',
    (Persistence.load m now (Persistence.save n s).2).1
    = Persistence.ok_count (length (ops (Rooms.state r)))
    ∧ Persistence.rooms (Persistence.load m now (Persistence.save n s).2).2
        !! m = Some r'
    ∧ ops (Rooms.state r') ≡ₚ restamped now (ops (Rooms.state r))
    ∧ timestamp <$> restamped now (ops (Rooms.state r))
      = timestamp <$> ops (Rooms.state r)
    ∧ (NoDup (authoredAt <$> ops (Rooms.state r)) →
       ops (Rooms.state r') = restamped now (ops (Rooms.state r))).
Proof.
  intros Hn Hm Hnm Hr Hst Hnow.
  assert (Persistence.save n s
          = (Persistence.ok,
             Persistence.mkStore (Persistence.rooms s)
               (<[Persistence.roomFile n :=
                    Persistence.saved_ops (Some <$> ops (Rooms.state r))]>
                  (Persistence.files s)))) as ->.
  { unfold Persistence.save. rewrite str_or_nonempty by done.
    unfold Rooms.ensure. by rewrite Hr. }
  unfold Persistence.load. rewrite str_or_nonempty by done. simpl.
  destruct (Rooms.ensure m (Persistence.rooms s)) as [rm rooms1].
  unfold Persistence.roomFile. rewrite Hnm, lookup_insert_eq.
  rewrite append_records_all. simpl.
  eexists. split; [|split; [apply lookup_insert_eq|]]; simpl.
  - f_equal. rewrite loadOps_restamped. apply length_imap.
  - split; [apply loadOps_restamped|]. split.
    + unfold restamped. rewrite fmap_imap.
      apply list_eq. intros k. rewrite list_lookup_imap, list_lookup_fmap.
      destruct (ops (Rooms.state r) !! k) as [o|] eqn:Hk; [|done]. simpl.
      change (Some (timestamp (stamp (now k).1 (now k).2 o))
              = Some (timestamp o)).
      rewrite stamp_authored; [done|].
      pose proof (reachable_authored _ Hst) as Hauth.
      rewrite Forall_forall in Hauth. apply Hauth.
      by eapply list_elem_of_lookup_2.
    + intros Hnd. apply loadOps_same_order; try done.
      * by apply reachable_log_ok.
      * by apply reachable_authored.
Qed.

(** ** The name of the file of a room *)

Lemma all_safe_sanitize s : Persistence.all_safe (Persistence.sanitize s) = true.
Proof.
  induction s as [|a s IH]; simpl; [done|].
  destruct (Persistence.safe_char a) eqn:Ha; by rewrite ?Ha, IH.
Qed.

Lemma sanitize_length s :
  String.length (Persistence.sanitize s) = String.length s.
Proof. induction s as [|a s IH]; simpl; [done|]. by rewrite IH. Qed.

Lemma sanitize_all_safe s :
  Persistence.all_safe s = true → Persistence.sanitize s = s.
Proof.
  induction s as [|a s IH]; simpl; [done|].
  intros [Ha Hs]%andb_true_iff. by rewrite Ha, IH.
Qed.

Lemma append_length s t :
  String.length (String.append s t) = (String.length s + String.length t)%nat.
Proof. induction s as [|a s IH]; simpl; [done|]. by rewrite IH. Qed.

Lemma append_inj_r s1 s2 t :
  String.append s1 t = String.append s2 t → s1 = s2.
Proof.
  revert s2. induction s1 as [|a s1 IH]; intros [|b s2] H.
  - done.
  - apply (f_equal String.length) in H.
    rewrite !append_length in H. simpl in H. lia.
  - apply (f_equal String.length) in H.
    rewrite !append_length in H. simpl in H. lia.
  - change (String a (String.append s1 t) = String b (String.append s2 t))
      in H.
    injection H as -> H. f_equal. by apply IH.
Qed.

(** X13.  The file name of a room is made of the characters
    [a-z A-Z 0-9 _ -] followed by [.json], one character per character of
    the room name, so it never leaves the data directory; a name made of
    these characters is kept as it is; and two rooms have the same file
    exactly when their names are the same after every other character is
    replaced by an underscore. *)
Theorem roomFile_names n m :
  Persistence.all_safe (Persistence.sanitize n) = true
  ∧ String.length (Persistence.sanitize n) = String.length n
  ∧ (Persistence.all_safe n = true → Persistence.sanitize n = n)
  ∧ Persistence.roomFile (Persistence.sanitize n) = Persistence.roomFile n
  ∧ (Persistence.roomFile n = Persistence.roomFile m
     ↔ Persistence.sanitize n = Persistence.sanitize m).
Proof.
  split; [apply all_safe_sanitize|]. split; [apply sanitize_length|].
  split; [apply sanitize_all_safe|]. unfold Persistence.roomFile. split.
  - by rewrite (sanitize_all_safe _ (all_safe_sanitize n)).
  - split; [apply append_inj_r|by intros ->].
Qed.

(** ** What the routes leave alone *)

Lemma ensure_keeps nm (rooms : gmap string Rooms.Room) nm' r :
  rooms !! nm' = Some r → (Rooms.ensure nm rooms).2 !! nm' = Some r.
Proof.
  intros Hr. unfold Rooms.ensure.
  destruct (rooms !! nm) as [r0|] eqn:Hnm; simpl; [done|].
  rewrite lookup_insert_ne; [done|]. congruence.
Qed.

(** X14.  [save] answers [ok], changes no room that exists and no file but
    the file of the room, into which it writes the log of the room (the
    empty log when the room did not exist before).  [load] never writes a
    file and changes no other room that exists.  When the file of the
    room is missing, cannot be parsed or holds no array of records, it
    answers with an error status and changes no room that exists.  When
    the array holds a record that is not an operation, it answers with
    the status 500 after it has cleared the room: the room is left with
    the records that come before that one, stamped anew, and with an
    empty redo stack, whatever it held before. *)
Theorem persistence_frame room now s :
  let roomName := Connection.str_or (Some room) "lobby" in
  (Persistence.save room s).1 = Persistence.ok
  ∧ (∀ nm r, Persistence.rooms s !! nm = Some r →
       Persistence.rooms (Persistence.save room s).2 !! nm = Some r)
  ∧ (∀ f, f ≠ Persistence.roomFile roomName →
       Persistence.files (Persistence.save room s).2 !! f
       = Persistence.files s !! f)
  ∧ Persistence.files (Persistence.save room s).2
      !! Persistence.roomFile roomName
    = Some (Persistence.saved_ops
              (Some <$> from_option (λ r, ops (Rooms.state r)) []
                          (Persistence.rooms s !! roomName)))
  ∧ Persistence.files (Persistence.load room now s).2 = Persistence.files s
  ∧ (∀ nm r, nm ≠ roomName → Persistence.rooms s !! nm = Some r →
       Persistence.rooms (Persistence.load room now s).2 !! nm = Some r)
  ∧ ((∀ data,
        Persistence.files s !! Persistence.roomFile roomName
        ≠ Some (Persistence.saved_ops data)) →
     (∃ status error,
        (Persistence.load room now s).1 = Persistence.failed status error
        ∧ 400 ≤ status)
     ∧ ∀ nm r, Persistence.rooms s !! nm = Some r →
         Persistence.rooms (Persistence.load room now s).2 !! nm = Some r)
  ∧ (∀ pre rest,
       Persistence.files s !! Persistence.roomFile roomName
       = Some (Persistence.saved_ops ((Some <$> pre) ++ None :: rest)) →
       (Persistence.load room now s).1
       = Persistence.failed 500 "load_failed"
       ∧ ∃ r', Persistence.rooms (Persistence.load room now s).2 !! roomName
               = Some r'
               ∧ ops (Rooms.state r') ≡ₚ restamped now pre
               ∧ redoStack (Rooms.state r') = []).
Proof.
  intros roomName. unfold Persistence.save, Persistence.load. fold roomName.
  pose proof (ensure_keeps roomName (Persistence.rooms s)) as Hkeep.
  assert (ops (Rooms.state (Rooms.ensure roomName (Persistence.rooms s)).1)
          = from_option (λ r, ops (Rooms.state r)) []
              (Persistence.rooms s !! roomName)) as Hops.
  { unfold Rooms.ensure. by destruct (Persistence.rooms s !! roomName). }
  destruct (Rooms.ensure roomName (Persistence.rooms s)) as [r rooms1].
  simpl in *. split; [done|]. split; [done|]. split.
  { intros f Hf. by rewrite lookup_insert_ne. }
  split; [by rewrite lookup_insert_eq, Hops|]. split.
  { destruct (Persistence.files s !! Persistence.roomFile roomName)
      as [[data| |]|]; try done.
    by destruct (Persistence.append_records now 0 data _). }
  split.
  { intros nm r0 Hne Hr0.
    destruct (Persistence.files s !! Persistence.roomFile roomName)
      as [[data| |]|]; simpl; auto.
    destruct (Persistence.append_records now 0 data _). simpl.
    rewrite lookup_insert_ne by done. auto. }
  split.
  - intros Hnone.
    destruct (Persistence.files s !! Persistence.roomFile roomName)
      as [[data| |]|] eqn:Hfile; simpl.
    + by destruct (Hnone data).
    + split; [|done]. eexists _, _. split; [done|lia].
    + split; [|done]. eexists _, _. split; [done|lia].
    + split; [|done]. eexists _, _. split; [done|lia].
  - intros pre rest ->. rewrite append_records_null. simpl.
    split; [done|]. eexists. split; [apply lookup_insert_eq|]. simpl.
    split; [apply loadOps_restamped|].
    unfold loadOps.
    generalize (imap (λ k op, ((now k).1, (now k).2, op)) pre).
    intros l. induction l as [|x l IH] using rev_ind; [done|].
    by rewrite foldl_app.
Qed.

(** * The socket module of the client *)

(** ** The colour of a user *)

Lemma toInt32_range z : - 2 ^ 31 ≤ Socket.toInt32 z < 2 ^ 31.
Proof.
  unfold Socket.toInt32.
  change (2 ^ 32) with 4294967296. change (2 ^ 31) with 2147483648.
  pose proof (Z.mod_pos_bound (z + 2147483648) 4294967296). lia.
Qed.

Lemma toInt32_step h c :
  Socket.toInt32 (Socket.toInt32 h * 31 + c) = Socket.toInt32 (h * 31 + c).
Proof.
  unfold Socket.toInt32.
  change (2 ^ 32) with 4294967296. change (2 ^ 31) with 2147483648.
  f_equal. rewrite (Z.mod_eq (h + 2147483648) 4294967296) by lia.
  set (q := (h + 2147483648) / 4294967296).
  replace ((h + 2147483648 - 4294967296 * q - 2147483648) * 31 + c
           + 2147483648)
    with (h * 31 + c + 2147483648 + (- (31 * q)) * 4294967296) by lia.
  apply Z_mod_plus_full.
Qed.

Lemma hash_from_range h id :
  - 2 ^ 31 ≤ h < 2 ^ 31 → - 2 ^ 31 ≤ Socket.hash_from h id < 2 ^ 31.
Proof.
  revert h. induction id as [|a id IH]; intros h Hh; simpl; [done|].
  apply IH, toInt32_range.
Qed.

Lemma hash_from_poly h id :
  Socket.hash_from (Socket.toInt32 h) id
  = Socket.toInt32 (Socket.poly_from h id).
Proof.
  revert h. induction id as [|a id IH]; intros h; simpl; [done|].
  by rewrite toInt32_step, IH.
Qed.

(** X15.  The hash of [randomColorFromId] stays a signed 32-bit integer
    whatever the length of the id, and it is the polynomial
    [c0 * 31^(n-1) + ... + c(n-1)] of the code units converted once at the
    end; the hue is a number from 0 to 359; two ids whose polynomials
    agree after the conversion get the same colour. *)
Theorem randomColorFromId_hue id id' :
  - 2 ^ 31 ≤ Socket.hash_from 0 id < 2 ^ 31
  ∧ Socket.hash_from 0 id = Socket.toInt32 (Socket.poly_from 0 id)
  ∧ 0 ≤ Socket.hue id < 360
  ∧ (Socket.toInt32 (Socket.poly_from 0 id)
     = Socket.toInt32 (Socket.poly_from 0 id') →
     Socket.randomColorFromId id = Socket.randomColorFromId id').
Proof.
  assert (∀ s, Socket.hash_from 0 s = Socket.toInt32 (Socket.poly_from 0 s))
    as Hpoly.
  { intros s. by rewrite <-hash_from_poly. }
  split; [by apply hash_from_range|]. split; [apply Hpoly|]. split.
  - unfold Socket.hue. apply Z.mod_pos_bound. lia.
  - intros Heq. unfold Socket.randomColorFromId, Socket.hue.
    by rewrite !Hpoly, Heq.
Qed.

(** ** Joining the room *)

Lemma call_bound cb j :
  (Socket.emitted (Socket.call cb j)
   + (if Socket.hasJoined (Socket.call cb j) then 0 else 1)
   ≤ Socket.emitted j + (if Socket.hasJoined j then 0 else 1)
     + (if Socket.is_reset cb then 1 else 0))%nat.
Proof.
  destruct cb as [| | |[]], j as [[] n]; simpl; lia.
Qed.

Lemma calls_bound cbs j :
  (Socket.emitted (Socket.calls cbs j)
   + (if Socket.hasJoined (Socket.calls cbs j) then 0 else 1)
   ≤ Socket.emitted j + (if Socket.hasJoined j then 0 else 1)
     + length (filter (λ cb, Socket.is_reset cb = true) cbs))%nat.
Proof.
  unfold Socket.calls. revert j.
  induction cbs as [|cb cbs IH]; intros j; simpl; [lia|].
  specialize (IH (Socket.call cb j)). pose proof (call_bound cb j) as Hcb.
  rewrite filter_cons. destruct (Socket.is_reset cb).
  - rewrite decide_True by done. simpl. lia.
  - rewrite decide_False by done. lia.
Qed.

(** X16.  The client emits at most one [join] per reset of [hasJoined]:
    over any sequence of [connect], [disconnect] and [connect_error]
    events and of [joinRoom] calls by the timers, the number of [join]
    messages emitted is at most the number of these events, plus one if
    the client had not joined at the start; and once joined, any number
    of [joinRoom] calls with no such event in between emits nothing. *)
Theorem join_once_per_reset cbs j :
  (Socket.emitted (Socket.calls cbs j)
   ≤ Socket.emitted j + (if Socket.hasJoined j then 0 else 1)
     + length (filter (λ cb, Socket.is_reset cb = true) cbs))%nat
  ∧ (Socket.hasJoined j = true →
     Forall (λ cb, Socket.is_reset cb = false) cbs →
     Socket.calls cbs j = j).
Proof.
  split.
  - pose proof (calls_bound cbs j). lia.
  - intros Hj Hcbs. unfold Socket.calls.
    induction Hcbs as [|cb cbs Hcb _ IH]; simpl; [done|].
    destruct cb as [| | |connected]; try discriminate Hcb. simpl.
    by rewrite Hj, andb_false_r.
Qed.

(** * Smoothing *)

Lemma smoothPoints_lookup ps i :
  (2 < length ps)%nat → (i < length ps)%nat →
  Smoothing.smoothPoints ps !! i
  = Some (if decide (i = 0 ∨ i = length ps - 1)%nat then ps !!! i
          else Smoothing.smoothed_at ps i).
Proof.
  intros Hlen Hi. unfold Smoothing.smoothPoints.
  rewrite decide_False by lia.
  destruct (decide (i = 0%nat)) as [->|Hi0].
  { by rewrite decide_True by auto. }
  change ([ps !!! 0%nat] ++ ?l) with (ps !!! 0%nat :: l).
  destruct i as [|i]; [done|]. simpl.
  destruct (decide (S i = length ps - 1)%nat) as [Hlast|Hmid].
  - rewrite decide_True by auto.
    rewrite lookup_app_r; rewrite length_fmap, length_seq; [|lia].
    replace (i - (length ps - 2))%nat with 0%nat by lia. simpl.
    by rewrite Hlast.
  - rewrite decide_False by (intros [?|?]; done).
    rewrite lookup_app_l by (rewrite length_fmap, length_seq; lia).
    rewrite list_lookup_fmap, lookup_seq_lt by lia. done.
Qed.

Lemma smoothPoints_length ps :
  length (Smoothing.smoothPoints ps) = length ps.
Proof.
  unfold Smoothing.smoothPoints. case_decide; [done|].
  rewrite !length_app, length_fmap, length_seq. simpl. lia.
Qed.

Lemma smoothPoints_lookup_t ps i :
  Smoothing.t <$> (Smoothing.smoothPoints ps !! i)
  = Smoothing.t <$> (ps !! i).
Proof.
  destruct (decide (length ps ≤ 2)%nat) as [Hle|Hgt].
  { unfold Smoothing.smoothPoints. by rewrite decide_True. }
  destruct (decide (i < length ps)%nat) as [Hi|Hi].
  - rewrite smoothPoints_lookup by lia.
    destruct (lookup_lt_is_Some_2 ps i Hi) as [p Hp].
    rewrite Hp. simpl. rewrite (list_lookup_total_correct _ _ _ Hp).
    case_decide; [done|]. unfold Smoothing.smoothed_at. simpl.
    by rewrite (list_lookup_total_correct _ _ _ Hp).
  - rewrite !lookup_ge_None_2; [done|lia|].
    rewrite smoothPoints_length. lia.
Qed.

(** X17.  [smoothPoints] keeps the number of points and the time of every
    point; a stroke of at most two points is returned as it is; in a
    longer one the first and the last point are kept and every point in
    between is replaced by the weighted mean of the captured point and
    its two captured neighbours (not of points already smoothed), with
    the weights 0.25, 0.5 and 0.25, computed in floating-point arithmetic
    from left to right. *)
Theorem smoothPoints_shape ps :
  length (Smoothing.smoothPoints ps) = length ps
  ∧ Smoothing.t <$> Smoothing.smoothPoints ps = Smoothing.t <$> ps
  ∧ head (Smoothing.smoothPoints ps) = head ps
  ∧ last (Smoothing.smoothPoints ps) = last ps
  ∧ ((length ps ≤ 2)%nat → Smoothing.smoothPoints ps = ps)
  ∧ (∀ i prev curr next,
       ps !! i = Some prev → ps !! S i = Some curr →
       ps !! S (S i) = Some next →
       Smoothing.smoothPoints ps !! S i
       = Some (Smoothing.mkPoint
                 (Smoothing.x prev * 0.25 + Smoothing.x curr * 0.5
                  + Smoothing.x next * 0.25)%float
                 (Smoothing.y prev * 0.25 + Smoothing.y curr * 0.5
                  + Smoothing.y next * 0.25)%float
                 (Smoothing.t curr))).
Proof.
  split; [apply smoothPoints_length|]. split.
  { apply list_eq. intros i. rewrite !list_lookup_fmap.
    apply smoothPoints_lookup_t. }
  destruct (decide (length ps ≤ 2)%nat) as [Hle|Hgt].
  { unfold Smoothing.smoothPoints. rewrite decide_True by done.
    repeat split; try done. intros i prev curr next _ _ Hn.
    apply lookup_lt_Some in Hn. lia. }
  split; [|split; [|split; [lia|]]].
  - rewrite !head_lookup, smoothPoints_lookup by lia.
    rewrite decide_True by auto.
    destruct ps as [|p ps]; [simpl in *; lia|done].
  - rewrite !last_lookup, smoothPoints_length, smoothPoints_lookup by lia.
    rewrite decide_True by lia.
    destruct (lookup_lt_is_Some_2 ps (pred (length ps))) as [p Hp]; [lia|].
    by rewrite Hp, (list_lookup_total_correct _ _ _ Hp).
  - intros i prev curr next Hp Hc Hn.
    pose proof (lookup_lt_Some _ _ _ Hn) as Hlt.
    rewrite smoothPoints_lookup by lia.
    rewrite decide_False by lia. unfold Smoothing.smoothed_at.
    replace (S i - 1)%nat with i by lia.
    replace (S i + 1)%nat with (S (S i)) by lia.
    by rewrite (list_lookup_total_correct _ _ _ Hp),
      (list_lookup_total_correct _ _ _ Hc),
      (list_lookup_total_correct _ _ _ Hn).
Qed.

(** * The replica of a client that only watches *)

Lemma filter_fmap_pred {A B} (f : A → B) (P : B → Prop) (Q : A → Prop)
    `{!∀ x, Decision (P x), !∀ x, Decision (Q x)} (l : list A) :
  (∀ a, Q a ↔ P (f a)) → f <$> filter Q l = filter P (f <$> l).
Proof.
  intros HPQ. induction l as [|a l IH]; [done|].
  rewrite fmap_cons. destruct (decide (Q a)) as [Ha|Ha].
  - rewrite !filter_cons_True by (done || by apply HPQ).
    by rewrite fmap_cons, IH.
  - rewrite !filter_cons_False by (done || by rewrite <-HPQ). done.
Qed.

Lemma filter_none {A} (P : A → Prop) `{!∀ x, Decision (P x)} (l : list A) :
  Forall (λ a, ¬ P a) l → filter P l = [].
Proof.
  induction 1 as [|a l Ha _ IH]; [done|]. by rewrite filter_cons_False.
Qed.

Lemma filter_all {A} (P : A → Prop) `{!∀ x, Decision (P x)} (l : list A) :
  Forall P l → filter P l = l.
Proof.
  induction 1 as [|a l Ha _ IH]; [done|]. by rewrite filter_cons_True, IH.
Qed.

Lemma insert_sorted_fmap {A B} (f : A → B) (cmp : B → B → Z) a l :
  f <$> insert_sorted (λ a b, cmp (f a) (f b)) a l
  = insert_sorted cmp (f a) (f <$> l).
Proof.
  induction l as [|b l IH]; [done|].
  rewrite fmap_cons. simpl insert_sorted.
  case_decide; [done|]. by rewrite fmap_cons, IH.
Qed.

Lemma sort_fmap {A B} (f : A → B) (cmp : B → B → Z) l :
  f <$> sort (λ a b, cmp (f a) (f b)) l = sort cmp (f <$> l).
Proof.
  induction l as [|a l IH]; [done|].
  change (f <$> insert_sorted (λ a b, cmp (f a) (f b)) a
                  (sort (λ a b, cmp (f a) (f b)) l)
          = insert_sorted cmp (f a) (sort cmp (f <$> l))).
  by rewrite insert_sorted_fmap, IH.
Qed.

Lemma log_ok_filter (P : Op → Prop) `{!∀ x, Decision (P x)} l :
  log_ok l → log_ok (filter P l).
Proof.
  intros [Hl Hs]. split.
  { apply Forall_forall. intros o [_ Ho]%list_elem_of_filter.
    rewrite Forall_forall in Hl. auto. }
  clear Hl. induction Hs as [|a l Hs IH Ha]; [constructor|].
  rewrite filter_cons. case_decide; [|done]. constructor; [done|].
  apply Forall_forall. intros o [_ Ho]%list_elem_of_filter.
  rewrite Forall_forall in Ha. auto.
Qed.

Lemma alloc_list_objects os h ls h' :
  alloc_list os h = (ls, h') → (λ l, h' !!! l) <$> ls = os.
Proof.
  revert h ls h'. induction os as [|o os IH]; intros h ls h'.
  { by intros [= <- <-]. }
  change (alloc_list (o :: os) h)
    with (let (l, h1) := alloc o h in
          let (ls, h2) := alloc_list os h1 in (l :: ls, h2)).
  unfold alloc.
  destruct (alloc_list os (<[fresh (dom h) := o]> h)) as [ls' h2] eqn:Hl.
  intros [= <- <-]. rewrite fmap_cons. f_equal; [|by eapply IH].
  apply lookup_total_correct. eapply alloc_list_lookup; [exact Hl|].
  apply lookup_insert_eq.
Qed.

Lemma stroke_objects_sorted h refs sh a c (P : Op → Prop)
    `{!∀ x, Decision (P x)} l :
  log_ok l → (λ r, h !!! r) <$> refs = filter P l →
  stroke_objects (update h (sort_refs h refs) sh a c) = filter P l.
Proof.
  intros Hl Hrefs. unfold stroke_objects, sort_refs. simpl.
  rewrite (sort_fmap (λ r, h !!! r) sorter), Hrefs.
  by apply sort_sorter_id, log_ok_filter.
Qed.

Lemma onInitialState_objects rect l c :
  log_ok l → locallyCommittedStrokes c = ∅ →
  stroke_objects (onInitialState rect l c) = filter (λ o, type o = stroke) l.
Proof.
  intros Hok Hempty. unfold onInitialState.
  destruct (alloc_list l (heap c)) as [refs h1] eqn:Hal.
  rewrite redrawAll_uncommitted by exact Hempty.
  apply alloc_list_objects in Hal. rewrite Hempty.
  rewrite (filter_none _ (strokes c))
    by (apply Forall_forall; intros r _; apply not_elem_of_empty).
  simpl. rewrite app_nil_r.
  rewrite filter_all
    by (apply Forall_forall; intros r _; apply not_elem_of_empty).
  apply stroke_objects_sorted; [done|].
  rewrite <-Hal. by apply filter_fmap_pred.
Qed.


(** * The relay between the clients *)

(** ** A client that was there and a client that joins later *)

Lemma onStrokeAppended_new rect s c :
  (∀ l, l ∈ strokes c → is_Some (heap c !! l)) →
  locallyCommittedStrokes c = ∅ → activeStroke c = None →
  id s ∉ id <$> stroke_objects c →
  stroke_objects (onStrokeAppended rect s c)
  = sort sorter (stroke_objects c ++ [s])
  ∧ (∀ l, l ∈ strokes (onStrokeAppended rect s c) →
       is_Some (heap (onStrokeAppended rect s c) !! l))
  ∧ locallyCommittedStrokes (onStrokeAppended rect s c) = ∅
  ∧ activeStroke (onStrokeAppended rect s c) = None.
Proof.
  intros Hwf Hempty Hact Hnew. unfold onStrokeAppended, is_committed, active_is.
  rewrite Hact. cbv beta zeta iota.
  assert (∀ (b : bool) (x : Controller), (if b then x else x) = x) as Hif
    by (by intros []).
  unfold alloc. rewrite redrawAll_uncommitted by exact Hempty.
  rewrite Hif, Hempty.
  rewrite bool_decide_eq_false_2 by set_solver. simpl.
  destruct (find_stroke (heap c) (id s) (strokes c)) as [e|] eqn:Hfind.
  { apply find_stroke_Some in Hfind as [He Hid]. destruct Hnew.
    rewrite <-Hid. unfold stroke_objects. rewrite <-list_fmap_compose.
    by apply (list_elem_of_fmap_2 (λ l, id (heap c !!! l))). }
  unfold alloc. set (l := fresh (dom (heap c))).
  set (h := <[l := s]> (heap c)).
  assert (heap c !! l = None) as Hfresh.
  { apply not_elem_of_dom, is_fresh. }
  assert (∀ r, r ∈ strokes c → h !!! r = heap c !!! r) as Hsame.
  { intros r Hr. unfold h. apply lookup_total_insert_ne.
    intros <-. destruct (Hwf _ Hr) as [? ?]. congruence. }
  split; [|split; [|done]].
  - unfold stroke_objects, sort_refs. simpl.
    rewrite (sort_fmap (λ r, h !!! r) sorter), fmap_app. simpl.
    unfold h at 2. rewrite lookup_total_insert_eq. do 2 f_equal.
    apply list_fmap_ext. intros k r Hr. apply Hsame.
    by eapply list_elem_of_lookup_2.
  - simpl. intros r Hr. unfold sort_refs in Hr.
    apply elem_of_sort, elem_of_app in Hr as [Hr|Hr].
    + destruct (Hwf r Hr) as [o Ho]. exists o. unfold h.
      rewrite lookup_insert_ne; [done|]. congruence.
    + apply list_elem_of_singleton in Hr as ->. exists s.
      apply lookup_insert_eq.
Qed.

Lemma two_appends a b na nb :
  timestamp a = timestamp b → authored a → na < nb →
  ops (appendOp nb nb b (appendOp na na a createDrawingState))
  = [stamp na na a; stamp nb nb b].
Proof.
  intros Hts Ha Hlt.
  change (ops (appendOp nb nb b (appendOp na na a createDrawingState)))
    with (insert_sorted compareOps (stamp na na a) [stamp nb nb b]).
  simpl. rewrite decide_True; [done|].
  assert (authored b) as Hb.
  { destruct Ha as (n & Hn & Hne). exists n. by rewrite <-Hts. }
  unfold compareOps.
  rewrite !stamp_authored, Hts by done. rewrite decide_False by auto.
  simpl. rewrite decide_True by (intros [=]; lia). lia.
Qed.

Lemma sorter_same_time a b :
  timestamp a = timestamp b → serverTimestamp a = None →
  serverTimestamp b = None → collates_before (userId b) (userId a) →
  sort sorter [a; b] = [b; a].
Proof.
  intros Hts Hsa Hsb Hlt.
  change (sort sorter [a; b]) with (insert_sorted sorter a [b]).
  simpl. rewrite decide_False; [done|].
  apply localeCompare_gt in Hlt. unfold sorter.
  rewrite Hts, Hsa, Hsb. simpl. rewrite !decide_False by auto. lia.
Qed.

(** X19.  The relay sends [stroke:append] with the operation as the client
    sent it, while the log holds the stamped copy.  So for two strokes
    with the same client timestamp, made by different users and received
    by the server at different times, a client that was in the room holds
    them in the order in which the collation puts the user ids, whereas
    the log, and with it every client that joins afterwards and gets
    [state:init], holds them in the order of their arrival at the
    server. *)
Theorem live_and_late_order a b na nb ca cb cc jr r rooms uid color c rect :
  Connection.joinedRoom ca = Some jr → Connection.joinedRoom cb = Some jr →
  jr ≠ EmptyString →
  rooms !! jr = Some r → Rooms.state r = createDrawingState →
  type a = stroke → type b = stroke → id a ≠ id b →
  timestamp a = timestamp b → authored a →
  serverTimestamp a = None → serverTimestamp b = None →
  collates_before (userId b) (userId a) →
  0 < na < nb →
  strokes c = [] → locallyCommittedStrokes c = ∅ → activeStroke c = None →
  let rooms1 :=
    (Connection.on_message (Connection.stroke_start na na a) ca rooms).2 in
  let rooms2 :=
    (Connection.on_message (Connection.stroke_start nb nb b) cb rooms1).2 in
  Relay.emits (Connection.stroke_start na na a) ca rooms
  = [(Relay.to_room jr, Relay.canvas (stroke_append a))]
  ∧ Relay.emits (Connection.stroke_start nb nb b) cb rooms1
    = [(Relay.to_room jr, Relay.canvas (stroke_append b))]
  ∧ stroke_objects
      (receive rect (Relay.canvas (stroke_append b))
         (receive rect (Relay.canvas (stroke_append a)) c))
    = [b; a]
  ∧ ∃ users,
      Relay.emits (Connection.join (Some jr) uid color) cc rooms2
      = [(Relay.to_socket,
          Relay.canvas (state_init [stamp na na a; stamp nb nb b]));
         (Relay.to_room jr, Relay.presence users)]
      ∧ stroke_objects
          (receive rect
             (Relay.canvas (state_init [stamp na na a; stamp nb nb b])) c)
        = [stamp na na a; stamp nb nb b].
Proof.
  intros Hca Hcb Hjr Hr Hst Hta Htb Hid Hts Ha Hsa Hsb Hlt Hnow
         Hstrokes Hempty Hact rooms1 rooms2.
  assert (rooms2 !! jr
          = Some (Rooms.mkRoom (Rooms.name r) (Rooms.users r)
                    (appendOp nb nb b
                       (appendOp na na a createDrawingState)))) as Hr2.
  { unfold rooms2.
    erewrite on_message_request; [|done| |reflexivity].
    2:{ unfold rooms1. by eapply on_message_request. }
    unfold Connection.with_state. simpl. by rewrite Hst. }
  split; [|split; [|split]].
  - unfold Relay.emits. by rewrite Hca.
  - unfold Relay.emits. by rewrite Hcb.
  - simpl.
    destruct (onStrokeAppended_new rect a c) as (Ho1 & Hwf1 & He1 & Ha1);
      try done.
    { rewrite Hstrokes. intros l Hl. by apply elem_of_nil in Hl. }
    { unfold stroke_objects. rewrite Hstrokes. apply not_elem_of_nil. }
    unfold stroke_objects at 2 in Ho1. rewrite Hstrokes in Ho1.
    change (sort sorter ([] ++ [a])) with [a] in Ho1.
    destruct (onStrokeAppended_new rect b (onStrokeAppended rect a c))
      as (Ho2 & _); try done.
    { rewrite Ho1. intros Hin. apply list_elem_of_singleton in Hin.
      congruence. }
    rewrite Ho2, Ho1. by apply sorter_same_time.
  - eexists. split.
    + unfold Relay.emits. rewrite str_or_nonempty by done.
      unfold Relay.room_of, Connection.on_message.
      rewrite str_or_nonempty by done. cbv zeta.
      set (u := Rooms.mkUser _ _ _). cbn [snd].
      assert ((Rooms.ensure jr
                 (Connection.in_room jr (Rooms.addUser u) rooms2)).1
              = Rooms.addUser u
                  (Rooms.mkRoom (Rooms.name r) (Rooms.users r)
                     (appendOp nb nb b
                        (appendOp na na a createDrawingState)))) as ->.
      { unfold Rooms.ensure at 1.
        rewrite (proj1 (in_room_lookup _ _ _)). simpl.
        unfold Rooms.ensure. by rewrite Hr2. }
      simpl Rooms.state. rewrite two_appends by (done || lia). done.
    + simpl. rewrite <-(two_appends a b na nb) by (done || lia).
      rewrite onInitialState_objects; [| |done].
      * rewrite two_appends by (done || lia).
        rewrite !filter_cons_True by done. done.
      * apply reachable_log_ok.
        apply (reachable_step (stroke_start nb nb b)); [|simpl; lia].
        apply (reachable_step (stroke_start na na a)); [|simpl; lia].
        constructor.
Qed.

(** ** Shapes *)

Lemma onWholeStateReplaced_shapes rect l c :
  log_ok l →
  shapes (onWholeStateReplaced rect l c) = filter (λ o, type o = shape) l.
Proof.
  intros Hok. unfold onWholeStateReplaced.
  destruct (alloc_list l (heap c)) as [refs h1].
  destruct (activeStroke c) as [a|]; [case_match|];
    cbv beta zeta iota;
    rewrite (proj1 (proj2 (proj2 (redrawAll_frame _ _)))); simpl;
    by apply sort_sorter_id, log_ok_filter.
Qed.

(** X20.  A shape is relayed with [shape:append] to every socket of the
    room, its author included, and [onShapeAppended] appends whatever
    shape it receives without looking for its id: the author, who has
    put the shape into its list when sending it, holds it twice after the
    echo.  The next snapshot replaces the shape list by the shapes of the
    log. *)
Theorem shape_echo_duplicates op now1 now2 conn rooms jr c rect rect' :
  type op = shape → Connection.joinedRoom conn = Some jr →
  Relay.emits (Connection.shape_add now1 now2 op) conn rooms
  = [(Relay.to_room jr, Relay.shape_append op)]
  ∧ shapes (receive rect (Relay.shape_append op) (addShape op c))
    = shapes c ++ [op; op]
  ∧ ∀ st, reachable st →
      shapes (receive rect' (Relay.canvas (state_replace (ops st)))
                (receive rect (Relay.shape_append op) (addShape op c)))
      = filter (λ o, type o = shape) (ops st).
Proof.
  intros Hop Hconn. split; [|split].
  - unfold Relay.emits. by rewrite Hconn.
  - simpl. unfold onShapeAppended. rewrite decide_True by done.
    rewrite (proj1 (proj2 (proj2 (redrawAll_frame _ _)))). simpl.
    by rewrite <-app_assoc.
  - intros st Hst. simpl. apply onWholeStateReplaced_shapes.
    by apply reachable_log_ok.
Qed.

(** * The author's view of an own stroke *)

Lemma extends_refl h : extends h h.
Proof. intros l o Hl. eauto. Qed.

Lemma extends_trans h1 h2 h3 : extends h1 h2 → extends h2 h3 → extends h1 h3.
Proof.
  intros H12 H23 l o Hl.
  destruct (H12 l o Hl) as (o2 & Hl2 & Hid2 & Hd2).
  destruct (H23 l o2 Hl2) as (o3 & Hl3 & Hid3 & Hd3).
  exists o3. split; [done|]. split; congruence.
Qed.

Lemma extends_alter f l h :
  (∀ o, id (f o) = id o ∧ isDeleted (f o) = isDeleted o) →
  extends h (alter f l h).
Proof.
  intros Hf l' o Hl'. destruct (decide (l = l')) as [->|Hne].
  - exists (f o). rewrite lookup_alter_eq, Hl'. simpl.
    destruct (Hf o) as [? ?]. done.
  - exists o. rewrite lookup_alter_ne by done. done.
Qed.

Lemma extends_alloc_list os h ls h' :
  alloc_list os h = (ls, h') → extends h h'.
Proof.
  intros Hal l o Hl. exists o. split; [|done].
  by eapply alloc_list_lookup.
Qed.

Lemma extends_foldl {A} (f : gmap loc Op → A → gmap loc Op) h (xs : list A) :
  (∀ h x, extends h (f h x)) → extends h (foldl f h xs).
Proof.
  intros Hf. revert h. induction xs as [|x xs IH]; intros h; simpl.
  - apply extends_refl.
  - eapply extends_trans; [apply Hf|apply IH].
Qed.

Lemma extends_restore_points c h l : extends h (restore_points c h l).
Proof.
  unfold restore_points.
  destruct (committedStrokeCoordinates c !! id (h !!! l));
    [|apply extends_refl].
  by apply extends_alter.
Qed.

Section shown.
Context (i : string) (l : loc).

(** The way every handler keeps the object in the list. *)
Lemma Shown_update c h' ss' sh a' :
  Shown i l c → extends (heap c) h' → l ∈ ss' →
  Shown i l (update h' ss' sh a' c).
Proof.
  intros (Hin & Hl & o & Ho & Hid & Hdel) Hext Hl'.
  split; [done|]. split; [done|]. simpl.
  destruct (Hext l o Ho) as (o' & Ho' & Hid' & Hdel').
  exists o'. split; [done|]. split; congruence.
Qed.

Lemma Shown_set_heap c f r :
  Shown i l c →
  (∀ o, id (f o) = id o ∧ isDeleted (f o) = isDeleted o) →
  Shown i l (set_heap (alter f r (heap c)) c).
Proof.
  intros HS Hf. pose proof HS as (_ & Hl & _). unfold set_heap.
  apply Shown_update; [done|by apply extends_alter|done].
Qed.

Lemma Shown_render_step rect c c' :
  render_step rect c c' → Shown i l c → Shown i l c'.
Proof.
  intros Hstep HS. destruct Hstep as [c r sp Hid Hsp|c j sz' np Hj Hsz' Hch].
  - by apply Shown_set_heap.
  - exact HS.
Qed.

Lemma Shown_redrawAll rect c : Shown i l c → Shown i l (redrawAll rect c).
Proof. apply redrawAll_keeps. apply Shown_render_step. Qed.

Lemma Shown_onStrokeAppended rect s c :
  Shown i l c → Shown i l (onStrokeAppended rect s c).
Proof.
  intros HS. pose proof HS as (_ & Hl & _). unfold onStrokeAppended.
  destruct (is_committed c (id s)); [done|].
  destruct (active_is c (id s) && isPointerDown c); [done|].
  destruct (find_stroke (heap c) (id s) (strokes c)) as [e|].
  - case_bool_decide; [|done]. by apply Shown_set_heap.
  - destruct (active_is c (id s) && negb (isPointerDown c)); [done|].
    destruct (alloc s (heap c)) as [r h] eqn:Hal.
    assert (Shown i l
              (update h (sort_refs h (strokes c ++ [r])) (shapes c)
                      (activeStroke c) c)) as HS';
      [|destruct (isPointerDown c); [done|by apply Shown_redrawAll]].
    apply Shown_update; [done| |].
    + apply (extends_alloc_list [s] (heap c) [r]).
      change (alloc_list [s] (heap c))
        with (let (l, h1) := alloc s (heap c) in
              let (ls, h2) := alloc_list [] h1 in (l :: ls, h2)).
      by rewrite Hal.
    + unfold sort_refs. apply elem_of_sort, elem_of_app. by left.
Qed.

Lemma Shown_onStrokePatched j ps c :
  Shown i l c → Shown i l (onStrokePatched j ps c).
Proof.
  intros HS. unfold onStrokePatched.
  destruct (is_committed c j); [done|].
  destruct (active_is c j && isPointerDown c); [done|].
  destruct (find_stroke (heap c) j (strokes c)) as [r|].
  - case_bool_decide; [done|].
    destruct (active_is c j && negb (isPointerDown c)).
    + destruct (activeStroke c); [|done]. case_decide; [|done].
      by apply Shown_set_heap.
    + by apply Shown_set_heap.
  - destruct (active_is c j && negb (isPointerDown c)); [|done].
    destruct (activeStroke c); [|done]. case_decide; [|done].
    by apply Shown_set_heap.
Qed.

Lemma Shown_onInitialState rect list c :
  Shown i l c → Shown i l (onInitialState rect list c).
Proof.
  intros HS. pose proof HS as (Hin & Hl & o & Ho & Hid & _).
  unfold onInitialState.
  destruct (alloc_list list (heap c)) as [refs h1] eqn:Hal.
  apply Shown_redrawAll.
  apply Shown_update; [done| |].
  - eapply extends_trans; [by eapply extends_alloc_list|].
    apply extends_foldl. intros h r. apply extends_restore_points.
  - unfold sort_refs. apply elem_of_sort, elem_of_app. right.
    apply list_elem_of_filter. split; [|done].
    by rewrite (lookup_total_correct _ _ _ Ho), Hid.
Qed.

Lemma Shown_onWholeStateReplaced rect list c :
  Shown i l c → Shown i l (onWholeStateReplaced rect list c).
Proof.
  intros HS. pose proof HS as (Hin & Hl & o & Ho & Hid & _).
  unfold onWholeStateReplaced.
  destruct (alloc_list list (heap c)) as [refs h1] eqn:Hal.
  set (newStrokes := filter _ refs).
  set (ourCommittedStrokes := filter _ (strokes c)).
  set (h2 := foldl _ h1 ourCommittedStrokes).
  set (foreign := filter _ newStrokes).
  assert (extends (heap c) h2) as Hext.
  { eapply extends_trans; [by eapply extends_alloc_list|].
    apply extends_foldl. intros h r. case_decide; [|apply extends_refl].
    apply extends_restore_points. }
  assert (l ∈ ourCommittedStrokes) as Hour.
  { apply list_elem_of_filter. split; [|done]. left.
    by rewrite (lookup_total_correct _ _ _ Ho), Hid. }
  assert (∀ ss a',
            l ∈ ss →
            Shown i l
              (redrawAll rect
                 (update h2 (sort_refs h2 ss)
                         (sort sorter (filter (λ o, type o = shape) list))
                         a' c))) as Hfinish.
  { intros ss a' Hss. apply Shown_redrawAll.
    apply Shown_update; [done..|].
    unfold sort_refs. by apply elem_of_sort. }
  destruct (activeStroke c) as [a|].
  - destruct (find_stroke h2 (id (h2 !!! a)) newStrokes).
    + apply Hfinish. destruct (_ || _); rewrite !elem_of_app; auto.
    + apply Hfinish. rewrite !elem_of_app. auto.
  - apply Hfinish. rewrite elem_of_app. auto.
Qed.

Lemma Shown_deliver rect e c :
  Shown i l c → Shown i l (deliver rect e c).
Proof.
  destruct e; simpl.
  - apply Shown_onInitialState.
  - apply Shown_onStrokeAppended.
  - apply Shown_onStrokePatched.
  - apply Shown_onWholeStateReplaced.
Qed.
End shown.

Lemma onWholeStateReplaced_redrawAll rect list c :
  ∃ c', onWholeStateReplaced rect list c = redrawAll rect c'
        ∧ committedStrokeCoordinates c' = committedStrokeCoordinates c.
Proof.
  unfold onWholeStateReplaced.
  destruct (alloc_list list (heap c)) as [refs h1].
  destruct (activeStroke c) as [a|]; [case_match|]; by eexists.
Qed.

(** C3 at the clear.  The server answers [history:clear] with
    [state:replace] and the empty array.  The client whose stroke list
    holds a stroke object with a locally committed id keeps it: after the
    event the object is still in the stroke list, so the list is not the
    empty snapshot, the object still carries its id and no tombstone, the
    id is still marked as locally committed, and coordinates are still
    stored for it if they were.  No pin is discarded. *)
Theorem clear_keeps_committed_stroke i l rect c :
  Shown i l c →
  l ∈ strokes (deliver rect (state_replace []) c)
  ∧ strokes (deliver rect (state_replace []) c) ≠ []
  ∧ (∃ o, heap (deliver rect (state_replace []) c) !! l = Some o
          ∧ id o = i ∧ truthy (isDeleted o) = false)
  ∧ i ∈ locallyCommittedStrokes (deliver rect (state_replace []) c)
  ∧ (is_Some (committedStrokeCoordinates c !! i) →
     is_Some
       (committedStrokeCoordinates (deliver rect (state_replace []) c) !! i)).
Proof.
  intros HS.
  pose proof (Shown_deliver i l rect (state_replace []) c HS)
    as (Hin & Hl & Ho).
  split; [done|]. split; [by intros Hnil; rewrite Hnil in Hl; set_solver|].
  split; [done|]. split; [done|].
  simpl.
  destruct (onWholeStateReplaced_redrawAll rect [] c) as (c' & -> & <-).
  apply (redrawAll_keeps
           (λ c'', is_Some (committedStrokeCoordinates c' !! i) →
                   is_Some (committedStrokeCoordinates c'' !! i)));
    [|done].
  intros c1 c2 Hstep IH Hsome. specialize (IH Hsome).
  destruct Hstep as [? ? ? ? ?|c1 j sz' np Hj Hsz' Hch]; [done|]. simpl.
  destruct (decide (j = i)) as [->|Hne].
  - by rewrite lookup_insert_eq.
  - by rewrite lookup_insert_ne.
Qed.

(** X21.  The author of a stroke never sees it undone or cleared: a stroke
    object of the list that carries a locally committed id and no
    tombstone stays in the list, under that id and without a tombstone,
    whatever [state:init], [stroke:append], [stroke:patch] and
    [state:replace] events arrive, also snapshots in which the operation
    is tombstoned or missing. *)
Theorem own_stroke_stays_shown i l es c :
  Shown i l c → Shown i l (deliver_all es c).
Proof.
  revert c. unfold deliver_all.
  induction es as [|e es IH]; intros c HS; simpl; [done|].
  by apply IH, Shown_deliver.
Qed.

End collated.

(** * The theorems at work on examples

    The examples are ordered by the collation of the code units. *)

#[local] Existing Instance code_units.
#[local] Existing Instance whole_numbers.



Lemma convergence_distinct_keys_witness :
  ops (run [stroke_start 200 200 s1; stroke_start 200 200 s2]
           createDrawingState)
  = ops (run [stroke_start 200 200 s2; stroke_start 200 200 s1]
             createDrawingState)
  ∧ sort Canvas.sorter [s1; s2] = sort Canvas.sorter [s2; s1].
Proof.
  split.
  - apply (proj1 convergence_distinct_keys).
    + apply reachable_run; [constructor|]. repeat constructor.
    + apply reachable_run; [constructor|]. repeat constructor.
    + vm_compute. reflexivity.
    + vm_compute. intros a b Ha Hb Hab.
      apply list_elem_of_In in Ha, Hb. simpl in Ha, Hb.
      destruct Ha as [<-|[<-|[]]], Hb as [<-|[<-|[]]];
        try reflexivity; vm_compute in Hab; destruct Hab as (_ & _ & [=]).
  - apply (proj2 convergence_distinct_keys).
    + apply Permutation_swap.
    + intros a b Ha Hb Hab.
      apply list_elem_of_In in Ha, Hb. simpl in Ha, Hb.
      destruct Ha as [<-|[<-|[]]], Hb as [<-|[<-|[]]];
        try reflexivity; vm_compute in Hab; discriminate Hab.
Defined.

(** C2 as stated fails: two replicas that receive the same two operations
    of one author, made in the same millisecond and stamped alike, in
    opposite orders hold the same set in different orders. *)
Lemma convergence_counterexample :
  ¬ (∀ st1 st2,
       reachable st1 → reachable st2 → ops st1 ≡ₚ ops st2 →
       ops st1 = ops st2).
Proof.
  intros H.
  specialize (H (run [stroke_start 200 200 s1; stroke_start 200 200 s3]
                     createDrawingState)
                (run [stroke_start 200 200 s3; stroke_start 200 200 s1]
                     createDrawingState)).
  discriminate H.
  - apply reachable_run; [constructor|]. repeat constructor.
  - apply reachable_run; [constructor|]. repeat constructor.
  - vm_compute. apply Permutation_swap.
Qed.

Lemma appendOp_never_rejects_witness :
  NoDup (id <$> ops (appendOp 201 201 s2 (appendOp 200 200 s1
                                            createDrawingState))).
Proof.
  apply (appendOp_never_rejects 201 201 s2
           (appendOp 200 200 s1 createDrawingState)).
  - vm_compute. apply NoDup_singleton.
  - vm_compute. intros H. apply list_elem_of_In in H. simpl in H.
    destruct H as [[=]|[]].
Defined.

(** C4 as stated fails: a second append of an operation whose id is in
    the log is stored next to the first one. *)
Lemma appendOp_duplicate_counterexample :
  ¬ (∀ now1 now2 op st,
       reachable st → id op ∈ id <$> ops st →
       NoDup (id <$> ops st) →
       NoDup (id <$> ops (appendOp now1 now2 op st))).
Proof.
  intros H.
  specialize (H 201 201 s1 (run [stroke_start 200 200 s1]
                                createDrawingState)).
  assert (¬ NoDup ["s1"; "s1"]%string) as Hdup.
  { intros Hnd. apply NoDup_cons in Hnd as [Hnin _]. apply Hnin. left. }
  apply Hdup. apply H.
  - apply reachable_run; [constructor|]. repeat constructor.
  - vm_compute. left.
  - vm_compute. apply NoDup_singleton.
Qed.

Lemma globalUndo_last_visible_witness :
  ∃ l1 l2,
    sort compareOps (ops log_s1_s2) = l1 ++ stamp 201 201 s2 :: l2
    ∧ ops log_s1_s2 = l1 ++ stamp 201 201 s2 :: l2
    ∧ visible l2 = []
    ∧ truthy (isDeleted (stamp 201 201 s2)) = false
    ∧ (∀ o', o' ∈ visible (ops log_s1_s2) → key_le o' (stamp 201 201 s2))
    ∧ globalUndo log_s1_s2
      = mkState (l1 ++ set_isDeleted true (stamp 201 201 s2) :: l2)
                (redoStack log_s1_s2 ++ [id (stamp 201 201 s2)])
    ∧ ops (globalUndo log_s1_s2)
      = l1 ++ mkOp "s2" "bob" stroke draw "#000" 2 [mkPoint 5 5 0]
                   EmptyString (Some 100) (Some 201) (Some true) :: l2
    ∧ redoStack (globalUndo log_s1_s2) = redoStack log_s1_s2 ++ ["s2"%string]
    ∧ visible (ops log_s1_s2)
      = visible (ops (globalUndo log_s1_s2)) ++ [stamp 201 201 s2]
    ∧ tombstoned (ops (globalUndo log_s1_s2))
      ≡ₚ mkOp "s2" "bob" stroke draw "#000" 2 [mkPoint 5 5 0]
              EmptyString (Some 100) (Some 201) (Some true)
         :: tombstoned (ops log_s1_s2).
Proof.
  refine (proj1 (globalUndo_last_visible log_s1_s2 _) (stamp 201 201 s2) _).
  - apply reachable_run; [constructor|]. repeat constructor.
  - reflexivity.
Defined.

Lemma undo_redo_roundtrip_witness :
  globalRedo (globalUndo log_s1_s2) = log_s1_s2
  ∧ visible (ops (globalRedo (globalUndo log_s1_s2)))
    = visible (ops log_s1_s2).
Proof.
  apply (undo_redo_roundtrip log_s1_s2 [stamp 200 200 s1]
                             (stamp 201 201 s2) []).
  - apply reachable_run; [constructor|]. repeat constructor.
  - reflexivity.
  - reflexivity.
  - reflexivity.
  - discriminate.
  - repeat constructor. discriminate.
Defined.

(** C6 as stated fails: when two entries of the log carry the same id,
    undo tombstones the later one and redo re-activates the earlier one,
    so the operation undone stays hidden. *)
Lemma undo_redo_counterexample :
  ¬ (∀ st, reachable st → visible (ops st) ≠ [] →
           visible (ops (globalRedo (globalUndo st))) = visible (ops st)).
Proof.
  intros H.
  specialize (H (run [stroke_start 200 200 s1; stroke_start 201 201 s1]
                     createDrawingState)).
  discriminate H.
  - apply reachable_run; [constructor|]. repeat constructor.
  - discriminate.
Qed.

Lemma redo_invalidation_witness :
  globalUndo createDrawingState = createDrawingState
  ∧ globalRedo createDrawingState = createDrawingState.
Proof.
  apply (proj2 (proj2 (proj2 redo_invalidation))).
  - constructor.
  - reflexivity.
Defined.

Lemma patchPoints_replaces_witness :
  patchPoints "s2" [mkPoint 5 5 0; mkPoint 6 6 1] log_s1_s2
  = mkState ([stamp 200 200 s1]
             ++ set_points [mkPoint 5 5 0; mkPoint 6 6 1] (stamp 201 201 s2)
             :: [])
            (redoStack log_s1_s2)
  ∧ points (set_points [mkPoint 5 5 0; mkPoint 6 6 1] (stamp 201 201 s2))
    = [mkPoint 5 5 0; mkPoint 6 6 1]
  ∧ (points (stamp 201 201 s2)
       `prefix_of` points (set_points [mkPoint 5 5 0; mkPoint 6 6 1]
                                      (stamp 201 201 s2))
     ↔ points (stamp 201 201 s2)
         `prefix_of` [mkPoint 5 5 0; mkPoint 6 6 1]).
Proof.
  apply (proj1 (patchPoints_replaces "s2" [mkPoint 5 5 0; mkPoint 6 6 1]
                                     log_s1_s2)).
  - reflexivity.
  - reflexivity.
  - repeat constructor. discriminate.
Defined.

(** C8 as stated fails: a patch that carries fewer points than the log
    holds for the stroke shortens the stored sequence, also after
    [stroke:end]. *)
Lemma patchPoints_shrink_counterexample :
  ¬ (∀ st i ps o o',
       reachable st → ops st !! 0%nat = Some o → id o = i →
       ops (handle (stroke_update i ps) (handle (stroke_end i) st)) !! 0%nat
       = Some o' →
       points o `prefix_of` points o').
Proof.
  intros H.
  specialize (H (run [stroke_start 200 200 s1] createDrawingState)
                "s1"%string [] (stamp 200 200 s1)
                (set_points [] (stamp 200 200 s1))).
  destruct H as [k Hk]; [|reflexivity..|discriminate Hk].
  apply reachable_run; [constructor|]. repeat constructor.
Qed.

(** C9 as stated fails: an operation that carries a server timestamp, as
    every record of a saved snapshot does, is stored with the clock
    reading of the new append. *)
Lemma serverTimestamp_counterexample :
  ¬ (∀ now1 now2 op r,
       serverTimestamp op = Some r →
       serverTimestamp <$> ops (appendOp now1 now2 op createDrawingState)
       = [Some r]).
Proof.
  intros H. specialize (H 300 300 (stamp 200 200 s1) 200 eq_refl).
  discriminate H.
Qed.

Lemma clear_keeps_committed_stroke_witness :
  0%nat ∈ strokes (deliver (1, 1) (state_replace []) committed_s1)
  ∧ strokes (deliver (1, 1) (state_replace []) committed_s1) ≠ []
  ∧ (∃ o, heap (deliver (1, 1) (state_replace []) committed_s1) !! 0%nat
          = Some o
          ∧ id o = "s1"%string ∧ truthy (isDeleted o) = false)
  ∧ "s1"%string
      ∈ locallyCommittedStrokes
          (deliver (1, 1) (state_replace []) committed_s1)
  ∧ (is_Some (committedStrokeCoordinates committed_s1 !! "s1"%string) →
     is_Some
       (committedStrokeCoordinates
          (deliver (1, 1) (state_replace []) committed_s1) !! "s1"%string)).
Proof.
  apply (clear_keeps_committed_stroke "s1" 0%nat (1, 1) committed_s1).
  unfold Shown, committed_s1. simpl.
  split; [by apply elem_of_singleton_2|].
  split; [by apply list_elem_of_singleton|].
  exists s1. split; [apply lookup_singleton_eq|by split].
Defined.

(** The state of the author after the clear, computed: the stroke list
    still holds the committed stroke with its points, while the log of
    the room and the list of every other client are empty. *)
Example clear_leaves_s1 :
  stroke_objects (deliver (1, 1) (state_replace []) committed_s1) = [s1]
  ∧ ops (handle history_clear log_s1_s2) = []
  ∧ stroke_objects (deliver (1, 1) (state_replace []) viewer) = [].
Proof. repeat split. Qed.

(** A committed stroke follows the canvas: after the box has doubled, the
    rendering that ends the next handler recomputes the stored
    coordinates from the normalised ones and assigns them to the
    stroke. *)
Example resize_moves_s1 :
  committedStrokeCoordinates
    (deliver (2, 2) (stroke_append s2) committed_s1) !! "s1"%string
  = Some [mkPoint 2 2 0]
  ∧ committedStrokeCanvasSize
      (deliver (2, 2) (stroke_append s2) committed_s1) !! "s1"%string
    = Some (2, 2)
  ∧ points <$> stroke_objects (deliver (2, 2) (stroke_append s2) committed_s1)
    = [[mkPoint 2 2 0]; [mkPoint 5 5 0]].
Proof. repeat split. Qed.

(** A stroke being drawn by its author, then committed by [endStroke]. *)
Example endStroke_commits_s1 :
  Committed "s1" [mkPoint 1 1 0] (1, 1)
    (endStroke (λ ps, ps) (1, 1) drawing_s1).
Proof.
  apply (endStroke_Committed (λ ps, ps) (1, 1) _ 0%nat s1); simpl.
  - reflexivity.
  - apply lookup_singleton_eq.
  - discriminate.
  - intros l Hl. by apply elem_of_nil in Hl.
  - intros k1 k2 l1 l2 Hk1. by rewrite lookup_nil in Hk1.
  - reflexivity.
Qed.

(** Undo on the log [[s1; s2]] tombstones [s2]; a reload of the snapshot
    taken then brings [s2] back as visible and leaves nothing to redo. *)
Example reload_resurrects_s2 :
  visible (ops (globalUndo log_s1_s2)) = [stamp 200 200 s1]
  ∧ visible (ops (loadOps ((λ o, (300, 300, o)) <$> ops (globalUndo log_s1_s2))
                          (globalUndo log_s1_s2)))
    = [stamp 300 300 s1; stamp 300 300 s2]
  ∧ redoStack (globalUndo log_s1_s2) = ["s2"%string]
  ∧ globalRedo (clear (globalUndo log_s1_s2)) = clear (globalUndo log_s1_s2).
Proof. repeat split. Qed.

Lemma appendOp_position_witness :
  ∃ l1 l2,
    ops log_s1_s2 = l1 ++ l2
    ∧ ops (appendOp 150 150 s3 log_s1_s2) = l1 ++ stamp 150 150 s3 :: l2
    ∧ Forall (λ o, key_le o (stamp 150 150 s3)) l1
    ∧ Forall (precedes (stamp 150 150 s3)) l2.
Proof.
  apply (appendOp_position 150 150 s3 log_s1_s2).
  - apply reachable_run; [constructor|]. repeat constructor.
  - reflexivity.
Defined.

Lemma undo_redo_counts_witness :
  ∃ o, visible (ops log_s1_s2) = visible (ops (globalUndo log_s1_s2)) ++ [o]
       ∧ redoStack (globalUndo log_s1_s2) = redoStack log_s1_s2 ++ [id o].
Proof.
  apply (undo_redo_counts log_s1_s2). discriminate.
Defined.

Lemma redoStack_refers_to_log_witness :
  Forall (λ i, i ∈ id <$> ops (globalUndo log_s1_s2))
         (redoStack (globalUndo log_s1_s2))
  ∧ (length (redoStack (globalUndo log_s1_s2))
     ≤ length (tombstoned (ops (globalUndo log_s1_s2))))%nat.
Proof.
  apply (redoStack_refers_to_log (globalUndo log_s1_s2)).
  apply (reachable_step history_undo); [|exact I].
  apply reachable_run; [constructor|]. repeat constructor.
Defined.

Lemma undo_n_redo_n_witness :
  Nat.iter 2 globalRedo (Nat.iter 2 globalUndo log_s1_s2) = log_s1_s2.
Proof.
  apply (undo_n_redo_n log_s1_s2 2).
  - apply reachable_run; [constructor|]. repeat constructor.
  - vm_compute. repeat constructor; intros H; apply list_elem_of_In in H;
      simpl in H; intuition discriminate.
  - repeat constructor; discriminate.
  - vm_compute. lia.
Defined.

Lemma clear_is_final_witness :
  run [history_redo; history_undo; stroke_update "s1" []; history_redo]
      (clear log_s1_s2)
  = clear log_s1_s2.
Proof.
  apply (clear_is_final _ log_s1_s2). repeat constructor.
Defined.

Lemma ensure_get_witness :
  (Rooms.ensure "lobby" ∅).1 = Rooms.mkRoom "lobby" [] createDrawingState.
Proof.
  apply (ensure_get "lobby" ∅). apply lookup_empty.
Defined.

Lemma presence_per_socket_witness :
  Rooms.removeUser "sock1"
    (Rooms.addUser (Rooms.mkUser "alice" "sock1" "#f00")
                   (Rooms.mkRoom "lobby" [] createDrawingState))
  = Rooms.mkRoom "lobby" [] createDrawingState.
Proof.
  apply (presence_per_socket (Rooms.mkUser "alice" "sock1" "#f00") "sock1"
           (Rooms.mkRoom "lobby" [] createDrawingState)).
  - apply NoDup_nil_2.
  - apply not_elem_of_nil.
Defined.

Lemma connection_acts_on_joined_room_witness :
  Connection.on_message (Connection.stroke_start 200 200 s1)
    (Connection.mkConn "sock1" None None None) ∅
  = (Connection.mkConn "sock1" None None None, ∅).
Proof.
  apply (connection_acts_on_joined_room (Connection.stroke_start 200 200 s1)
           (Connection.mkConn "sock1" None None None) ∅);
    reflexivity.
Defined.

Lemma second_join_leaves_first_room_witness :
  ∃ r,
    (Connection.on_messages
       (Connection.join (Some "a"%string) "alice" None
        :: Connection.join (Some "b"%string) "alice" None
        :: [Connection.history_undo] ++ [Connection.disconnect])
       (Connection.mkConn "sock1" None None None) ∅).2
      !! Connection.str_or (Some "a"%string) "lobby" = Some r
    ∧ Connection.socket_id (Connection.mkConn "sock1" None None None)
        ∈ Rooms.sockets r.
Proof.
  apply second_join_leaves_first_room.
  - discriminate.
  - repeat constructor.
Defined.

Lemma drawing_not_interrupted_witness :
  Drawing 0%nat
    (set_points
       (points s1
        ++ moved [pointer_move (mkPoint 2 2 1);
                  network (1, 1) (stroke_patch "s1" []);
                  network (1, 1) (state_replace []);
                  pointer_move (mkPoint 3 3 2)]) s1)
    (inputs [pointer_move (mkPoint 2 2 1);
             network (1, 1) (stroke_patch "s1" []);
             network (1, 1) (state_replace []);
             pointer_move (mkPoint 3 3 2)] drawing_s1).
Proof.
  apply (drawing_not_interrupted 0%nat s1 drawing_s1).
  split; [reflexivity|]. split; [reflexivity|].
  split; [apply lookup_singleton_eq|apply not_elem_of_empty].
Defined.


Lemma save_then_load_witness :
  ∃ r',
    (Persistence.load "a_b" (λ _, (300, 300))
       (Persistence.save "a b" store_a_b).2).1
    = Persistence.ok_count (length (ops log_s1_s2))
    ∧ Persistence.rooms
        (Persistence.load "a_b" (λ _, (300, 300))
           (Persistence.save "a b" store_a_b).2).2
        !! "a_b"%string = Some r'
    ∧ ops (Rooms.state r') ≡ₚ restamped (λ _, (300, 300)) (ops log_s1_s2)
    ∧ timestamp <$> restamped (λ _, (300, 300)) (ops log_s1_s2)
      = timestamp <$> ops log_s1_s2
    ∧ (NoDup (authoredAt <$> ops log_s1_s2) →
       ops (Rooms.state r') = restamped (λ _, (300, 300)) (ops log_s1_s2)).
Proof.
  apply (save_then_load "a b" "a_b" (λ _, (300, 300)) store_a_b
           (Rooms.mkRoom "a b" [] log_s1_s2)).
  - discriminate.
  - discriminate.
  - reflexivity.
  - apply lookup_singleton_eq.
  - apply reachable_run; [constructor|]. repeat constructor.
  - intros _. simpl. lia.
Defined.

Lemma roomFile_names_witness :
  Persistence.sanitize "room-1_A" = "room-1_A"%string.
Proof.
  apply (roomFile_names "room-1_A" "lobby"). reflexivity.
Defined.

Lemma persistence_frame_witness :
  (Persistence.load "a b" (λ _, (300, 300)) store_bad_record).1
  = Persistence.failed 500 "load_failed"
  ∧ ∃ r', Persistence.rooms
            (Persistence.load "a b" (λ _, (300, 300)) store_bad_record).2
            !! "a b"%string = Some r'
          ∧ ops (Rooms.state r') ≡ₚ restamped (λ _, (300, 300)) [s1]
          ∧ redoStack (Rooms.state r') = [].
Proof.
  apply (persistence_frame "a b" (λ _, (300, 300)) store_bad_record)
    with (rest := [Some s2]).
  reflexivity.
Defined.

(** A reload does not always keep the order: two operations with the
    same client timestamp stand in the order of their arrival, and after
    a reload within one millisecond in the order of their user ids. *)
Example reload_reorders_equal_timestamps :
  id <$> ops (run [stroke_start 200 200 s2; stroke_start 201 201 s1]
                  createDrawingState) = ["s2"; "s1"]%string
  ∧ id <$> ops (loadOps
                  (imap (λ k op, (300, 300, op))
                     (ops (run [stroke_start 200 200 s2;
                                stroke_start 201 201 s1]
                               createDrawingState)))
                  createDrawingState) = ["s1"; "s2"]%string.
Proof. split; reflexivity. Qed.

Lemma randomColorFromId_hue_witness :
  Socket.randomColorFromId "Aa" = Socket.randomColorFromId "BB".
Proof.
  apply (randomColorFromId_hue "Aa" "BB"). reflexivity.
Defined.

Lemma join_once_per_reset_witness :
  Socket.calls [Socket.joinRoom true; Socket.joinRoom true]
               (Socket.mkJoiner true 1)
  = Socket.mkJoiner true 1.
Proof.
  apply (join_once_per_reset _ (Socket.mkJoiner true 1)).
  - reflexivity.
  - repeat constructor.
Defined.

Lemma smoothPoints_shape_witness :
  Smoothing.smoothPoints
    [Smoothing.mkPoint 0 0 0; Smoothing.mkPoint 4 8 1;
     Smoothing.mkPoint 0 4 2; Smoothing.mkPoint 2 2 3] !! 1%nat
  = Some (Smoothing.mkPoint 2 5 1).
Proof.
  apply (proj2 (proj2 (proj2 (proj2 (proj2
           (smoothPoints_shape
              [Smoothing.mkPoint 0 0 0; Smoothing.mkPoint 4 8 1;
               Smoothing.mkPoint 0 4 2; Smoothing.mkPoint 2 2 3]))))) 0%nat
           (Smoothing.mkPoint 0 0 0) (Smoothing.mkPoint 4 8 1)
           (Smoothing.mkPoint 0 4 2)); reflexivity.
Defined.

(** A stroke of four points, smoothed: the two inner points move, each to
    the mean of the captured points around it. *)
Example smoothPoints_four :
  Smoothing.smoothPoints
    [Smoothing.mkPoint 0 0 0; Smoothing.mkPoint 4 8 1;
     Smoothing.mkPoint 0 4 2; Smoothing.mkPoint 2 2 3]
  = [Smoothing.mkPoint 0 0 0; Smoothing.mkPoint 2 5 1;
     Smoothing.mkPoint 1.5 4.5 2; Smoothing.mkPoint 2 2 3].
Proof. reflexivity. Qed.


Lemma live_and_late_order_witness :
  stroke_objects
    (receive (1, 1) (Relay.canvas (stroke_append sa))
       (receive (1, 1) (Relay.canvas (stroke_append sz)) viewer))
  = [sa; sz]
  ∧ stroke_objects
      (receive (1, 1)
         (Relay.canvas (state_init [stamp 200 200 sz; stamp 201 201 sa]))
         viewer)
    = [stamp 200 200 sz; stamp 201 201 sa].
Proof.
  destruct (live_and_late_order sz sa 200 201
              (Connection.mkConn "sock1" (Some "lobby"%string) None None)
              (Connection.mkConn "sock2" (Some "lobby"%string) None None)
              (Connection.mkConn "sock3" None None None)
              "lobby" (Rooms.mkRoom "lobby" [] createDrawingState)
              {[ "lobby"%string := Rooms.mkRoom "lobby" [] createDrawingState ]}
              "carol" None viewer (1, 1))
    as (_ & _ & Hlive & users & _ & Hlate);
    try reflexivity; try discriminate.
  - exists 100. split; [reflexivity|discriminate].
  - lia.
  - by split.
Defined.

Lemma shape_echo_duplicates_witness :
  shapes (receive (1, 1) (Relay.shape_append r1) (addShape r1 viewer))
  = shapes viewer ++ [r1; r1].
Proof.
  apply (shape_echo_duplicates r1 200 200
           (Connection.mkConn "sock1" (Some "lobby"%string) None None)
           ∅ "lobby" viewer (1, 1) (1, 1)); reflexivity.
Defined.

Lemma own_stroke_stays_shown_witness :
  Shown "s1" 0%nat
    (deliver_all
       [((1, 1), state_replace [set_isDeleted true (stamp 200 200 s1)]);
        ((2, 2), state_replace [])]
       committed_s1).
Proof.
  apply (own_stroke_stays_shown "s1" 0%nat).
  unfold Shown, committed_s1. simpl.
  split; [by apply elem_of_singleton_2|].
  split; [by apply list_elem_of_singleton|].
  exists s1. split; [apply lookup_singleton_eq|by split].
Defined.
